(** * Listen-Attend-Spell (asr/models/las/network.py): shallow embedding

  The first part of this file embeds the parts of [network.py] that carry
  the length, scheduling and normalisation logic of the model; the second
  part states and proves the properties.

  Conventions.
  - Python integers and the entries of integer tensors are [Z]; loop
    indices produced by [range] are [nat].
  - A one-dimensional tensor is a list; a two-dimensional tensor is a list
    of rows.
  - Python floats are idealised: exact rationals ([Q]) where the code only
    compares and does affine arithmetic (teacher-forcing ratio), exact
    reals ([R]) where it calls [exp] and [log]. Rounding is not modelled.
  - The learned layers ([nn.LSTM], [nn.Linear], ...) and the helpers of
    [asr.utils.misc] ([onehot2int], [int2onehot]) are parameters. *)

From Stdlib Require Import ZArith List Bool Arith Lia ZifyNat QArith Qfield.
From Stdlib Require Import Reals Lra Psatz.
From Stdlib Require String.
Import ListNotations.

(* ================================================================== *)
(** * Part I: the embedding *)
(* ================================================================== *)

(** ** Tensor primitives *)

Module Torch.

(** Element-wise binary operation on two tensors of the same shape. *)
Fixpoint map2 {A B C : Type} (f : A -> B -> C) (l1 : list A) (l2 : list B)
  : list C :=
  match l1, l2 with
  | a :: l1', b :: l2' => f a b :: map2 f l1' l2'
  | _, _ => []
  end.

(** [t[mask] = v]: in-place assignment through a byte mask. *)
Definition masked_fill (mask : list bool) (v : Z) (t : list Z) : list Z :=
  map2 (fun (m : bool) (x : Z) => if m then v else x) mask t.

(** [t[mask]] read as a value: the selected entries, in order. *)
Fixpoint masked_select {A : Type} (mask : list bool) (t : list A) : list A :=
  match mask, t with
  | m :: mask', x :: t' =>
      if m then x :: masked_select mask' t' else masked_select mask' t'
  | _, _ => []
  end.

(** [t.any()] and [t.all()] on a byte tensor. *)
Definition any (t : list bool) : bool := existsb (fun b => b) t.
Definition all (t : list bool) : bool := forallb (fun b => b) t.

(** Arithmetic of a [torch.int] (32-bit signed) entry. *)
Definition wrap32 (z : Z) : Z := ((z + 2 ^ 31) mod 2 ^ 32 - 2 ^ 31)%Z.

(** *** A store of integer tensors

    Indexing a tensor with a mask ([t[mask]], [__getitem__]) builds a new
    tensor holding a copy of the selected entries, while the methods with a
    trailing underscore mutate the tensor they are called on.  To follow
    which tensor a mutation reaches, tensors live in a store and are
    passed by reference. *)

Definition Ref := nat.
Definition Store := list (list Z).

Definition M (A : Type) : Type := Store -> A * Store.

Definition ret {A : Type} (a : A) : M A := fun s => (a, s).

Definition bind {A B : Type} (m : M A) (k : A -> M B) : M B :=
  fun s => let (a, s') := m s in k a s'.

Declare Scope torch_scope.
Delimit Scope torch_scope with torch.
Notation "x <- m ;; k" := (bind m (fun x => k))
  (at level 61, m at next level, right associativity) : torch_scope.
Notation "m ;;; k" := (bind m (fun _ => k))
  (at level 61, right associativity) : torch_scope.

(** A new tensor object. *)
Definition alloc (t : list Z) : M Ref :=
  fun s => (length s, s ++ [t]).

Definition read (r : Ref) : M (list Z) :=
  fun s => (nth r s [], s).

Fixpoint update {A : Type} (i : nat) (v : A) (l : list A) : list A :=
  match l, i with
  | [], _ => []
  | _ :: l', O => v :: l'
  | x :: l', S i' => x :: update i' v l'
  end.

Definition write (r : Ref) (t : list Z) : M unit :=
  fun s => (tt, update r t s).

(** [t.ne(v)]: a fresh byte tensor, returned here as a value. *)
Definition ne (r : Ref) (v : Z) : M (list bool) :=
  fun s => (map (fun x => negb (x =? v)%Z) (nth r s []), s).

(** [t[mask]] as an expression: a new tensor in the store. *)
Definition getitem_mask (r : Ref) (mask : list bool) : M Ref :=
  fun s => alloc (masked_select mask (nth r s [])) s.

(** [t.sub_(k)]: in place on [t]; returns [t] itself. *)
Definition sub_ (r : Ref) (k : Z) : M Ref :=
  fun s => (r, update r (map (fun x => wrap32 (x - k)) (nth r s [])) s).

(** Runs a computation in an empty store. *)
Definition run {A : Type} (m : M A) : A := fst (m []).

End Torch.

(** ** TFRScheduler *)

Module TFRScheduler.

Local Open Scope Z_scope.

Record t : Type := mk {
  restart : bool;
  upper : Q;
  lower : Q;
  warm_up : Z;
  end_epochs : Z;
  slope : Q;
  last_epoch : Z
}.

(** [__init__]; [None] stands for the failed assertion on the ranges and
    for the division by zero when [epochs = 0]. *)
Definition init (ranges : Q * Q) (warm_up epochs : Z) (restart : bool)
  : option t :=
  let (up, lo) := ranges in
  if (Qle_bool 0 lo && Qle_bool lo up && negb (Qle_bool 1 up))%bool then
    if epochs =? 0 then None
    else Some {| restart := restart;
                 upper := up;
                 lower := lo;
                 warm_up := warm_up;
                 end_epochs := epochs + warm_up;
                 slope := ((lo - up) / inject_Z epochs)%Q;
                 last_epoch := -1 |}
  else None.

Definition get_tfr (s : t) : Q :=
  if last_epoch s <? warm_up s then upper s
  else if last_epoch s <? end_epochs s then
    (upper s + slope s * inject_Z (last_epoch s - warm_up s))%Q
  else lower s.

Definition set_last_epoch (s : t) (e : Z) : t :=
  {| restart := restart s; upper := upper s; lower := lower s;
     warm_up := warm_up s; end_epochs := end_epochs s; slope := slope s;
     last_epoch := e |}.

(** [step(epoch=None)]: the new scheduler and the value stored into
    [model.tfr]. *)
Definition step (s : t) (epoch : option Z) : t * Q :=
  let s1 := if (restart s && (last_epoch s =? end_epochs s))%bool
            then set_last_epoch s (-1) else s in
  let epoch' := match epoch with
                | None => last_epoch s1 + 1
                | Some e => e
                end in
  let s2 := set_last_epoch s1 epoch' in
  (s2, get_tfr s2).

(** The scheduler after [n] calls of [step()] without argument. *)
Fixpoint steps (n : nat) (s : t) : t :=
  match n with
  | O => s
  | S n' => fst (step (steps n' s) None)
  end.

End TFRScheduler.

(** ** Listener: the shapes through the encoder *)

Module Listener.

Local Open Scope Z_scope.

(** The formula quoted in [__init__]: [(W - F + 2P) / S + 1]. *)
Definition out_size (w f p s : Z) : Z := (w - f + 2 * p) / s + 1.

(** One halving stage, [(W - 3 + 2*1) // 2 + 1]. *)
Definition halve (w : Z) : Z := out_size w 3 1 2.

Inductive layer : Type :=
| Conv2d (c_in c_out : Z) (kernel_size stride padding : Z * Z)
| LeakyReLU
| AvgPool2d (kernel_size stride padding : Z * Z)
| BatchNorm2d (num_features : Z).

(** A feature map is (batch, channel, dimension 2, dimension 3); the
    first component of a kernel, stride or padding pair acts on dimension 2,
    the second on dimension 3. *)
Definition shape4 : Type := (Z * Z * Z * Z)%type.

Definition window (i k p s : Z) : option Z :=
  if (0 <? s) && (0 <=? i + 2 * p - k) then Some (out_size i k p s)
  else None.

Definition layer_shape (l : layer) (x : shape4) : option shape4 :=
  let '(n, c, h, w) := x in
  match l with
  | Conv2d c_in c_out (kh, kw) (sh, sw) (ph, pw) =>
      if c =? c_in then
        match window h kh ph sh, window w kw pw sw with
        | Some h', Some w' => Some (n, c_out, h', w')
        | _, _ => None
        end
      else None
  | LeakyReLU => Some x
  | AvgPool2d (kh, kw) (sh, sw) (ph, pw) =>
      match window h kh ph sh, window w kw pw sw with
      | Some h', Some w' => Some (n, c, h', w')
      | _, _ => None
      end
  | BatchNorm2d num_features =>
      if c =? num_features then Some x else None
  end.

(** [nn.Sequential]. *)
Fixpoint sequential (ls : list layer) (x : shape4) : option shape4 :=
  match ls with
  | [] => Some x
  | l :: ls' =>
      match layer_shape l x with
      | Some x' => sequential ls' x'
      | None => None
      end
  end.

Record config : Type := mk_config {
  listen_vec_size : Z;
  input_folding : Z;
  rnn_hidden_size : Z;
  rnn_num_layers : Z;
  bidirectional : bool;
  last_fc : bool
}.

Record t : Type := mk {
  feature : list layer;
  rnn_input_size : Z;
  rnn_hidden : Z;
  rnn_bidirectional : bool;
  fc : option (Z * Z)   (* in and out features of [fc1] *)
}.

(** [__init__]; [None] is the failed assertion
    [listen_vec_size == rnn_hidden_size]. *)
Definition init (cfg : config) : option t :=
  let W0 := 129 in
  let C0 := 2 * input_folding cfg in
  let W1 := (W0 - 3 + 2 * 1) / 2 + 1 in
  let C1 := 64 in
  let W2 := (W1 - 3 + 2 * 1) / 2 + 1 in
  let C2 := C1 * 2 in
  let W3 := (W2 - 3 + 2 * 1) / 2 + 1 in
  let C3 := C2 * 2 in
  let H0 := C3 * W3 in
  let feature :=
    [ Conv2d C0 C1 (11, 3) (1, 1) (5, 1);
      LeakyReLU;
      AvgPool2d (3, 1) (2, 1) (1, 0);
      BatchNorm2d C1;
      Conv2d C1 C2 (11, 3) (1, 1) (5, 1);
      LeakyReLU;
      AvgPool2d (3, 1) (2, 1) (1, 0);
      BatchNorm2d C2;
      Conv2d C2 C3 (11, 3) (1, 1) (5, 1);
      LeakyReLU;
      AvgPool2d (3, 1) (2, 1) (1, 0);
      BatchNorm2d C3 ] in
  if last_fc cfg then
    Some {| feature := feature;
            rnn_input_size := H0;
            rnn_hidden := rnn_hidden_size cfg;
            rnn_bidirectional := bidirectional cfg;
            fc := Some (rnn_hidden_size cfg, listen_vec_size cfg) |}
  else if listen_vec_size cfg =? rnn_hidden_size cfg then
    Some {| feature := feature;
            rnn_input_size := H0;
            rnn_hidden := rnn_hidden_size cfg;
            rnn_bidirectional := bidirectional cfg;
            fc := None |}
  else None.

(** The lengths [pack_padded_sequence] accepts for a batch-first input
    of shape (n, t, _): one per sample, positive, in decreasing order, none
    beyond the padded extent. *)
Fixpoint decreasing (ls : list Z) : bool :=
  match ls with
  | [] => true
  | a :: ls' =>
      match ls' with
      | [] => true
      | b :: _ => (b <=? a) && decreasing ls'
      end
  end.

Definition packable (n t : Z) (seq_lens : list Z) : bool :=
  (Z.of_nat (length seq_lens) =? n) && (0 <? n)
  && forallb (fun l => 0 <? l) seq_lens
  && decreasing seq_lens
  && (hd 0 seq_lens <=? t).

(** [forward], on shapes: the shape of the returned [y]. *)
Definition forward_shape (m : t) (x : shape4) (seq_lens : list Z)
  : option (Z * Z * Z) :=
  match sequential (feature m) x with
  | None => None
  | Some (n, c, d2, d3) =>
      (* h.view(-1, h.size(1) * h.size(2), h.size(3)), then transpose(1, 2):
         N x T x H *)
      let '(n, t, hsz) := (n, d3, c * d2) in
      if packable n t seq_lens && (hsz =? rnn_input_size m) then
        (* pad_packed_sequence pads up to the longest sequence *)
        let t' := hd 0 seq_lens in
        let width := if rnn_bidirectional m then 2 * rnn_hidden m
                     else rnn_hidden m in
        (* y.view(n, t', 2, -1).sum(2).view(n, t', -1) *)
        let width := if rnn_bidirectional m then width / 2 else width in
        match fc m with
        | Some (fin, fout) =>
            if width =? fin then Some (n, t', fout) else None
        | None => Some (n, t', width)
        end
      else None
  end.

(** The encoder as [ListenAttendSpell.__init__] builds it. *)
Definition las_config (listen_vec_size input_folding : Z) : config :=
  {| listen_vec_size := listen_vec_size;
     input_folding := input_folding;
     rnn_hidden_size := listen_vec_size;
     rnn_num_layers := 4;
     bidirectional := true;
     last_fc := true |}.

End Listener.

(** ** MaskedSoftmax *)

Module MaskedSoftmax.

Local Open Scope R_scope.

(** A (rows, time) tensor of floats. *)
Definition tensor : Type := list (list R).

(** [epsilon=1e-5]. *)
Definition epsilon : R := 1 / 100000.

Definition sum (l : list R) : R := fold_right Rplus 0 l.

(** [e.max()]: the largest entry of the whole tensor; it raises on a
    tensor without entries. *)
Definition max_entries (l : list R) : option R :=
  match l with
  | [] => None
  | a :: l' => Some (fold_left Rmax l' a)
  end.

Definition tensor_max (e : tensor) : option R := max_entries (concat e).

(** [nn.Softmax(dim=-1)] on one row. *)
Definition softmax (row : list R) : list R :=
  map (fun v => exp v / sum (map exp row)) row.

(** Broadcasting along one dimension: the two sizes are equal, or one of
    them is 1 and that entry is repeated; any other pair of sizes
    raises. *)
Definition broadcast_map2 {A B C : Type} (f : A -> B -> C)
  (a : list A) (b : list B) : option (list C) :=
  if (length a =? length b)%nat then Some (Torch.map2 f a b)
  else
    match a, b with
    | [x], _ => Some (map (f x) b)
    | _, [y] => Some (map (fun x => f x y) a)
    | _, _ => None
    end.

Fixpoint all_some {A : Type} (l : list (option A)) : option (list A) :=
  match l with
  | [] => Some []
  | None :: _ => None
  | Some a :: l' =>
      match all_some l' with
      | Some r => Some (a :: r)
      | None => None
      end
  end.

(** [a * b] on two (rows, time) tensors: both dimensions broadcast.  A
    tensor is a list of its rows, so a tensor without rows records no
    width; the module is handed at least one row. *)
Definition mul (a b : tensor) : option tensor :=
  match broadcast_map2 (broadcast_map2 Rmult) a b with
  | Some rows => all_some rows
  | None => None
  end.

Definition forward (e : tensor) (mask : option tensor) : option tensor :=
  match mask with
  | None => Some (map softmax e)
  | Some mask =>
      match tensor_max e with
      | None => None
      | Some mx =>
          let shift_e := map (map (fun v => v - mx)) e in
          match mul (map (map exp) shift_e) mask with
          | None => None
          | Some exps =>
              let sums := map (fun row => sum row + epsilon) exps in
              Some (Torch.map2 (fun row s => map (fun v => v / s) row)
                      exps sums)
          end
      end
  end.

(** *** Vocabulary of the statements *)

(** The weight a row puts on its valid positions: the sum of the weights
    at the positions where the mask is 1. *)
Definition valid_weight (w mask_row : list R) : R :=
  sum (Torch.map2 Rmult w mask_row).

(** The masked exponentials of one row. *)
Definition masked_exps (mx : R) (e_row mask_row : list R) : list R :=
  Torch.map2 Rmult (map exp (map (fun v => v - mx) e_row)) mask_row.

(** A tensor of [rows] rows of [cols] entries each. *)
Definition has_shape (rows cols : nat) (t : tensor) : Prop :=
  length t = rows /\ Forall (fun r => length r = cols) t.

(** Two sizes that broadcast, and the size they broadcast to. *)
Definition compatible (a b : nat) : Prop := a = b \/ a = 1%nat \/ b = 1%nat.

Definition broadcast_size (a b : nat) : nat :=
  if (a =? 1)%nat then b else a.

End MaskedSoftmax.

(** ** LogWithLabelSmoothing *)

Module LogWithLabelSmoothing.

Local Open Scope R_scope.

(** [forward] on one row of the last dimension; [x.size(-1)] is its
    length.  [ln] stands for [log] where the argument is positive. *)
Definition forward (floor : R) (x : list R) : list R :=
  map (fun p => ln ((1 - floor) * p + floor / INR (length x))) x.

End LogWithLabelSmoothing.

(** ** Speller: the decode loop *)

Module Speller.

Local Open Scope Z_scope.

Record config : Type := mk_config {
  label_vec_size : Z;
  sos : Z;
  eos : Z;
  max_seq_lens : nat
}.

(** [self.num_eos = 3]. *)
Definition num_eos : nat := 3.

(** [self.tfr = 1.], until a scheduler overwrites it. *)
Definition initial_tfr : Q := 1%Q.

(** [__init__], with its assertions on the reserved labels. *)
Definition init (label_vec_size : Z) (max_seq_lens : nat) (sos eos : option Z)
  : option config :=
  match sos, eos with
  | Some s, Some e =>
      if (0 <=? s) && (s <? label_vec_size) && (0 <=? e)
         && (e <? label_vec_size) && negb (s =? e)
      then Some {| label_vec_size := label_vec_size; sos := s; eos := e;
                   max_seq_lens := max_seq_lens |}
      else None
  | _, _ => None
  end.

(** [_is_sample_step], for [r] the value drawn by
    [np.random.random_sample()]: [r < self.tfr]. *)
Definition _is_sample_step (tfr r : Q) : bool :=
  match (r ?= tfr)%Q with
  | Lt => true
  | _ => false
  end.

(** Which tensor line 316-321 put in front of the context. *)
Inductive feed : Type :=
| Emitted              (* [y_hat], the distribution just emitted *)
| Truth (t : nat)      (* [y.narrow(1, t, 1)], the target at step [t] *)
| Eos.                 (* the one-hot end-of-sequence row *)

Section Decoder.

(** [Dist] is a (batch, 1, vocabulary) tensor, [Ctx] a context
    (batch, 1, listen_vec_size), [Att] the attention weights of one step,
    [Hidden] the recurrent state. *)
Variables Dist Ctx Att Hidden : Type.

(** The learned part of one iteration, lines 296-300, closed over the
    encoded sequence [h] and its mask; and [onehot2int] of
    [asr.utils.misc], read at sample [b]. *)
Record network : Type := mk_network {
  emit : Dist * Ctx -> option Hidden -> Dist * Ctx * Att * Hidden;
  onehot2int : Dist -> nat -> Z
}.

Variable net : network.
Variable cfg : config.

(** [h.size(0)]; the one-hot rows of [sos] and [eos]; the first encoded
    frame [h.narrow(1, 0, 1)]. *)
Variable batch_size : nat.
Variables sos_row eos_row : Dist.
Variable h0 : Ctx.

(** The targets [y] as the list of their time slices ([y.size(1)] is its
    length), the current [self.tfr], and the value that
    [np.random.random_sample()] takes in iteration [t]. *)
Variable y : option (list Dist).
Variable tfr : Q.
Variable draws : nat -> Q.

Record state : Type := mk_state {
  x : Dist * Ctx;
  hidden : option Hidden;
  y_hats : list Dist;
  attentions : list Att;
  y_hats_seq_lens : list Z;
  bi : list (list bool);
  stopped : bool     (* the loop was left through [break] *)
}.

Definition initial : state :=
  {| x := (sos_row, h0);
     hidden := None;
     y_hats := [];
     attentions := [];
     y_hats_seq_lens := repeat (Z.of_nat (max_seq_lens cfg)) batch_size;
     bi := repeat (repeat false batch_size) num_eos;
     stopped := false |}.

(** [onehot2int(y_hat.squeeze()).eq(self.eos)]. *)
Definition eos_mask (y_hat : Dist) : list bool :=
  map (fun b => onehot2int net y_hat b =? eos cfg) (seq 0 batch_size).

(** [bi.prod(dim=0)]: over 0/1 bytes the product is the conjunction. *)
Definition prod_dim0 (bi : list (list bool)) : list bool :=
  map (fun b => forallb (fun row => nth b row false) bi) (seq 0 batch_size).

Definition choose_feed (t : nat) : feed :=
  match y with
  | None => Emitted
  | Some ys =>
      if negb (_is_sample_step tfr (draws t)) then Emitted
      else if (t <? length ys)%nat then Truth t
      else Eos
  end.

Definition feed_tensor (f : feed) (y_hat : Dist) : Dist :=
  match f with
  | Emitted => y_hat
  | Truth t => nth t (match y with Some ys => ys | None => [] end) eos_row
  | Eos => eos_row
  end.

(** The body of the loop at step [t]. *)
Definition body (t : nat) (st : state) : state :=
  let '(y_hat, c, a, hidden') := emit net (x st) (hidden st) in
  let y_hats' := y_hats st ++ [y_hat] in
  let attentions' := attentions st ++ [a] in
  let bi' := Torch.update (t mod num_eos) (eos_mask y_hat) (bi st) in
  let ri := map (fun l => l >? Z.of_nat t) (y_hats_seq_lens st) in
  let lens' :=
    Torch.masked_fill (Torch.map2 andb (prod_dim0 bi') ri)
      (Z.of_nat t + 1) (y_hats_seq_lens st) in
  if Torch.all (map (fun l => l <=? Z.of_nat t + 1) lens') then
    {| x := x st; hidden := Some hidden'; y_hats := y_hats';
       attentions := attentions'; y_hats_seq_lens := lens'; bi := bi';
       stopped := true |}
  else
    {| x := (feed_tensor (choose_feed t) y_hat, c); hidden := Some hidden';
       y_hats := y_hats'; attentions := attentions';
       y_hats_seq_lens := lens'; bi := bi'; stopped := false |}.

(** One turn of [for t in range(...)]: nothing happens after a [break]. *)
Definition step (t : nat) (st : state) : state :=
  if stopped st then st else body t st.

(** The state after the turns [t = 0, ..., n - 1]. *)
Fixpoint run (n : nat) : state :=
  match n with
  | O => initial
  | S n' => step n' (run n')
  end.

(** [forward]: the per-step distributions and attention weights that
    [torch.cat] joins along the out_time axis, and the length vector.
    [torch.cat] raises on an empty list. *)
Definition forward : option (list Dist * list Z * list Att) :=
  let st := run (max_seq_lens cfg) in
  match y_hats st with
  | [] => None
  | _ :: _ => Some (y_hats st, y_hats_seq_lens st, attentions st)
  end.

(** *** Vocabulary of the statements *)

(** Whether the arg-max label of sample [b] at step [s] was [eos]. *)
Definition eos_at (ys : list Dist) (s b : nat) : bool :=
  match nth_error ys s with
  | Some d => onehot2int net d b =? eos cfg
  | None => false
  end.

(** Steps [s - 2], [s - 1] and [s] all emitted [eos] for sample [b]. *)
Definition triple_at (ys : list Dist) (s b : nat) : bool :=
  (2 <=? s)%nat && eos_at ys s b && eos_at ys (s - 1) b
  && eos_at ys (s - 2) b.

Definition is_emitted (f : feed) : bool :=
  match f with
  | Emitted => true
  | _ => false
  end.

(** The distribution emitted from a state, and the tensors that [body]
    computes from it before the exit test. *)
Definition emitted (st : state) : Dist :=
  fst (fst (fst (emit net (x st) (hidden st)))).

Definition next_bi (t : nat) (st : state) : list (list bool) :=
  Torch.update (t mod num_eos) (eos_mask (emitted st)) (bi st).

Definition next_lens (t : nat) (st : state) : list Z :=
  Torch.masked_fill
    (Torch.map2 andb (prod_dim0 (next_bi t st))
       (map (fun l => l >? Z.of_nat t) (y_hats_seq_lens st)))
    (Z.of_nat t + 1) (y_hats_seq_lens st).

(** The invariant of the loop, in terms of the number of executed
    iterations [length (y_hats st)]. *)
Record inv (st : state) : Prop := mk_inv {
  inv_att : length (attentions st) = length (y_hats st);
  inv_len : length (y_hats_seq_lens st) = batch_size;
  inv_rows : length (bi st) = 3%nat;
  (* the ring buffer holds the last three indicators *)
  inv_recent : forall s b,
    (s < length (y_hats st))%nat -> (length (y_hats st) <= s + 3)%nat ->
    (b < batch_size)%nat ->
    nth b (nth (s mod 3) (bi st) []) false = eos_at (y_hats st) s b;
  inv_fresh : forall k b,
    (length (y_hats st) <= k)%nat -> (k < 3)%nat -> (b < batch_size)%nat ->
    nth b (nth k (bi st) []) false = false;
  (* a length is the default, or one past the first run of three *)
  inv_lens : forall b, (b < batch_size)%nat ->
    (nth b (y_hats_seq_lens st) 0 = Z.of_nat (max_seq_lens cfg) /\
     forall s, (s < length (y_hats st))%nat ->
               triple_at (y_hats st) s b = false)
    \/
    (exists s, (s < length (y_hats st))%nat /\
       triple_at (y_hats st) s b = true /\
       (forall s', (s' < s)%nat -> triple_at (y_hats st) s' b = false) /\
       nth b (y_hats_seq_lens st) 0 = Z.of_nat s + 1);
  inv_steps : (length (y_hats st) <= max_seq_lens cfg)%nat;
  inv_stopped : stopped st = true ->
    (1 <= length (y_hats st))%nat /\
    forall b, (b < batch_size)%nat ->
      nth b (y_hats_seq_lens st) 0 <= Z.of_nat (length (y_hats st));
  inv_going : stopped st = false -> (1 <= length (y_hats st))%nat ->
    exists b, (b < batch_size)%nat /\
      nth b (y_hats_seq_lens st) 0 > Z.of_nat (length (y_hats st));
  inv_some : (1 <= length (y_hats st))%nat -> (1 <= batch_size)%nat ->
    exists b, (b < batch_size)%nat /\
      nth b (y_hats_seq_lens st) 0 >= Z.of_nat (length (y_hats st))
}.

End Decoder.

Arguments emitted {Dist Ctx Att Hidden}.
Arguments next_bi {Dist Ctx Att Hidden}.
Arguments next_lens {Dist Ctx Att Hidden}.
Arguments inv {Dist Ctx Att Hidden}.
Arguments inv_att {Dist Ctx Att Hidden net cfg batch_size st}.
Arguments inv_len {Dist Ctx Att Hidden net cfg batch_size st}.
Arguments inv_rows {Dist Ctx Att Hidden net cfg batch_size st}.
Arguments inv_recent {Dist Ctx Att Hidden net cfg batch_size st}.
Arguments inv_fresh {Dist Ctx Att Hidden net cfg batch_size st}.
Arguments inv_lens {Dist Ctx Att Hidden net cfg batch_size st}.
Arguments inv_steps {Dist Ctx Att Hidden net cfg batch_size st}.
Arguments inv_stopped {Dist Ctx Att Hidden net cfg batch_size st}.
Arguments inv_going {Dist Ctx Att Hidden net cfg batch_size st}.
Arguments inv_some {Dist Ctx Att Hidden net cfg batch_size st}.
Arguments mk_network {Dist Ctx Att Hidden}.
Arguments emit {Dist Ctx Att Hidden}.
Arguments onehot2int {Dist Ctx Att Hidden}.
Arguments mk_state {Dist Ctx Att Hidden}.
Arguments x {Dist Ctx Att Hidden}.
Arguments hidden {Dist Ctx Att Hidden}.
Arguments y_hats {Dist Ctx Att Hidden}.
Arguments attentions {Dist Ctx Att Hidden}.
Arguments y_hats_seq_lens {Dist Ctx Att Hidden}.
Arguments bi {Dist Ctx Att Hidden}.
Arguments stopped {Dist Ctx Att Hidden}.
Arguments initial {Dist Ctx Att Hidden}.
Arguments eos_mask {Dist Ctx Att Hidden}.
Arguments choose_feed {Dist}.
Arguments feed_tensor {Dist}.
Arguments body {Dist Ctx Att Hidden}.
Arguments step {Dist Ctx Att Hidden}.
Arguments run {Dist Ctx Att Hidden}.
Arguments forward {Dist Ctx Att Hidden}.
Arguments eos_at {Dist Ctx Att Hidden}.
Arguments triple_at {Dist Ctx Att Hidden}.

(** The [n] equally likely draws [0/n, 1/n, ..., (n-1)/n] of [[0, 1)],
    and how many of them make step [t] feed the target or [eos]
    ([forced_count]), how many the emitted distribution
    ([emitted_count]). *)
Definition grid (n : nat) : list Q :=
  map (fun k => Z.of_nat k # Pos.of_nat n) (seq 0 n).

Definition forced_count {Dist : Type} (ys : list Dist) (tfr : Q) (t n : nat)
  : nat :=
  length
    (filter
       (fun r => negb (is_emitted (choose_feed (Some ys) tfr (fun _ => r) t)))
       (grid n)).

Definition emitted_count {Dist : Type} (ys : list Dist) (tfr : Q) (t n : nat)
  : nat :=
  length
    (filter
       (fun r => is_emitted (choose_feed (Some ys) tfr (fun _ => r) t))
       (grid n)).

End Speller.

(** ** ListenAttendSpell: the sample filter of the training path *)

Module TrainFilter.

Local Open Scope Z_scope.

(** [bi = x_seq_lens.gt(y_seq_lens) * y_seq_lens.lt(self.spell.max_seq_lens)];
    the product of two 0/1 byte tensors is their conjunction. *)
Definition keep_mask (max_seq_lens : Z) (x_seq_lens y_seq_lens : list Z)
  : list bool :=
  Torch.map2 andb
    (Torch.map2 Z.gtb x_seq_lens y_seq_lens)
    (map (fun y => y <? max_seq_lens) y_seq_lens).

Record result : Type := mk {
  bi : list bool;        (* the mask of retained samples *)
  warned : bool;         (* whether [logger.warn] was called *)
  x_seq_lens' : list Z   (* [x_seq_lens[bi]], handed to the encoder *)
}.

(** Lines 413-416 of [_train_forward]: the mask, the warning and the
    selection of the retained samples. *)
Definition _train_forward_filter
  (max_seq_lens : Z) (x_seq_lens y_seq_lens : list Z) : result :=
  let bi := keep_mask max_seq_lens x_seq_lens y_seq_lens in
  {| bi := bi;
     warned := negb (Torch.any bi);
     x_seq_lens' := Torch.masked_select bi x_seq_lens |}.

End TrainFilter.

(** ** ListenAttendSpell: the inference path *)

Module ListenAttendSpell.

Import Torch.
Local Open Scope Z_scope.
Local Open Scope torch_scope.

(** Line 454,
    [y_hats_seq_lens[y_hats_seq_lens.ne(max_seq_lens)].sub_(num_eos)],
    run on the length tensor the decoder returned; the result is that
    tensor as the caller reads it afterwards. *)
Definition strip_eos (max_seq_lens : Z) (y_hats_seq_lens : list Z) : list Z :=
  Torch.run
    (lens <- Torch.alloc y_hats_seq_lens ;;
     mask <- Torch.ne lens max_seq_lens ;;
     selected <- Torch.getitem_mask lens mask ;;
     _ <- Torch.sub_ selected (Z.of_nat Speller.num_eos) ;;
     Torch.read lens).

Section Eval.

Variables Dist Ctx Att Hidden Out : Type.

(** The decoder over the encoded input [h = self.listen(x, x_seq_lens)]. *)
Variable net : Speller.network Dist Ctx Att Hidden.
Variable cfg : Speller.config.
Variable batch_size : nat.
Variables sos_row eos_row : Dist.
Variable h0 : Ctx.
Variable tfr : Q.
Variable draws : nat -> Q.

(** [self.log(y_hats[:, :, :-2])] on one time slice. *)
Variable log_without_sos_eos : Dist -> Out.

Definition _eval_forward : option (list Out * list Z) :=
  match Speller.forward net cfg batch_size sos_row eos_row h0 None tfr draws
  with
  | None => None
  | Some (y_hats, y_hats_seq_lens, _) =>
      let y_hats_seq_lens :=
        strip_eos (Z.of_nat (Speller.max_seq_lens cfg)) y_hats_seq_lens in
      Some (map log_without_sos_eos y_hats, y_hats_seq_lens)
  end.

End Eval.

Arguments _eval_forward {Dist Ctx Att Hidden Out}.

End ListenAttendSpell.

(** ** A scripted decoder

    A network whose arg-max labels follow a script: sample [b] emits the
    label [script t b] at step [t].  The recurrent state counts the
    steps. *)

Module Scripted.

Definition net (batch_size : nat) (script : nat -> nat -> Z)
  : Speller.network (list Z) unit unit nat :=
  Speller.mk_network
    (fun _ hidden =>
       let t := match hidden with
                | None => O
                | Some n => n
                end in
       (map (script t) (seq 0 batch_size), tt, tt, S t))
    (fun d b => nth b d 0%Z).

(** Vocabulary of 30 labels, [sos = 28], [eos = 29]. *)
Definition cfg (max_seq_lens : nat) : Speller.config :=
  Speller.mk_config 30 28 29 max_seq_lens.

(** Sample 0 emits [eos] from the first step on, every other sample
    the label 1 for ever. *)
Definition eager (t b : nat) : Z :=
  match b with
  | O => 29%Z
  | _ => 1%Z
  end.

(** Sample [b] emits [eos] at the steps [b + 1], [b + 2] and [b + 3]. *)
Definition staggered (t b : nat) : Z :=
  if ((b + 1 <=? t) && (t <=? b + 3))%nat then 29%Z else 1%Z.

(** The one-hot rows of [sos] and [eos], as label lists. *)
Definition sos_row (batch_size : nat) : list Z := repeat 28%Z batch_size.
Definition eos_row (batch_size : nat) : list Z := repeat 29%Z batch_size.

End Scripted.

(** ** TFRScheduler: snapshot and restore *)

Module TFRCheckpoint.

Import String.
Local Open Scope string_scope.

(** The values the attributes of a scheduler hold; [VModel] is the
    reference to the model. *)
Inductive value : Type :=
| VBool (b : bool)
| VFloat (q : Q)
| VInt (z : Z)
| VModel (id : nat).

(** A Python dict with string keys, in insertion order. *)
Definition dict : Type := list (string * value).

Fixpoint get (k : string) (d : dict) : option value :=
  match d with
  | [] => None
  | (k', v) :: d' => if String.eqb k k' then Some v else get k d'
  end.

(** [d[k] = v]. *)
Fixpoint set (k : string) (v : value) (d : dict) : dict :=
  match d with
  | [] => [(k, v)]
  | (k', v') :: d' =>
      if String.eqb k k' then (k, v) :: d' else (k', v') :: set k v d'
  end.

(** [d.update(other)]. *)
Definition update (d other : dict) : dict :=
  fold_left (fun acc kv => set (fst kv) (snd kv) acc) other d.

(** [self.__dict__] as [__init__] fills it. *)
Definition attributes (model : nat) (s : TFRScheduler.t) : dict :=
  [ ("model", VModel model);
    ("restart", VBool (TFRScheduler.restart s));
    ("upper", VFloat (TFRScheduler.upper s));
    ("lower", VFloat (TFRScheduler.lower s));
    ("warm_up", VInt (TFRScheduler.warm_up s));
    ("end_epochs", VInt (TFRScheduler.end_epochs s));
    ("slope", VFloat (TFRScheduler.slope s));
    ("last_epoch", VInt (TFRScheduler.last_epoch s)) ].

(** [state_dict]: every attribute but ['model']. *)
Definition state_dict (attrs : dict) : dict :=
  filter (fun kv => negb (String.eqb (fst kv) "model")) attrs.

(** [load_state_dict]: [self.__dict__.update(state_dict)]. *)
Definition load_state_dict (attrs sd : dict) : dict := update attrs sd.

(** The scheduler that a dict of attributes stands for, when every
    attribute the methods read is there with its type. *)
Definition scheduler_of (attrs : dict) : option (nat * TFRScheduler.t) :=
  match get "model" attrs, get "restart" attrs, get "upper" attrs,
        get "lower" attrs, get "warm_up" attrs, get "end_epochs" attrs,
        get "slope" attrs, get "last_epoch" attrs with
  | Some (VModel m), Some (VBool r), Some (VFloat u), Some (VFloat l),
    Some (VInt w), Some (VInt e), Some (VFloat sl), Some (VInt le) =>
      Some (m, TFRScheduler.mk r u l w e sl le)
  | _, _, _, _, _, _, _, _ => None
  end.

End TFRCheckpoint.

(** ** ListenAttendSpell: construction *)

Module ListenAttendSpellInit.

Local Open Scope Z_scope.

Record t : Type := mk {
  label_vec_size : Z;
  blank : Z;
  sos : Z;
  eos : Z;
  num_heads : Z;
  listen : Listener.t;
  spell : Speller.config
}.

(** [__init__]: the vocabulary is widened by the two reserved labels and
    the encoder and the decoder are built; [None] when one of their
    assertions fails.  [NUM_CTC_LABELS] is the default of [label_vec_size]
    in [asr.utils.params]. *)
Definition init (label_vec_size listen_vec_size num_attend_heads
                 input_folding : Z) : option t :=
  let label_vec_size := label_vec_size + 2 in
  let blank := 0 in
  let sos := label_vec_size - 2 in
  let eos := label_vec_size - 1 in
  match Listener.init (Listener.las_config listen_vec_size input_folding),
        Speller.init label_vec_size 256 (Some sos) (Some eos) with
  | Some listen, Some spell =>
      Some {| label_vec_size := label_vec_size; blank := blank; sos := sos;
              eos := eos; num_heads := num_attend_heads; listen := listen;
              spell := spell |}
  | _, _ => None
  end.

End ListenAttendSpellInit.

(** ** Speller: the validity mask *)

Module SpellerMask.

(** Where the slice [row[l:]] of a row of [ts] entries starts: Python
    counts a negative [l] from the end and clips both ways. *)
Definition slice_start (ts : nat) (l : Z) : nat :=
  if (l <? 0)%Z then Z.to_nat (Z.max 0 (Z.of_nat ts + l))
  else Nat.min (Z.to_nat l) ts.

(** One row of ones with [row[l:] = 0.]. *)
Definition mask_row (ts : nat) (l : Z) : list R :=
  repeat 1%R (slice_start ts l) ++ repeat 0%R (ts - slice_start ts l).

(** [get_mask(h, seq_lens)] for [h] of shape (bs, ts, hs); [seq_lens[b]]
    raises when [seq_lens] is shorter than the batch. *)
Fixpoint get_mask (bs ts : nat) (seq_lens : list Z) : option (list (list R)) :=
  match bs with
  | O => Some []
  | S bs' =>
      match seq_lens with
      | [] => None
      | l :: seq_lens' =>
          match get_mask bs' ts seq_lens' with
          | Some rows => Some (mask_row ts l :: rows)
          | None => None
          end
      end
  end.

End SpellerMask.

(** ** ListenAttendSpell: the targets of the training path *)

Module TrainTargets.

Local Open Scope Z_scope.

(** [torch.split(y, sizes)] on a one-dimensional tensor: consecutive
    chunks of the given sizes, which must be non-negative and add up to
    the length of [y]. *)
Fixpoint split (y : list Z) (sizes : list Z) : option (list (list Z)) :=
  match sizes with
  | [] =>
      match y with
      | [] => Some []
      | _ :: _ => None
      end
  | n :: sizes' =>
      if (n <? 0) || (Z.of_nat (length y) <? n) then None
      else
        match split (skipn (Z.to_nat n) y) sizes' with
        | Some chunks => Some (firstn (Z.to_nat n) y :: chunks)
        | None => None
        end
  end.

(** A (batch, width) integer tensor. *)
Record padded : Type := mk_padded {
  width : nat;
  rows : list (list Z)
}.

(** [nn.utils.rnn.pad_sequence(seqs, batch_first=True, padding_value=v)]:
    it raises on an empty list. *)
Definition pad_sequence (seqs : list (list Z)) (v : Z) : option padded :=
  match seqs with
  | [] => None
  | _ :: _ =>
      let w := list_max (map (@length Z) seqs) in
      Some {| width := w;
              rows := map (fun r => r ++ repeat v (w - length r)) seqs |}
  end.

(** Lines 422-425: [ys] and [ys_seq_lens].  Indexing with a mask whose
    length is not the batch size raises. *)
Definition make_targets (eos blank : Z) (y y_seq_lens : list Z)
  (bi : list bool) : option (padded * list Z) :=
  match split y y_seq_lens with
  | None => None
  | Some chunks =>
      let eos_t := repeat eos Speller.num_eos in
      match pad_sequence (map (fun yb => yb ++ eos_t) chunks) blank with
      | None => None
      | Some ys =>
          if (length bi =? length y_seq_lens)%nat then
            Some ({| width := width ys;
                     rows := Torch.masked_select bi (rows ys) |},
                  map (fun l => l + Z.of_nat Speller.num_eos)
                    (Torch.masked_select bi y_seq_lens))
          else None
      end
  end.

(** Line 434: [regions]. *)
Definition regions (x_seq_lens ys_seq_lens : list Z) : list (Z * Z) :=
  Torch.map2 (fun frames labels => (frames - 1, labels - 1))
    x_seq_lens ys_seq_lens.

(** Lines 413-416 and 421-425 together: the retained frame lengths, the
    targets and their lengths. *)
Definition prepare (max_seq_lens eos blank : Z)
  (x_seq_lens y y_seq_lens : list Z) : option (list Z * padded * list Z) :=
  let f := TrainFilter._train_forward_filter max_seq_lens x_seq_lens
             y_seq_lens in
  match make_targets eos blank y y_seq_lens (TrainFilter.bi f) with
  | None => None
  | Some (ys, ys_seq_lens) =>
      Some (TrainFilter.x_seq_lens' f, ys, ys_seq_lens)
  end.

(** Lines 437-444: the time extents of [y_hats] (a list of time slices)
    and [ys] are made equal; [dummy] is the one-hot slice of [blank]. *)
Definition align {Dist : Type} (dummy : Dist) (blank : Z)
  (y_hats : list Dist) (ys : padded) : list Dist * padded :=
  let s1 := length y_hats in
  let s2 := width ys in
  if (s1 <? s2)%nat then (y_hats ++ repeat dummy (s2 - s1), ys)
  else if (s2 <? s1)%nat then
    (y_hats,
     {| width := s2 + (s1 - s2);
        rows := map (fun r => r ++ repeat blank (s1 - s2)) (rows ys) |})
  else (y_hats, ys).

End TrainTargets.

(** ** Shapes of tensors through the attention modules *)

Module Shape.

Local Open Scope Z_scope.

(** The sizes of a tensor, outermost first. *)
Definition shape : Type := list Z.

Definition prod (s : shape) : Z := fold_right Z.mul 1 s.

Definition bind {A B : Type} (m : option A) (k : A -> option B) : option B :=
  match m with
  | Some a => k a
  | None => None
  end.

Declare Scope shape_scope.
Delimit Scope shape_scope with shape.
Notation "x <- m ;; k" := (bind m (fun x => k))
  (at level 61, m at next level, right associativity) : shape_scope.

(** [x.view] with the sizes [new] on a contiguous tensor of shape [old]:
    at most one entry of [new] is -1 and is inferred from the number of
    elements. *)
Definition view (old new : shape) : option shape :=
  if existsb (fun d => d <? -1) new then None
  else
    match count_occ Z.eq_dec new (-1) with
    | O => if prod new =? prod old then Some new else None
    | S O =>
        let others := - prod new in
        if others =? 0 then None
        else if prod old mod others =? 0 then
          Some (map (fun d => if d =? -1 then prod old / others else d) new)
        else None
    | S (S _) => None
    end.

(** A dimension index, negative ones counting from the end. *)
Definition dim (s : shape) (d : Z) : option nat :=
  let r := Z.of_nat (length s) in
  if (0 <=? d) && (d <? r) then Some (Z.to_nat d)
  else if (- r <=? d) && (d <? 0) then Some (Z.to_nat (r + d))
  else None.

Definition transpose (d0 d1 : Z) (s : shape) : option shape :=
  match dim s d0, dim s d1 with
  | Some i, Some j =>
      Some (Torch.update i (nth j s 0) (Torch.update j (nth i s 0) s))
  | _, _ => None
  end.

(** [nn.Linear(fin, fout)] acts on the last dimension. *)
Definition linear (fin fout : Z) (s : shape) : option shape :=
  match rev s with
  | [] => None
  | last :: front =>
      if last =? fin then Some (rev front ++ [fout]) else None
  end.

(** Broadcasting of two sizes, and of two shapes aligned at the end. *)
Definition broadcast1 (a b : Z) : option Z :=
  if a =? b then Some a
  else if a =? 1 then Some b
  else if b =? 1 then Some a
  else None.

Fixpoint broadcast_rev (a b : shape) : option shape :=
  match a, b with
  | [], _ => Some b
  | _, [] => Some a
  | x :: a', y :: b' =>
      match broadcast1 x y, broadcast_rev a' b' with
      | Some z, Some r => Some (z :: r)
      | _, _ => None
      end
  end.

Definition broadcast (a b : shape) : option shape :=
  option_map (@rev Z) (broadcast_rev (rev a) (rev b)).

(** [torch.bmm]: two three-dimensional tensors with the same batch. *)
Definition bmm (a b : shape) : option shape :=
  match a, b with
  | [ba; n; m], [bb; m'; p] =>
      if (ba =? bb) && (m =? m') then Some [ba; n; p] else None
  | _, _ => None
  end.

(** [a @ b] for operands of at least two dimensions, which is what the
    transpositions before it produce: the batch dimensions broadcast. *)
Definition matmul (a b : shape) : option shape :=
  match rev a, rev b with
  | m :: n :: batch_a, p :: m' :: batch_b =>
      if m =? m' then
        match broadcast_rev batch_a batch_b with
        | Some batch => Some (rev batch ++ [n; p])
        | None => None
        end
      else None
  | _, _ => None
  end.

(** [torch.split(x, size, dim=-1)] with an integer size: the sizes of the
    chunks along the last dimension. *)
Definition split_sizes (last size : Z) : option (list Z) :=
  if size <? 0 then None
  else if last =? 0 then Some [0]
  else if size =? 0 then None
  else
    Some (repeat size (Z.to_nat (last / size))
          ++ (if last mod size =? 0 then [] else [last mod size])).

Definition split_last_dim (s : shape) (size : Z) : option (list shape) :=
  match rev s with
  | [] => None
  | last :: front =>
      option_map (map (fun c => rev front ++ [c])) (split_sizes last size)
  end.

(** [torch.cat(xs, dim=-1)] and [torch.stack(xs)]. *)
Definition cat_last (xs : list shape) : option shape :=
  match xs with
  | [] => None
  | x :: rest =>
      if forallb (fun r => if list_eq_dec Z.eq_dec (removelast r)
                                (removelast x) then true else false) rest
         && negb (length x =? 0)%nat
      then Some (removelast x ++ [fold_right Z.add 0 (map (fun r => last r 0) xs)])
      else None
  end.

Definition stack (xs : list shape) : option shape :=
  match xs with
  | [] => None
  | x :: rest =>
      if forallb (fun r => if list_eq_dec Z.eq_dec r x then true else false)
           rest
      then Some (Z.of_nat (length xs) :: x)
      else None
  end.

(** [split_last(x, shape)]. *)
Definition split_last (x sh : shape) : option shape :=
  if (2 <=? count_occ Z.eq_dec sh (-1)%Z)%nat then None
  else
    let sh' :=
      if in_dec Z.eq_dec (-1) sh then
        match rev x with
        | [] => None
        | last :: _ =>
            if prod sh =? 0 then None
            else
              let inferred := Z.quot last (- prod sh) in
              Some (map (fun d => if d =? -1 then inferred else d) sh)
        end
      else Some sh in
    match sh' with
    | Some sh' => view x (removelast x ++ sh')
    | None => None
    end.

(** [merge_last(x, n_dims)]. *)
Definition merge_last (x : shape) (n_dims : Z) : option shape :=
  if (1 <? n_dims) && (n_dims <? Z.of_nat (length x)) then
    view x (firstn (length x - Z.to_nat n_dims) x ++ [-1])
  else None.

(** [SequenceWise(module).forward(x)], for a module given by its action on
    shapes. *)
Definition sequence_wise (module : shape -> option shape) (x : shape)
  : option shape :=
  match x with
  | t :: n :: _ =>
      (x1 <- view x [t * n; -1] ;;
       x2 <- module x1 ;;
       view x2 [t; n; -1])%shape
  | _ => None
  end.

(** [MaskedSoftmax.forward(e, mask)]: without a mask the shape of [e];
    with a mask [e.max()] needs an element, and the product with the mask
    broadcasts. *)
Definition masked_softmax (mask : option shape) (e : shape) : option shape :=
  match mask with
  | None => Some e
  | Some mask => if prod e =? 0 then None else broadcast e mask
  end.

End Shape.

(** ** Attention and MultiHeadedSelfAttention on shapes *)

Module AttentionShape.

Import Shape.
Local Open Scope Z_scope.
Local Open Scope shape_scope.

Record config : Type := mk_config {
  state_vec_size : Z;
  listen_vec_size : Z;
  apply_proj : bool;
  proj_hidden_size : Z;
  num_heads : Z
}.

(** [Attention.__init__]: without projection the widths must match. *)
Definition init (cfg : config) : option config :=
  if apply_proj cfg then Some cfg
  else if state_vec_size cfg =? listen_vec_size cfg * num_heads cfg
       then Some cfg
       else None.

(** [score]. *)
Definition score (m n : shape) : option shape :=
  nt <- transpose 1 2 n ;; bmm m nt.

Fixpoint map_opt {A B : Type} (f : A -> option B) (l : list A)
  : option (list B) :=
  match l with
  | [] => Some []
  | a :: l' =>
      b <- f a ;; bs <- map_opt f l' ;; Some (b :: bs)
  end.

(** [Attention.forward(s, h, len_mask)]: the shapes of the context and of
    the weights. *)
Definition forward (cfg : config) (s h : shape) (len_mask : option shape)
  : option (shape * shape) :=
  mn <- (if apply_proj cfg then
           m <- linear (state_vec_size cfg)
                  (proj_hidden_size cfg * num_heads cfg) s ;;
           n <- linear (listen_vec_size cfg) (proj_hidden_size cfg) h ;;
           Some (m, n)
         else Some (s, h)) ;;
  let (m, n) := (mn : shape * shape) in
  let normal := sequence_wise (masked_softmax len_mask) in
  if 1 <? num_heads cfg then
    let proj_hidden_size := last m 0 / num_heads cfg in
    ms <- (if (length m =? 0)%nat then None
           else split_last_dim m proj_hidden_size) ;;
    ee <- map_opt (fun mi => score mi n) ms ;;
    aa <- map_opt normal ee ;;
    cs <- map_opt (fun a => bmm a h) aa ;;
    cc <- cat_last cs ;;
    c <- linear (listen_vec_size cfg * num_heads cfg) (listen_vec_size cfg)
           cc ;;
    st <- stack aa ;;
    a <- transpose 0 1 st ;;
    Some (c, a)
  else
    e <- score m n ;;
    a <- normal e ;;
    c <- bmm a h ;;
    (* a.unsqueeze(dim=1) *)
    match a with
    | [] => None
    | a0 :: rest => Some (c, a0 :: 1 :: rest)
    end.

Record mh_config : Type := mk_mh_config {
  mh_state_vec_size : Z;
  mh_listen_vec_size : Z;
  mh_proj_hidden_size : Z;
  n_heads : Z
}.

(** [MultiHeadedSelfAttention.forward(q, k, mask)]: the shape of the
    result. *)
Definition mh_forward (cfg : mh_config) (q k : shape) (mask : option shape)
  : option shape :=
  q <- linear (mh_state_vec_size cfg) (mh_proj_hidden_size cfg) q ;;
  v <- linear (mh_listen_vec_size cfg) (mh_proj_hidden_size cfg) k ;;
  k <- linear (mh_listen_vec_size cfg) (mh_proj_hidden_size cfg) k ;;
  q <- (x <- split_last q [n_heads cfg; -1] ;; transpose 1 2 x) ;;
  k <- (x <- split_last k [n_heads cfg; -1] ;; transpose 1 2 x) ;;
  v <- (x <- split_last v [n_heads cfg; -1] ;; transpose 1 2 x) ;;
  kt <- transpose (-2) (-1) k ;;
  scores <- matmul q kt ;;
  _ <- (match mask with
        | None => Some scores
        | Some (d0 :: d1 :: rest) =>
            (* mask[:, None, None, :] subtracted in place *)
            b <- broadcast scores (d0 :: 1 :: 1 :: d1 :: rest) ;;
            if list_eq_dec Z.eq_dec b scores then Some scores else None
        | Some _ => None
        end) ;;
  h <- matmul scores v ;;
  h <- transpose 1 2 h ;;
  merge_last h 2.

End AttentionShape.

(* ================================================================== *)
(** * Part II: properties *)
(* ================================================================== *)

(** ** Lists as tensors *)

Section TorchFacts.

Import Torch.

Lemma map2_length {A B C : Type} (f : A -> B -> C) (l1 : list A) (l2 : list B) :
  length l1 = length l2 -> length (map2 f l1 l2) = length l1.
Proof.
  revert l2. induction l1 as [| a l1 IH]; intros [| b l2] H; simpl in *;
    try discriminate; [reflexivity |].
  f_equal. apply IH. lia.
Qed.

Lemma map2_nth {A B C : Type} (f : A -> B -> C) (l1 : list A) (l2 : list B)
  (i : nat) (da : A) (db : B) (dc : C) :
  length l1 = length l2 -> (i < length l1)%nat ->
  nth i (map2 f l1 l2) dc = f (nth i l1 da) (nth i l2 db).
Proof.
  revert l2 i. induction l1 as [| a l1 IH]; intros [| b l2] i H Hi;
    simpl in *; try discriminate; try lia.
  destruct i as [| i]; [reflexivity |]. apply IH; lia.
Qed.

Lemma update_length {A : Type} (i : nat) (v : A) (l : list A) :
  length (update i v l) = length l.
Proof.
  revert i. induction l as [| a l IH]; intros [| i]; simpl; auto.
Qed.

Lemma update_nth_same {A : Type} (i : nat) (v d : A) (l : list A) :
  (i < length l)%nat -> nth i (update i v l) d = v.
Proof.
  revert i. induction l as [| a l IH]; intros [| i] H; simpl in *;
    try lia; [reflexivity |]. apply IH. lia.
Qed.

Lemma update_nth_other {A : Type} (i j : nat) (v d : A) (l : list A) :
  i <> j -> nth j (update i v l) d = nth j l d.
Proof.
  revert i j. induction l as [| a l IH]; intros [| i] [| j] H; simpl;
    try reflexivity; try congruence.
  apply IH. congruence.
Qed.

Lemma nth_map_seq {A : Type} (f : nat -> A) (n b : nat) (d : A) :
  (b < n)%nat -> nth b (map f (seq 0 n)) d = f b.
Proof.
  intros H. rewrite (nth_indep _ d (f 0%nat)) by (rewrite length_map, length_seq; exact H).
  rewrite (map_nth f (seq 0 n) 0%nat b), seq_nth by exact H. reflexivity.
Qed.

Lemma masked_fill_length (mask : list bool) (v : Z) (t : list Z) :
  length mask = length t -> length (masked_fill mask v t) = length t.
Proof.
  intros H. unfold masked_fill. rewrite map2_length; assumption.
Qed.

Lemma masked_fill_nth (mask : list bool) (v : Z) (t : list Z) (i : nat) :
  length mask = length t -> (i < length t)%nat ->
  nth i (masked_fill mask v t) 0%Z =
  if nth i mask false then v else nth i t 0%Z.
Proof.
  intros H Hi. unfold masked_fill.
  rewrite (map2_nth _ mask t i false 0%Z 0%Z); [reflexivity | assumption | lia].
Qed.

Lemma all_true_iff (l : list bool) :
  all l = true <-> forall i, (i < length l)%nat -> nth i l true = true.
Proof.
  unfold all. induction l as [| b l IH]; simpl.
  - split; [intros _ i Hi; lia | reflexivity].
  - rewrite andb_true_iff, IH. split.
    + intros [Hb Hl] [| i] Hi; [exact Hb | apply Hl; lia].
    + intros H. split; [apply (H 0%nat); lia |].
      intros i Hi. apply (H (S i)). lia.
Qed.

Lemma all_false_iff (l : list bool) :
  all l = false <-> exists i, (i < length l)%nat /\ nth i l true = false.
Proof.
  unfold all. induction l as [| b l IH]; simpl.
  - split; [discriminate | intros (i & Hi & _); lia].
  - rewrite andb_false_iff, IH. split.
    + intros [Hb | (i & Hi & Hn)].
      * exists 0%nat. split; [lia | exact Hb].
      * exists (S i). split; [lia | exact Hn].
    + intros ([| i] & Hi & Hn).
      * left. exact Hn.
      * right. exists i. split; [lia | exact Hn].
Qed.

Lemma nth_map_le (v : Z) (l : list Z) (i : nat) :
  (i < length l)%nat ->
  nth i (map (fun x => (x <=? v)%Z) l) true = (nth i l 0 <=? v)%Z.
Proof.
  intros H.
  rewrite (nth_indep _ true ((fun x => (x <=? v)%Z) 0%Z)) by (rewrite length_map; exact H).
  apply (map_nth (fun x => (x <=? v)%Z)).
Qed.

Lemma nth_map_gt (v : Z) (l : list Z) (i : nat) :
  (i < length l)%nat ->
  nth i (map (fun x => (x >? v)%Z) l) false = (nth i l 0 >? v)%Z.
Proof.
  intros H.
  rewrite (nth_indep _ false ((fun x => (x >? v)%Z) 0%Z)) by (rewrite length_map; exact H).
  apply (map_nth (fun x => (x >? v)%Z)).
Qed.

Lemma forallb3 {A : Type} (f : A -> bool) (l : list A) (d : A) :
  length l = 3%nat ->
  forallb f l = f (nth 0 l d) && f (nth 1 l d) && f (nth 2 l d).
Proof.
  destruct l as [| a [| b [| c [| e l]]]]; simpl; try discriminate.
  intros _. rewrite andb_true_r, andb_assoc. reflexivity.
Qed.

End TorchFacts.

(** ** TFRScheduler *)

Section TFRSchedulerFacts.

Import TFRScheduler.
Local Open Scope Z_scope.

Lemma get_tfr_warm_up (s : t) :
  last_epoch s < warm_up s -> get_tfr s = upper s.
Proof.
  intros H. unfold get_tfr.
  destruct (Z.ltb_spec (last_epoch s) (warm_up s)); [reflexivity | lia].
Qed.

Lemma get_tfr_decay (s : t) :
  warm_up s <= last_epoch s < end_epochs s ->
  get_tfr s =
  (upper s + slope s * inject_Z (last_epoch s - warm_up s))%Q.
Proof.
  intros [H1 H2]. unfold get_tfr.
  destruct (Z.ltb_spec (last_epoch s) (warm_up s)); [lia |].
  destruct (Z.ltb_spec (last_epoch s) (end_epochs s)); [reflexivity | lia].
Qed.

Lemma get_tfr_floor (s : t) :
  end_epochs s <= last_epoch s -> warm_up s <= end_epochs s ->
  get_tfr s = lower s.
Proof.
  intros H1 H2. unfold get_tfr.
  destruct (Z.ltb_spec (last_epoch s) (warm_up s)); [lia |].
  destruct (Z.ltb_spec (last_epoch s) (end_epochs s)); [lia | reflexivity].
Qed.

Lemma inject_Z_pos (n : Z) : 0 < n -> (0 < inject_Z n)%Q.
Proof.
  intros Hn. change 0%Q with (inject_Z 0). rewrite <- Zlt_Qlt. exact Hn.
Qed.

Lemma inject_Z_neq0 (n : Z) : 0 < n -> ~ (inject_Z n == 0)%Q.
Proof.
  intros Hn E. pose proof (inject_Z_pos n Hn) as H.
  rewrite E in H. exact (Qlt_irrefl 0 H).
Qed.

Lemma line_bounds (up lo : Q) (n k : Z) :
  (lo <= up)%Q -> 0 < n -> 0 <= k <= n ->
  (lo <= up + (lo - up) / inject_Z n * inject_Z k <= up)%Q.
Proof.
  intros Hlu Hn Hk.
  pose proof (inject_Z_pos n Hn) as Hn'.
  assert (Hk0 : (inject_Z 0 <= inject_Z k)%Q) by (rewrite <- Zle_Qle; lia).
  assert (Hkn : (inject_Z k <= inject_Z n)%Q) by (rewrite <- Zle_Qle; lia).
  change (inject_Z 0) with 0%Q in Hk0.
  set (r := (inject_Z k / inject_Z n)%Q).
  assert (Hr0 : (0 <= r)%Q).
  { unfold r. apply Qle_shift_div_l; [exact Hn' |].
    rewrite Qmult_0_l. exact Hk0. }
  assert (Hr1 : (r <= 1)%Q).
  { unfold r. apply Qle_shift_div_r; [exact Hn' |].
    rewrite Qmult_1_l. exact Hkn. }
  assert (Hr : ((lo - up) / inject_Z n * inject_Z k == (lo - up) * r)%Q).
  { unfold r. field. now apply inject_Z_neq0. }
  rewrite Hr. clear Hr Hk0 Hkn Hn' Hn Hk. split; nra.
Qed.

Lemma line_step (up lo : Q) (n k : Z) :
  (lo <= up)%Q -> 0 < n ->
  (up + (lo - up) / inject_Z n * inject_Z (k + 1)
   <= up + (lo - up) / inject_Z n * inject_Z k)%Q.
Proof.
  intros Hlu Hn.
  pose proof (inject_Z_pos n Hn) as Hn'.
  rewrite inject_Z_plus.
  assert (Hs : ((lo - up) / inject_Z n <= 0)%Q).
  { apply Qle_shift_div_r; [exact Hn' | lra]. }
  change (inject_Z 1) with 1%Q. nra.
Qed.

Lemma line_end (up lo : Q) (n : Z) :
  0 < n -> (up + (lo - up) / inject_Z n * inject_Z n == lo)%Q.
Proof.
  intros Hn. field. now apply inject_Z_neq0.
Qed.

Lemma init_some (up lo : Q) (warm epochs : Z) (rs : bool) :
  (0 <= lo)%Q -> (lo <= up)%Q -> (up < 1)%Q -> epochs <> 0 ->
  init (up, lo) warm epochs rs =
  Some (mk rs up lo warm (epochs + warm) ((lo - up) / inject_Z epochs)%Q (-1)).
Proof.
  intros H0 H1 H2 He. unfold init.
  assert (E1 : Qle_bool 0 lo = true) by (now apply Qle_bool_iff).
  assert (E2 : Qle_bool lo up = true) by (now apply Qle_bool_iff).
  assert (E3 : Qle_bool 1 up = false).
  { destruct (Qle_bool 1 up) eqn:E; [| reflexivity].
    apply Qle_bool_iff in E. lra. }
  rewrite E1, E2, E3. simpl.
  destruct (Z.eqb_spec epochs 0); [contradiction | reflexivity].
Qed.

Lemma step_plain (s : t) :
  (restart s && (last_epoch s =? end_epochs s))%bool = false ->
  fst (step s None) = set_last_epoch s (last_epoch s + 1).
Proof.
  intros H. unfold step. rewrite H. reflexivity.
Qed.

Lemma step_restart (s : t) :
  restart s = true -> last_epoch s = end_epochs s ->
  fst (step s None) = set_last_epoch s 0.
Proof.
  intros Hr Hl. unfold step. rewrite Hr, Hl, Z.eqb_refl. reflexivity.
Qed.

(** After a restart the counter walks 0, 1, 2, ... again. *)
Lemma steps_after_restart (s : t) (n : nat) :
  restart s = true -> last_epoch s = end_epochs s -> 0 < end_epochs s ->
  (1 <= n)%nat -> Z.of_nat n <= end_epochs s + 1 ->
  steps n s = set_last_epoch s (Z.of_nat n - 1).
Proof.
  intros Hr Hl Hend Hn. induction n as [| n IH]; [lia |].
  intros Hle. destruct n as [| n].
  - change (steps 1 s) with (fst (step s None)).
    rewrite step_restart by assumption. reflexivity.
  - change (steps (S (S n)) s) with (fst (step (steps (S n) s) None)).
    rewrite IH by lia.
    rewrite step_plain.
    + unfold set_last_epoch; cbn [last_epoch warm_up end_epochs upper lower
                                   slope restart].
      f_equal. lia.
    + unfold set_last_epoch; cbn [last_epoch end_epochs restart].
      rewrite Hr, andb_true_l.
      apply Z.eqb_neq. lia.
Qed.

(** C5, as the code has it.  For a scheduler built by [__init__] with
    [0 <= lower <= upper < 1], a warm-up of [warm >= 0] epochs and a decay
    span of [epochs > 0] epochs: [get_tfr] is [upper] while the epoch
    counter is below [warm]; on [warm <= e < warm + epochs] it is the line
    [upper + (lower - upper) / epochs * (e - warm)], which stays in
    [[lower, upper]], never increases from one epoch to the next and meets
    [lower] at [e = warm + epochs]; from [warm + epochs] on it is [lower].
    With [restart] enabled, a call of [step()] without argument at counter
    [warm + epochs] sets the counter to [-1] and then advances it to [0]:
    the schedule starts over from its beginning and the warm-up plateau is
    run through again ([upper] for the first [warm] epochs after the
    restart). *)
Theorem tfr_schedule_restart_from_zero
  (up lo : Q) (warm epochs : Z) (rs : bool) :
  (0 <= lo)%Q -> (lo <= up)%Q -> (up < 1)%Q -> 0 <= warm -> 0 < epochs ->
  exists s0,
    init (up, lo) warm epochs rs = Some s0 /\
    (forall e, e < warm -> get_tfr (set_last_epoch s0 e) = up) /\
    (forall e, warm <= e < warm + epochs ->
       (get_tfr (set_last_epoch s0 e) ==
        up + (lo - up) / inject_Z epochs * inject_Z (e - warm))%Q /\
       (lo <= get_tfr (set_last_epoch s0 e) <= up)%Q /\
       (get_tfr (set_last_epoch s0 (e + 1))
        <= get_tfr (set_last_epoch s0 e))%Q) /\
    (up + (lo - up) / inject_Z epochs * inject_Z epochs == lo)%Q /\
    (forall e, warm + epochs <= e -> get_tfr (set_last_epoch s0 e) = lo) /\
    (rs = true ->
     let s_end := set_last_epoch s0 (warm + epochs) in
     last_epoch (fst (step s_end None)) = 0 /\
     snd (step s_end None) = get_tfr (set_last_epoch s0 0) /\
     forall n, (1 <= n)%nat -> Z.of_nat n <= warm ->
       last_epoch (steps n s_end) = Z.of_nat n - 1 /\
       get_tfr (steps n s_end) = up).
Proof.
  intros H0 Hlu H1 Hw He.
  eexists. split; [apply init_some; try assumption; lia |].
  set (s0 := mk rs up lo warm (epochs + warm)
                ((lo - up) / inject_Z epochs)%Q (-1)).
  split; [| split; [| split; [| split]]].
  - intros e Hlt. apply get_tfr_warm_up. simpl. exact Hlt.
  - intros e [Hge Hlt].
    assert (Hdec : get_tfr (set_last_epoch s0 e) =
              (up + (lo - up) / inject_Z epochs * inject_Z (e - warm))%Q).
    { apply (get_tfr_decay (set_last_epoch s0 e)). simpl. lia. }
    rewrite Hdec. split; [reflexivity |]. split.
    + apply line_bounds; [assumption | assumption | lia].
    + destruct (Z.eq_dec (e + 1) (warm + epochs)) as [E | E].
      * rewrite (get_tfr_floor (set_last_epoch s0 (e + 1))) by (simpl; lia).
        simpl. apply line_bounds; [assumption | assumption | lia].
      * rewrite (get_tfr_decay (set_last_epoch s0 (e + 1))) by (simpl; lia).
        simpl. replace (e + 1 - warm) with (e - warm + 1) by lia.
        apply line_step; assumption.
  - apply line_end. exact He.
  - intros e Hge. apply (get_tfr_floor (set_last_epoch s0 e)); simpl; lia.
  - intros Hrs s_end.
    assert (Hr : restart s_end = true) by exact Hrs.
    assert (Hl : last_epoch s_end = end_epochs s_end) by (simpl; lia).
    split; [| split].
    + rewrite step_restart by assumption. reflexivity.
    + unfold step. rewrite Hr, Hl, Z.eqb_refl. reflexivity.
    + intros n Hn1 Hn2.
      rewrite (steps_after_restart s_end n) by (try assumption; simpl; lia).
      split; [reflexivity |].
      apply get_tfr_warm_up. simpl. lia.
Qed.

(** The schedule of the defaults ([ranges = (0.9, 0.1)], [warm_up = 5],
    [epochs = 32]) with [restart] on: five epochs after the restart the
    ratio is still [upper]. *)
Lemma tfr_schedule_restart_from_zero_witness :
  ((0 <= 1 # 10)%Q /\ (1 # 10 <= 9 # 10)%Q /\ (9 # 10 < 1)%Q /\
   0 <= 5 /\ 0 < 32) /\
  exists s0,
    init (9 # 10, 1 # 10) 5 32 true = Some s0 /\
    last_epoch (steps 5 (set_last_epoch s0 37)) = 4 /\
    get_tfr (steps 5 (set_last_epoch s0 37)) = 9 # 10.
Proof.
  assert (Hh : (0 <= 1 # 10)%Q /\ (1 # 10 <= 9 # 10)%Q /\ (9 # 10 < 1)%Q /\
               0 <= 5 /\ 0 < 32).
  { repeat split; try lia; unfold Qle, Qlt; simpl; lia. }
  split; [exact Hh |].
  destruct Hh as (h1 & h2 & h3 & h4 & h5).
  destruct (tfr_schedule_restart_from_zero (9 # 10) (1 # 10) 5 32 true
              h1 h2 h3 h4 h5) as (s0 & Hi & _ & _ & _ & _ & Hrs).
  exists s0. split; [exact Hi |].
  destruct (Hrs eq_refl) as (_ & _ & Hn).
  apply (Hn 5%nat); lia.
Defined.

(** C5 as stated fails on the restart: with the default schedule and
    [restart] on, the 38th call of [step()] brings the counter to the end of
    the decay span (37) and the 39th call sets it to 0, not to the warm-up
    boundary 5; the ratio then stays at [upper] for the whole warm-up span
    again. *)
Lemma tfr_restart_counterexample :
  match init (9 # 10, 1 # 10) 5 32 true with
  | Some s0 =>
      last_epoch (steps 38 s0) = end_epochs s0 /\
      last_epoch (steps 39 s0) = 0 /\
      last_epoch (steps 39 s0) <> warm_up s0 /\
      get_tfr (steps 39 s0) = upper s0 /\
      get_tfr (steps 43 s0) = upper s0
  | None => False
  end.
Proof.
  vm_compute. repeat split; discriminate.
Qed.

End TFRSchedulerFacts.

(** ** The sample filter of the training path *)

Section TrainFilterFacts.

Import TrainFilter.
Local Open Scope Z_scope.

Lemma keep_mask_length (mx : Z) (xs ys : list Z) :
  length xs = length ys -> length (keep_mask mx xs ys) = length xs.
Proof.
  unfold keep_mask. revert ys.
  induction xs as [| x xs IH]; intros [| y ys] H; simpl in *;
    try discriminate; [reflexivity |].
  f_equal. apply IH. lia.
Qed.

Lemma keep_mask_nth (mx : Z) (xs ys : list Z) (i : nat) :
  length xs = length ys -> (i < length xs)%nat ->
  nth i (keep_mask mx xs ys) false =
  ((nth i xs 0 >? nth i ys 0) && (nth i ys 0 <? mx))%bool.
Proof.
  unfold keep_mask. revert ys i.
  induction xs as [| x xs IH]; intros [| y ys] i H Hi; simpl in *;
    try discriminate; try lia.
  destruct i as [| i]; [reflexivity |].
  apply IH; lia.
Qed.

Lemma any_false_iff (l : list bool) :
  Torch.any l = false <-> forall i, (i < length l)%nat -> nth i l false = false.
Proof.
  unfold Torch.any. induction l as [| b l IH]; simpl.
  - split; [intros _ i Hi; lia | reflexivity].
  - split.
    + intros H i Hi. apply orb_false_iff in H as [Hb Hl].
      destruct i as [| i]; [exact Hb |].
      apply IH; [exact Hl | lia].
    + intros H. apply orb_false_iff. split.
      * apply (H 0%nat). lia.
      * apply IH. intros i Hi. apply (H (S i)). lia.
Qed.

(** What lines 413-416 compute.  A sample is retained if and only if its
    feature length is strictly greater than its label length and its label
    length is strictly less than the maximum decode length; the retained
    feature lengths are the ones selected by that mask; the warning is
    emitted exactly when no sample is retained.  For feature lengths
    [50, 30], label lengths [5, 40] and a decode cap of 256, the second
    sample and only it is dropped, without warning. *)
Lemma filter_is_strict_on_both_sides (mx : Z) (xs ys : list Z) :
  length xs = length ys ->
  let r := _train_forward_filter mx xs ys in
  length (bi r) = length xs /\
  (forall i, (i < length xs)%nat ->
     (nth i (bi r) false = true <->
      nth i xs 0 > nth i ys 0 /\ nth i ys 0 < mx)) /\
  x_seq_lens' r = Torch.masked_select (bi r) xs /\
  (warned r = true <->
   forall i, (i < length xs)%nat -> nth i (bi r) false = false) /\
  _train_forward_filter 256 [50; 30] [5; 40] =
  {| bi := [true; false]; warned := false; x_seq_lens' := [50] |}.
Proof.
  intros Hlen r.
  assert (Hbl : length (bi r) = length xs) by (now apply keep_mask_length).
  split; [exact Hbl |]. split; [| split; [| split]].
  - intros i Hi. unfold r, _train_forward_filter; cbn [bi].
    rewrite keep_mask_nth by assumption.
    rewrite andb_true_iff, Z.gtb_gt, Z.ltb_lt. reflexivity.
  - reflexivity.
  - unfold r, _train_forward_filter; cbn [bi warned].
    rewrite negb_true_iff, any_false_iff.
    rewrite keep_mask_length by assumption. reflexivity.
  - reflexivity.
Qed.

(** C6.  The failing input: one sample with 300 frames and 256 labels under
    the decode cap of 256.  It has more frames than labels and its label
    length does not exceed the cap, so the comment and the warning text of
    [_train_forward], which name [y_seq_lens > max_seq_lens] as the case to
    remove, keep it; the mask drops it, nothing is handed to the encoder
    and the warning is emitted.  With 255 labels the same sample is
    retained. *)
Theorem train_filter_drops_label_at_cap :
  (300 > 256 /\ 256 <= 256) /\
  _train_forward_filter 256 [300] [256] =
  {| bi := [false]; warned := true; x_seq_lens' := [] |} /\
  _train_forward_filter 256 [300] [255] =
  {| bi := [true]; warned := false; x_seq_lens' := [300] |}.
Proof.
  split; [lia |]. split; reflexivity.
Qed.

End TrainFilterFacts.

(** ** Listener *)

Section ListenerFacts.

Import Listener.
Local Open Scope Z_scope.

Lemma conv_keeps_extent (n ci co h w : Z) :
  1 <= h -> 1 <= w ->
  layer_shape (Conv2d ci co (11, 3) (1, 1) (5, 1)) (n, ci, h, w) =
  Some (n, co, h, w).
Proof.
  intros Hh Hw. unfold layer_shape, window, out_size.
  rewrite Z.eqb_refl.
  destruct (Z.leb_spec 0 (h + 2 * 5 - 11)); [| lia].
  destruct (Z.leb_spec 0 (w + 2 * 1 - 3)); [| lia].
  simpl andb. cbv iota. rewrite !Z.div_1_r.
  repeat f_equal; lia.
Qed.

Lemma pool_halves_dim2 (n c h w : Z) :
  1 <= h -> 1 <= w ->
  layer_shape (AvgPool2d (3, 1) (2, 1) (1, 0)) (n, c, h, w) =
  Some (n, c, halve h, w).
Proof.
  intros Hh Hw. unfold layer_shape, window, halve, out_size.
  destruct (Z.leb_spec 0 (h + 2 * 1 - 3)); [| lia].
  destruct (Z.leb_spec 0 (w + 2 * 0 - 1)); [| lia].
  simpl andb. cbv iota. rewrite !Z.div_1_r.
  repeat f_equal; lia.
Qed.

Lemma halve_pos (h : Z) : 1 <= h -> 1 <= halve h.
Proof.
  intros H. unfold halve, out_size.
  assert (0 <= (h - 3 + 2 * 1) / 2) by (apply Z.div_pos; lia). lia.
Qed.

Lemma sequential_cons (l : layer) (ls : list layer) (x x' : shape4) :
  layer_shape l x = Some x' -> sequential (l :: ls) x = sequential ls x'.
Proof.
  intros H. cbn [sequential]. rewrite H. reflexivity.
Qed.

Lemma stage_shape (n ci co h w : Z) (rest : list layer) :
  1 <= h -> 1 <= w ->
  sequential (Conv2d ci co (11, 3) (1, 1) (5, 1) :: LeakyReLU
              :: AvgPool2d (3, 1) (2, 1) (1, 0) :: BatchNorm2d co :: rest)
             (n, ci, h, w) =
  sequential rest (n, co, halve h, w).
Proof.
  intros Hh Hw.
  rewrite (sequential_cons _ _ _ _ (conv_keeps_extent n ci co h w Hh Hw)).
  rewrite (sequential_cons LeakyReLU _ (n, co, h, w) (n, co, h, w) eq_refl).
  rewrite (sequential_cons _ _ _ _ (pool_halves_dim2 n co h w Hh Hw)).
  apply sequential_cons. cbn [layer_shape]. rewrite Z.eqb_refl. reflexivity.
Qed.

Lemma feature_shape (cfg : config) (m : t) (n f t' : Z) :
  init cfg = Some m -> 1 <= f -> 1 <= t' ->
  sequential (feature m) (n, 2 * input_folding cfg, f, t') =
  Some (n, 256, halve (halve (halve f)), t') /\
  rnn_input_size m = 256 * 17.
Proof.
  intros Hi Hf Ht. unfold init in Hi.
  assert (Hm : feature m =
    [ Conv2d (2 * input_folding cfg) 64 (11, 3) (1, 1) (5, 1);
      LeakyReLU; AvgPool2d (3, 1) (2, 1) (1, 0); BatchNorm2d 64;
      Conv2d 64 128 (11, 3) (1, 1) (5, 1);
      LeakyReLU; AvgPool2d (3, 1) (2, 1) (1, 0); BatchNorm2d 128;
      Conv2d 128 256 (11, 3) (1, 1) (5, 1);
      LeakyReLU; AvgPool2d (3, 1) (2, 1) (1, 0); BatchNorm2d 256 ]
    /\ rnn_input_size m = 256 * 17).
  { destruct (last_fc cfg).
    - injection Hi as <-. split; reflexivity.
    - destruct (listen_vec_size cfg =? rnn_hidden_size cfg);
        [| discriminate].
      injection Hi as <-. split; reflexivity. }
  destruct Hm as [Hm Hr]. split; [| exact Hr].
  rewrite Hm.
  rewrite stage_shape by assumption.
  rewrite stage_shape by (try apply halve_pos; assumption).
  rewrite stage_shape by (repeat apply halve_pos; assumption).
  reflexivity.
Qed.

Lemma decreasing_hd_max (ls : list Z) :
  decreasing ls = true -> forall l, In l ls -> l <= hd 0 ls.
Proof.
  induction ls as [| a ls IH]; intros Hd l Hin; [destruct Hin |].
  simpl. destruct Hin as [-> | Hin]; [lia |].
  destruct ls as [| b ls]; [destruct Hin |].
  cbn [decreasing] in Hd. apply andb_true_iff in Hd as [Hba Hd].
  apply Z.leb_le in Hba.
  specialize (IH Hd l Hin). simpl in IH. lia.
Qed.

Lemma packable_inv (n t' : Z) (lens : list Z) :
  packable n t' lens = true ->
  Z.of_nat (length lens) = n /\ 0 < n /\ 0 < hd 0 lens /\ hd 0 lens <= t' /\
  forall l, In l lens -> 0 < l <= hd 0 lens.
Proof.
  unfold packable. rewrite !andb_true_iff.
  intros ((((Hl & Hn) & Hp) & Hd) & Hh).
  apply Z.eqb_eq in Hl. apply Z.ltb_lt in Hn. apply Z.leb_le in Hh.
  rewrite forallb_forall in Hp.
  assert (Hall : forall l, In l lens -> 0 < l <= hd 0 lens).
  { intros l Hin. split.
    - apply Z.ltb_lt. now apply Hp.
    - now apply decreasing_hd_max. }
  repeat split; try assumption.
  - destruct lens as [| a lens]; [simpl in Hl; lia |].
    apply (Hall a). now left.
  - now apply Hall.
  - now apply Hall.
Qed.

(** C3, as the code has it.  For every encoder that [__init__] builds and
    every input batch it accepts (channels [2 * input_folding], a frequency
    extent [f] that the three stages reduce to 17, lengths that
    [pack_padded_sequence] accepts), the output is
    (batch, time', listen_vec_size) where time' is the longest per-sample
    length: the convolution and pooling stages leave the time axis as it is
    and apply the halving [floor((w - 3 + 2) / 2) + 1] three times to the
    frequency axis only.  time' does not depend on the batch size: a batch
    of [n] samples of length [L] gives time' = [L] for every [n]. *)
Theorem listener_keeps_time_axis
  (cfg : config) (m : t) (n f t' : Z) (lens : list Z) :
  init cfg = Some m ->
  packable n t' lens = true ->
  halve (halve (halve f)) = 17 ->
  forward_shape m (n, 2 * input_folding cfg, f, t') lens =
    Some (n, hd 0 lens, listen_vec_size cfg) /\
  sequential (feature m) (n, 2 * input_folding cfg, f, t') =
    Some (n, 256, halve (halve (halve f)), t') /\
  (forall l, In l lens -> l <= hd 0 lens) /\
  hd 0 lens <= t' /\
  (forall L, lens = repeat L (Z.to_nat n) -> hd 0 lens = L).
Proof.
  intros Hi Hp Hf.
  destruct (packable_inv n t' lens Hp) as (Hl & Hn & Hh0 & Hht & Hall).
  assert (Hf1 : 1 <= f).
  { unfold halve, out_size in Hf.
    destruct (Z_lt_le_dec f 1) as [Hlt | Hge]; [| exact Hge].
    exfalso.
    assert ((f - 3 + 2 * 1) / 2 < 0) by (apply Z.div_lt_upper_bound; lia).
    assert (((f - 3 + 2 * 1) / 2 + 1 - 3 + 2 * 1) / 2 < 0)
      by (apply Z.div_lt_upper_bound; lia).
    assert ((((f - 3 + 2 * 1) / 2 + 1 - 3 + 2 * 1) / 2 + 1 - 3 + 2 * 1) / 2
            < 0) by (apply Z.div_lt_upper_bound; lia).
    lia. }
  assert (Ht1 : 1 <= t') by lia.
  destruct (feature_shape cfg m n f t' Hi Hf1 Ht1) as [Hs Hr].
  split; [| split; [exact Hs | split; [| split; [exact Hht |]]]].
  - unfold forward_shape. rewrite Hs, Hp, Hr, Hf.
    cbn [andb]. rewrite Z.eqb_refl.
    unfold init in Hi.
    destruct (last_fc cfg).
    + injection Hi as <-. cbn [fc rnn_bidirectional rnn_hidden].
      destruct (bidirectional cfg).
      * replace (2 * rnn_hidden_size cfg / 2) with (rnn_hidden_size cfg)
          by (rewrite Z.mul_comm, Z.div_mul; lia).
        rewrite Z.eqb_refl. reflexivity.
      * rewrite Z.eqb_refl. reflexivity.
    + destruct (Z.eqb_spec (listen_vec_size cfg) (rnn_hidden_size cfg))
        as [E |]; [| discriminate].
      injection Hi as <-. cbn [fc rnn_bidirectional rnn_hidden].
      destruct (bidirectional cfg).
      * replace (2 * rnn_hidden_size cfg / 2) with (rnn_hidden_size cfg)
          by (rewrite Z.mul_comm, Z.div_mul; lia).
        rewrite E. reflexivity.
      * rewrite E. reflexivity.
  - intros l Hin. now apply Hall.
  - intros L ->.
    destruct (Z.to_nat n) eqn:En; [lia |]. reflexivity.
Qed.

(** A batch of two utterances of 100 and 80 frames, 129 frequency bins. *)
Lemma listener_keeps_time_axis_witness :
  (packable 2 100 [100; 80] = true /\ halve (halve (halve 129)) = 17) /\
  exists m,
    init (las_config 256 2) = Some m /\
    forward_shape m (2, 4, 129, 100) [100; 80] = Some (2, 100, 256).
Proof.
  split; [split; reflexivity |].
  eexists. split; [reflexivity |].
  apply (listener_keeps_time_axis (las_config 256 2) _ 2 129 100 [100; 80]
           eq_refl eq_refl eq_refl).
Defined.

(** C3 as stated fails: for one utterance of 100 frames the encoder of the
    model returns 100 time steps, while three halvings of 100 give 13. *)
Lemma listener_time_counterexample :
  option_map
    (fun m => forward_shape m (1, 4, 129, 100) [100])
    (init (las_config 256 2)) = Some (Some (1, 100, 256)) /\
  halve (halve (halve 100)) = 13 /\
  100 <> halve (halve (halve 100)).
Proof.
  vm_compute. repeat split; discriminate.
Qed.

End ListenerFacts.

(** ** Speller *)

Section SpellerFacts.

Import Speller.
Local Open Scope Z_scope.

Variables Dist Ctx Att Hidden : Type.
Variable net : network Dist Ctx Att Hidden.
Variable cfg : config.
Variable batch_size : nat.
Variables sos_row eos_row : Dist.
Variable h0 : Ctx.
Variable y : option (list Dist).
Variable tfr : Q.
Variable draws : nat -> Q.

Local Abbreviation state := (Speller.state Dist Ctx Att Hidden).
Local Abbreviation body := (Speller.body net cfg batch_size eos_row y tfr draws).
Local Abbreviation step := (Speller.step net cfg batch_size eos_row y tfr draws).
Local Abbreviation run :=
  (Speller.run net cfg batch_size sos_row eos_row h0 y tfr draws).
Local Abbreviation eos_at := (Speller.eos_at net cfg).
Local Abbreviation triple_at := (Speller.triple_at net cfg).
Local Abbreviation emitted := (Speller.emitted net).
Local Abbreviation next_bi := (Speller.next_bi net cfg batch_size).
Local Abbreviation next_lens := (Speller.next_lens net cfg batch_size).
Local Abbreviation inv := (Speller.inv net cfg batch_size).
Local Abbreviation M := (Z.of_nat (max_seq_lens cfg)).

Lemma body_fields (t : nat) (st : state) :
  y_hats (body t st) = y_hats st ++ [emitted st] /\
  length (attentions (body t st)) = S (length (attentions st)) /\
  bi (body t st) = next_bi t st /\
  y_hats_seq_lens (body t st) = next_lens t st /\
  stopped (body t st) =
    Torch.all (map (fun l => l <=? Z.of_nat t + 1) (next_lens t st)).
Proof.
  unfold Speller.body, Speller.next_lens, Speller.next_bi, Speller.emitted.
  destruct (emit net (x st) (hidden st)) as [[[d c] a] hid].
  cbn [fst].
  match goal with |- context [if ?b then _ else _] => destruct b end;
    cbn [y_hats attentions bi y_hats_seq_lens stopped];
    rewrite length_app; simpl; repeat split; lia.
Qed.


Lemma eos_at_app (ys l : list Dist) (s b : nat) :
  (s < length ys)%nat -> eos_at (ys ++ l) s b = eos_at ys s b.
Proof.
  intros H. unfold Speller.eos_at.
  rewrite nth_error_app1 by exact H. reflexivity.
Qed.

Lemma eos_at_last (ys : list Dist) (d : Dist) (b : nat) :
  eos_at (ys ++ [d]) (length ys) b = (onehot2int net d b =? eos cfg).
Proof.
  unfold Speller.eos_at.
  rewrite nth_error_app2 by lia. rewrite Nat.sub_diag. reflexivity.
Qed.

Lemma eos_at_beyond (ys : list Dist) (s b : nat) :
  (length ys <= s)%nat -> eos_at ys s b = false.
Proof.
  intros H. unfold Speller.eos_at.
  apply nth_error_None in H. rewrite H. reflexivity.
Qed.

Lemma triple_at_app (ys l : list Dist) (s b : nat) :
  (s < length ys)%nat -> triple_at (ys ++ l) s b = triple_at ys s b.
Proof.
  intros H. unfold Speller.triple_at.
  rewrite !eos_at_app by lia. reflexivity.
Qed.

Lemma triple_at_beyond (ys : list Dist) (s b : nat) :
  (length ys <= s)%nat -> triple_at ys s b = false.
Proof.
  intros H. unfold Speller.triple_at.
  rewrite (eos_at_beyond ys s b H).
  rewrite andb_false_r. reflexivity.
Qed.

Lemma initial_inv : inv (initial cfg batch_size sos_row h0 : state).
Proof.
  constructor; cbn [initial y_hats attentions y_hats_seq_lens bi stopped
                    length].
  - reflexivity.
  - apply repeat_length.
  - reflexivity.
  - intros s b H. lia.
  - intros k b _ Hk _. unfold num_eos.
    destruct k as [| [| [| k]]]; try lia; cbn [repeat nth];
      apply nth_repeat.
  - intros b Hb. left. split.
    + apply nth_repeat_lt. exact Hb.
    + intros s H. lia.
  - lia.
  - discriminate.
  - intros _ H. lia.
  - intros H. lia.
Qed.


Lemma next_row (t : nat) (st : state) (k b : nat) :
  length (bi st) = 3%nat -> (b < batch_size)%nat -> (k < 3)%nat ->
  nth b (nth k (next_bi t st) []) false =
  if (k =? t mod 3)%nat then onehot2int net (emitted st) b =? eos cfg
  else nth b (nth k (bi st) []) false.
Proof.
  intros Hr Hb Hk. unfold Speller.next_bi, num_eos.
  destruct (Nat.eqb_spec k (t mod 3)) as [-> | Hne].
  - rewrite update_nth_same by lia.
    unfold eos_mask.
    rewrite (nth_map_seq (fun b' => onehot2int net (emitted st) b' =? eos cfg))
      by exact Hb.
    reflexivity.
  - rewrite update_nth_other by congruence. reflexivity.
Qed.

Lemma next_recent (st : state) (s b : nat) :
  inv st ->
  (s < length (y_hats st) + 1)%nat -> (length (y_hats st) + 1 <= s + 3)%nat ->
  (b < batch_size)%nat ->
  nth b (nth (s mod 3) (next_bi (length (y_hats st)) st) []) false =
  eos_at (y_hats st ++ [emitted st]) s b.
Proof.
  intros I Hs1 Hs2 Hb.
  rewrite next_row by (try apply (inv_rows I); try assumption; lia).
  destruct (Nat.eq_dec s (length (y_hats st))) as [-> | Hne].
  - rewrite Nat.eqb_refl. rewrite eos_at_last. reflexivity.
  - destruct (Nat.eqb_spec (s mod 3) (length (y_hats st) mod 3)) as [E | _];
      [lia |].
    rewrite eos_at_app by lia.
    apply (inv_recent I); [lia | lia | exact Hb].
Qed.

Lemma next_fresh (st : state) (k b : nat) :
  inv st ->
  (length (y_hats st) + 1 <= k)%nat -> (k < 3)%nat -> (b < batch_size)%nat ->
  nth b (nth k (next_bi (length (y_hats st)) st) []) false = false.
Proof.
  intros I Hk1 Hk2 Hb.
  rewrite next_row by (try apply (inv_rows I); assumption).
  destruct (Nat.eqb_spec k (length (y_hats st) mod 3)) as [E | _]; [lia |].
  apply (inv_fresh I); [lia | lia | exact Hb].
Qed.

(** The product over the ring buffer is the test for three [eos] in a
    row ending at the current step. *)
Lemma prod_is_triple (st : state) (b : nat) :
  inv st -> (b < batch_size)%nat ->
  nth b (prod_dim0 batch_size (next_bi (length (y_hats st)) st)) false =
  triple_at (y_hats st ++ [emitted st]) (length (y_hats st)) b.
Proof.
  intros I Hb. unfold prod_dim0.
  rewrite nth_map_seq by exact Hb.
  set (t := length (y_hats st)).
  set (ys' := y_hats st ++ [emitted st]).
  rewrite (forallb3 _ _ [])
    by (unfold Speller.next_bi; rewrite update_length; apply (inv_rows I)).
  unfold Speller.triple_at.
  destruct (Nat.leb_spec 2 t) as [H2 | H2].
  - pose proof (next_recent st t b I) as R0.
    pose proof (next_recent st (t - 1) b I) as R1.
    pose proof (next_recent st (t - 2) b I) as R2.
    fold t ys' in R0, R1, R2.
    rewrite <- R0, <- R1, <- R2 by (try exact Hb; lia).
    assert (Hc : (t mod 3 = 0 \/ t mod 3 = 1 \/ t mod 3 = 2)%nat) by lia.
    destruct Hc as [E | [E | E]].
    + replace ((t - 1) mod 3)%nat with 2%nat by lia.
      replace ((t - 2) mod 3)%nat with 1%nat by lia. rewrite E.
      destruct (nth b (nth 0 _ []) false), (nth b (nth 1 _ []) false),
        (nth b (nth 2 _ []) false); reflexivity.
    + replace ((t - 1) mod 3)%nat with 0%nat by lia.
      replace ((t - 2) mod 3)%nat with 2%nat by lia. rewrite E.
      destruct (nth b (nth 0 _ []) false), (nth b (nth 1 _ []) false),
        (nth b (nth 2 _ []) false); reflexivity.
    + replace ((t - 1) mod 3)%nat with 1%nat by lia.
      replace ((t - 2) mod 3)%nat with 0%nat by lia. rewrite E.
      destruct (nth b (nth 0 _ []) false), (nth b (nth 1 _ []) false),
        (nth b (nth 2 _ []) false); reflexivity.
  - pose proof (next_fresh st 2 b I) as F. fold t in F.
    rewrite F by (try exact Hb; lia).
    rewrite andb_false_r. reflexivity.
Qed.

Lemma next_lens_length (t : nat) (st : state) :
  inv st -> length (next_lens t st) = batch_size.
Proof.
  intros I. unfold Speller.next_lens.
  rewrite masked_fill_length; [apply (inv_len I) |].
  rewrite map2_length; unfold prod_dim0;
    rewrite !length_map, length_seq, ?(inv_len I); reflexivity.
Qed.

Lemma next_lens_nth (st : state) (b : nat) :
  inv st -> (b < batch_size)%nat ->
  nth b (next_lens (length (y_hats st)) st) 0 =
  if triple_at (y_hats st ++ [emitted st]) (length (y_hats st)) b
     && (nth b (y_hats_seq_lens st) 0 >? Z.of_nat (length (y_hats st)))
  then Z.of_nat (length (y_hats st)) + 1
  else nth b (y_hats_seq_lens st) 0.
Proof.
  intros I Hb. unfold Speller.next_lens.
  assert (Hl : length (prod_dim0 batch_size
                         (next_bi (length (y_hats st)) st)) =
               length (map (fun l => l >? Z.of_nat (length (y_hats st)))
                         (y_hats_seq_lens st))).
  { unfold prod_dim0.
    rewrite !length_map, length_seq, (inv_len I). reflexivity. }
  rewrite masked_fill_nth;
    [| rewrite map2_length by exact Hl; unfold prod_dim0;
       rewrite length_map, length_seq, (inv_len I); reflexivity
     | rewrite (inv_len I); exact Hb].
  rewrite (map2_nth _ _ _ b false false false);
    [| exact Hl
     | unfold prod_dim0; rewrite length_map, length_seq; exact Hb].
  rewrite prod_is_triple by assumption.
  rewrite nth_map_gt by (rewrite (inv_len I); exact Hb).
  reflexivity.
Qed.


Lemma body_inv (st : state) :
  inv st -> stopped st = false ->
  (length (y_hats st) < max_seq_lens cfg)%nat ->
  inv (body (length (y_hats st)) st).
Proof.
  intros I Hgo Hlt.
  set (t := length (y_hats st)) in *.
  destruct (body_fields t st) as (Fy & Fa & Fb & Fl & Fs).
  assert (Hlen : length (y_hats (body t st)) = (t + 1)%nat).
  { rewrite Fy, length_app. reflexivity. }
  constructor; rewrite ?Hlen, ?Fl, ?Fb, ?Fy.
  - rewrite Fa, (inv_att I). fold t. lia.
  - apply next_lens_length. exact I.
  - unfold Speller.next_bi. rewrite update_length. apply (inv_rows I).
  - intros s b Hs1 Hs2 Hb. apply next_recent; assumption.
  - intros k b Hk1 Hk2 Hb. apply next_fresh; assumption.
  - intros b Hb.
    unfold t. rewrite next_lens_nth by assumption. fold t.
    destruct (inv_lens I b Hb) as [[Hm Hno] | (s & Hs & Ht & Hfirst & Hv)];
      fold t in Hno || fold t in Hs.
    + rewrite Hm.
      destruct (Z.gtb_spec M (Z.of_nat t)) as [_ | Hc]; [| lia].
      rewrite andb_true_r.
      destruct (triple_at (y_hats st ++ [emitted st]) t b) eqn:Et.
      * right. exists t. split; [lia |]. split; [exact Et |].
        split; [| reflexivity].
        intros s' Hs'. rewrite triple_at_app by (fold t; lia).
        apply Hno. exact Hs'.
      * left. split; [reflexivity |].
        intros s Hs. destruct (Nat.eq_dec s t) as [-> | Hne]; [exact Et |].
        rewrite triple_at_app by (fold t; lia). apply Hno. lia.
    + rewrite Hv.
      destruct (Z.gtb_spec (Z.of_nat s + 1) (Z.of_nat t)) as [Hc | _]; [lia |].
      rewrite andb_false_r.
      right. exists s. split; [lia |]. split; [| split].
      * rewrite triple_at_app by (fold t; lia). exact Ht.
      * intros s' Hs'. rewrite triple_at_app by (fold t; lia).
        apply Hfirst. exact Hs'.
      * reflexivity.
  - lia.
  - rewrite Fs. intros Hall. split; [lia |].
    intros b Hb. rewrite all_true_iff in Hall.
    specialize (Hall b). rewrite length_map, next_lens_length in Hall by exact I.
    specialize (Hall Hb).
    rewrite nth_map_le in Hall by (rewrite next_lens_length by exact I; exact Hb).
    apply Z.leb_le in Hall. lia.
  - rewrite Fs. intros Hall _. apply all_false_iff in Hall.
    destruct Hall as (b & Hb & Hn).
    rewrite length_map, next_lens_length in Hb by exact I.
    rewrite nth_map_le in Hn by (rewrite next_lens_length by exact I; exact Hb).
    apply Z.leb_gt in Hn. exists b. split; [exact Hb | lia].
  - intros _ HB.
    assert (Hex : exists b, (b < batch_size)%nat /\
                    nth b (y_hats_seq_lens st) 0 > Z.of_nat t).
    { destruct (Nat.eq_dec t 0) as [E0 | Hn0].
      - exists 0%nat. split; [lia |].
        destruct (inv_lens I 0%nat HB) as [[Hm _] | (s & Hs & _)];
          [| fold t in Hs; lia].
        rewrite Hm. lia.
      - apply (inv_going I Hgo). fold t. lia. }
    destruct Hex as (b & Hb & Hgt). exists b. split; [exact Hb |].
    unfold t. rewrite next_lens_nth by assumption. fold t.
    destruct (triple_at _ t b && _); lia.
Qed.

Lemma run_inv (n : nat) :
  (n <= max_seq_lens cfg)%nat ->
  inv (run n) /\
  (stopped (run n) = false -> length (y_hats (run n)) = n) /\
  (length (y_hats (run n)) <= n)%nat.
Proof.
  induction n as [| n IH]; intros Hn.
  - split; [apply initial_inv |]. split; [reflexivity | simpl; lia].
  - destruct IH as (I & Hgo & Hle); [lia |].
    change (run (S n)) with (step n (run n)).
    unfold Speller.step.
    destruct (stopped (run n)) eqn:Es.
    + split; [exact I |]. split; [congruence | lia].
    + specialize (Hgo eq_refl).
      pose proof (body_inv (run n) I Es) as BI. rewrite Hgo in BI.
      destruct (body_fields n (run n)) as (Fy & _).
      split; [apply BI; lia |].
      rewrite Fy, length_app, Hgo. simpl. split; [intros _ |]; lia.
Qed.

Lemma run_stopped (n k : nat) :
  stopped (run n) = true -> (n <= k)%nat -> run k = run n.
Proof.
  intros Hs Hk. induction k as [| k IH].
  - replace n with 0%nat by lia. reflexivity.
  - destruct (Nat.eq_dec n (S k)) as [-> | Hne]; [reflexivity |].
    change (run (S k)) with (step k (run k)).
    rewrite IH by lia. unfold Speller.step. rewrite Hs. reflexivity.
Qed.


Lemma forward_runs :
  (1 <= max_seq_lens cfg)%nat ->
  forward net cfg batch_size sos_row eos_row h0 y tfr draws =
  Some (y_hats (run (max_seq_lens cfg)),
        y_hats_seq_lens (run (max_seq_lens cfg)),
        attentions (run (max_seq_lens cfg))) /\
  (1 <= length (y_hats (run (max_seq_lens cfg))))%nat.
Proof.
  intros H1.
  destruct (run_inv (max_seq_lens cfg) (le_n _)) as (I & Hgo & _).
  assert (Hpos : (1 <= length (y_hats (run (max_seq_lens cfg))))%nat).
  { destruct (stopped (run (max_seq_lens cfg))) eqn:Es.
    - apply (inv_stopped I Es).
    - rewrite Hgo by reflexivity. exact H1. }
  split; [| exact Hpos].
  unfold forward.
  destruct (y_hats (run (max_seq_lens cfg))) eqn:Ey; [simpl in Hpos; lia |].
  reflexivity.
Qed.

Lemma step_keeps_frozen (n b : nat) :
  (n < max_seq_lens cfg)%nat -> (b < batch_size)%nat ->
  nth b (y_hats_seq_lens (run n)) 0 <> M ->
  nth b (y_hats_seq_lens (run (S n))) 0 = nth b (y_hats_seq_lens (run n)) 0.
Proof.
  intros Hn Hb Hne.
  destruct (run_inv n) as (I & Hgo & _); [lia |].
  change (run (S n)) with (step n (run n)). unfold Speller.step.
  destruct (stopped (run n)) eqn:Es; [reflexivity |].
  specialize (Hgo eq_refl).
  destruct (body_fields n (run n)) as (_ & _ & _ & Fl & _). rewrite Fl.
  rewrite <- Hgo at 1. rewrite next_lens_nth by assumption.
  destruct (inv_lens I b Hb) as [[Hm _] | (s & Hs & _ & _ & Hv)];
    [contradiction |].
  rewrite Hv.
  destruct (Z.gtb_spec (Z.of_nat s + 1)
              (Z.of_nat (length (y_hats (run n))))) as [Hc | _]; [lia |].
  rewrite andb_false_r. reflexivity.
Qed.

Lemma stopped_when_all_frozen (n : nat) :
  (n < max_seq_lens cfg)%nat ->
  (forall b, (b < batch_size)%nat ->
     nth b (y_hats_seq_lens (run (S n))) 0 <= Z.of_nat n + 1) ->
  stopped (run (S n)) = true.
Proof.
  intros Hn Hall.
  destruct (run_inv n) as (I & Hgo & _); [lia |].
  change (run (S n)) with (step n (run n)) in *. unfold Speller.step in *.
  destruct (stopped (run n)) eqn:Es; [exact Es |].
  destruct (body_fields n (run n)) as (_ & _ & _ & Fl & Fs).
  rewrite Fs. rewrite Fl in Hall.
  apply all_true_iff. intros b Hb.
  rewrite length_map, next_lens_length in Hb by exact I.
  rewrite nth_map_le by (rewrite next_lens_length by exact I; exact Hb).
  apply Z.leb_le. apply Hall. exact Hb.
Qed.


(** C10.  Whenever the decoder is built with a maximum decode length of at
    least 1, [forward] returns; every entry of the returned length vector
    lies between 1 and the maximum decode length and does not exceed the
    number of emitted distributions (the out_time extent), and the
    attention trace has as many slices as there are distributions, one per
    executed iteration. *)
Theorem forward_lengths_within_out_time :
  (1 <= max_seq_lens cfg)%nat ->
  exists ys lens atts,
    forward net cfg batch_size sos_row eos_row h0 y tfr draws =
      Some (ys, lens, atts) /\
    length lens = batch_size /\
    length atts = length ys /\
    (1 <= length ys <= max_seq_lens cfg)%nat /\
    forall b, (b < batch_size)%nat ->
      1 <= nth b lens 0 <= Z.of_nat (max_seq_lens cfg) /\
      nth b lens 0 <= Z.of_nat (length ys).
Proof.
  intros H1.
  destruct (forward_runs H1) as [Hf Hpos].
  destruct (run_inv (max_seq_lens cfg) (le_n _)) as (I & Hgo & Hle).
  do 3 eexists. split; [exact Hf |].
  split; [apply (inv_len I) |]. split; [apply (inv_att I) |].
  split; [lia |].
  intros b Hb.
  assert (Hr : 1 <= nth b (y_hats_seq_lens (run (max_seq_lens cfg))) 0 <= M).
  { destruct (inv_lens I b Hb) as [[Hm _] | (s & Hs & _ & _ & Hv)]; lia. }
  split; [exact Hr |].
  destruct (stopped (run (max_seq_lens cfg))) eqn:Es.
  - apply (inv_stopped I Es). exact Hb.
  - rewrite Hgo by reflexivity. lia.
Qed.

(** C7.  For every sample [b] and step [t]: if the arg-max labels emitted
    for [b] are [eos] at the steps [t - 2], [t - 1] and [t], and no earlier
    step ends such a run, the returned length of [b] is [t + 1].  The loop
    ends with the first iteration [n] after which every entry of the length
    vector is at most [n + 1]: no further iteration runs, the number of
    emitted distributions is at most [n + 1], and it never exceeds the
    largest returned length. *)
Theorem freeze_at_first_triple_and_stop :
  (1 <= max_seq_lens cfg)%nat ->
  exists ys lens atts,
    forward net cfg batch_size sos_row eos_row h0 y tfr draws =
      Some (ys, lens, atts) /\
    (forall b t, (b < batch_size)%nat -> (t < length ys)%nat ->
       triple_at ys t b = true ->
       (forall s, (s < t)%nat -> triple_at ys s b = false) ->
       nth b lens 0 = Z.of_nat t + 1) /\
    (forall n, (n < max_seq_lens cfg)%nat ->
       (forall b, (b < batch_size)%nat ->
          nth b (y_hats_seq_lens (run (S n))) 0 <= Z.of_nat n + 1) ->
       run (max_seq_lens cfg) = run (S n) /\ (length ys <= S n)%nat) /\
    ((1 <= batch_size)%nat ->
     exists b, (b < batch_size)%nat /\ Z.of_nat (length ys) <= nth b lens 0).
Proof.
  intros H1.
  destruct (forward_runs H1) as [Hf Hpos].
  destruct (run_inv (max_seq_lens cfg) (le_n _)) as (I & Hgo & Hle).
  do 3 eexists. split; [exact Hf |]. split; [| split].
  - intros b t Hb Ht Htr Hfirst.
    destruct (inv_lens I b Hb) as [[_ Hno] | (s & Hs & Hts & Hfs & Hv)].
    + rewrite Hno in Htr by exact Ht. discriminate.
    + destruct (Nat.lt_trichotomy s t) as [Hlt | [-> | Hgt]].
      * rewrite Hfirst in Hts by exact Hlt. discriminate.
      * exact Hv.
      * rewrite Hfs in Htr by exact Hgt. discriminate.
  - intros n Hn Hall.
    pose proof (stopped_when_all_frozen n Hn Hall) as Hs.
    assert (Hrun : run (max_seq_lens cfg) = run (S n))
      by (apply run_stopped; [exact Hs | lia]).
    split; [exact Hrun |].
    rewrite Hrun. apply (run_inv (S n)). lia.
  - intros HB. destruct (inv_some I Hpos HB) as (b & Hb & Hge).
    exists b. split; [exact Hb | lia].
Qed.

(** C8.  Once the length of a sample differs from the default maximum
    after [n] iterations, every later state of the loop, and the vector
    that [forward] returns, hold the same value for that sample, whatever
    the decoder emits afterwards. *)
Theorem frozen_length_never_overwritten (n k b : nat) :
  (n <= k)%nat -> (k <= max_seq_lens cfg)%nat -> (b < batch_size)%nat ->
  nth b (y_hats_seq_lens (run n)) 0 <> M ->
  nth b (y_hats_seq_lens (run k)) 0 = nth b (y_hats_seq_lens (run n)) 0 /\
  forall ys lens atts,
    forward net cfg batch_size sos_row eos_row h0 y tfr draws =
      Some (ys, lens, atts) ->
    nth b lens 0 = nth b (y_hats_seq_lens (run n)) 0.
Proof.
  intros Hnk Hk Hb Hne.
  assert (Hall : forall j, (n <= j)%nat -> (j <= max_seq_lens cfg)%nat ->
            nth b (y_hats_seq_lens (run j)) 0 =
            nth b (y_hats_seq_lens (run n)) 0).
  { induction j as [| j IH]; intros H1 H2.
    - replace n with 0%nat by lia. reflexivity.
    - destruct (Nat.eq_dec n (S j)) as [-> | Hd]; [reflexivity |].
      rewrite step_keeps_frozen; [apply IH; lia | lia | exact Hb |].
      rewrite IH by lia. exact Hne. }
  split; [apply Hall; assumption |].
  intros ys lens atts Hf.
  unfold forward in Hf.
  destruct (y_hats (run (max_seq_lens cfg))); [discriminate |].
  injection Hf as _ <- _. apply Hall; lia.
Qed.


Lemma sample_step_true (t r : Q) :
  _is_sample_step t r = true <-> (r < t)%Q.
Proof.
  unfold _is_sample_step. rewrite Qlt_alt.
  destruct (r ?= t)%Q; split; congruence.
Qed.

Lemma sample_step_false (t r : Q) :
  _is_sample_step t r = false <-> (t <= r)%Q.
Proof.
  split.
  - intros H. apply Qnot_lt_le. intros Hlt.
    apply sample_step_true in Hlt. congruence.
  - intros H. destruct (_is_sample_step t r) eqn:E; [| reflexivity].
    apply sample_step_true in E. exfalso. exact (Qlt_not_le _ _ E H).
Qed.

Lemma sample_step_grid (a n k : nat) :
  (0 < n)%nat ->
  _is_sample_step (Z.of_nat a # Pos.of_nat n) (Z.of_nat k # Pos.of_nat n) =
  (k <? a)%nat.
Proof.
  intros Hn. unfold _is_sample_step, Qcompare. cbn [Qnum Qden].
  rewrite <- Zmult_compare_compat_r by reflexivity.
  rewrite Nat2Z.inj_compare.
  destruct (Nat.compare_spec k a), (Nat.ltb_spec k a); try reflexivity; lia.
Qed.

Lemma count_below (a n : nat) :
  length (filter (fun k => (k <? a)%nat) (seq 0 n)) = Nat.min a n.
Proof.
  induction n as [| n IH]; [rewrite Nat.min_0_r; reflexivity |].
  rewrite seq_S, filter_app, length_app, IH. cbn [filter Nat.add].
  destruct (Nat.ltb_spec n a); cbn [length]; lia.
Qed.

Lemma count_not_below (a n : nat) :
  length (filter (fun k => negb (k <? a)%nat) (seq 0 n)) = (n - a)%nat.
Proof.
  induction n as [| n IH]; [reflexivity |].
  rewrite seq_S, filter_app, length_app, IH. cbn [filter Nat.add].
  destruct (Nat.ltb_spec n a); cbn [negb length]; lia.
Qed.

Lemma filter_map_length {A B : Type} (f : B -> bool) (g : A -> B)
  (l : list A) :
  length (filter f (map g l)) = length (filter (fun a => f (g a)) l).
Proof.
  induction l as [| a l IH]; [reflexivity |].
  simpl. destruct (f (g a)); simpl; rewrite IH; reflexivity.
Qed.

Lemma choose_feed_grid (ys : list Dist) (t a n k : nat) :
  (0 < n)%nat ->
  is_emitted
    (choose_feed (Some ys) (Z.of_nat a # Pos.of_nat n)
       (fun _ => Z.of_nat k # Pos.of_nat n) t) = negb (k <? a)%nat.
Proof.
  intros Hn. unfold choose_feed. rewrite sample_step_grid by exact Hn.
  destruct (k <? a)%nat; [| reflexivity].
  simpl. destruct (t <? length ys)%nat; reflexivity.
Qed.

(** C2, as the code has it.  Without targets (inference) every step feeds
    the distribution it has just emitted.  With targets (training) the draw
    [r] of the step decides: when [r < tfr] the step feeds the target slice
    of step [t], or the end-of-sequence row once [t] has reached the time
    extent of the targets; when [tfr <= r] it feeds the emitted
    distribution.  So the target is fed with probability [tfr] and the
    emitted distribution with probability [1 - tfr]: of [n] equally likely
    draws, [a] feed the target and [n - a] the emitted distribution when
    [tfr = a / n].  The next input of the loop is the tensor so chosen. *)
Theorem teacher_forcing_ratio_feeds_targets :
  (forall (r : Q) (d : nat -> Q) t,
     choose_feed (@None (list Dist)) r d t = Emitted) /\
  (forall (ys : list Dist) (r : Q) (d : nat -> Q) t, (d t < r)%Q ->
     choose_feed (Some ys) r d t =
     if (t <? length ys)%nat then Truth t else Eos) /\
  (forall (ys : list Dist) (r : Q) (d : nat -> Q) t, (r <= d t)%Q ->
     choose_feed (Some ys) r d t = Emitted) /\
  (forall (ys : list Dist) t n a, (0 < n)%nat -> (a <= n)%nat ->
     forced_count ys (Z.of_nat a # Pos.of_nat n) t n = a /\
     emitted_count ys (Z.of_nat a # Pos.of_nat n) t n = (n - a)%nat) /\
  (forall t (st : state), stopped (body t st) = false ->
     fst (x (body t st)) =
     feed_tensor eos_row y (choose_feed y tfr draws t) (emitted st)).
Proof.
  split; [| split; [| split; [| split]]].
  - reflexivity.
  - intros ys r d t H. unfold choose_feed.
    apply sample_step_true in H. rewrite H. reflexivity.
  - intros ys r d t H. unfold choose_feed.
    apply sample_step_false in H. rewrite H. reflexivity.
  - intros ys t n a Hn Ha. unfold forced_count, emitted_count, grid.
    rewrite !filter_map_length. split.
    + rewrite (filter_ext _ (fun k => (k <? a)%nat)).
      * rewrite count_below. lia.
      * intros k. rewrite choose_feed_grid by exact Hn.
        apply negb_involutive.
    + rewrite (filter_ext _ (fun k => negb (k <? a)%nat)).
      * apply count_not_below.
      * intros k. apply choose_feed_grid. exact Hn.
  - intros t st. unfold Speller.body, Speller.emitted.
    destruct (emit net (x st) (hidden st)) as [[[d c] a] hid].
    cbn [fst].
    match goal with |- context [if ?b then _ else _] => destruct b end;
      cbn [stopped x fst]; [discriminate | reflexivity].
Qed.

End SpellerFacts.

Section SpellerExamples.

Import Speller.
Local Open Scope Z_scope.

(** Two samples, at most 8 steps: the first emits [eos] at the steps
    1, 2, 3 and the second at the steps 2, 3, 4; the loop leaves after
    step 4 with the lengths 4 and 5. *)
Lemma forward_lengths_within_out_time_witness :
  (1 <= max_seq_lens (Scripted.cfg 8))%nat /\
  exists ys atts,
    forward (Scripted.net 2 Scripted.staggered) (Scripted.cfg 8) 2
      (Scripted.sos_row 2) (Scripted.eos_row 2) tt None 1%Q (fun _ => 0%Q) =
      Some (ys, [4; 5], atts) /\
    length ys = 5%nat /\ length atts = 5%nat.
Proof.
  split; [simpl; lia |].
  destruct (forward_lengths_within_out_time _ _ _ _
              (Scripted.net 2 Scripted.staggered)
              (Scripted.cfg 8) 2 (Scripted.sos_row 2) (Scripted.eos_row 2) tt
              None 1%Q (fun _ => 0%Q))
    as (ys & lens & atts & Hf & _ & Ha & _ & _); [simpl; lia |].
  exists ys, atts.
  assert (E : lens = [4; 5] /\ length ys = 5%nat).
  { vm_compute in Hf. injection Hf as <- <- _. split; reflexivity. }
  destruct E as [-> Hy]. repeat split; [exact Hf | exact Hy | congruence].
Defined.


(** The same run: the first run of three [eos] of sample 0 ends at step 3
    and its returned length is 4; the loop leaves after step 4. *)
Lemma freeze_at_first_triple_and_stop_witness :
  (1 <= max_seq_lens (Scripted.cfg 8))%nat /\
  exists ys lens atts,
    forward (Scripted.net 2 Scripted.staggered) (Scripted.cfg 8) 2
      (Scripted.sos_row 2) (Scripted.eos_row 2) tt None 1%Q (fun _ => 0%Q) =
      Some (ys, lens, atts) /\
    triple_at (Scripted.net 2 Scripted.staggered) (Scripted.cfg 8) ys 3 0
      = true /\
    nth 0 lens 0 = 4 /\
    length ys = 5%nat.
Proof.
  split; [simpl; lia |].
  destruct (freeze_at_first_triple_and_stop _ _ _ _
              (Scripted.net 2 Scripted.staggered)
              (Scripted.cfg 8) 2 (Scripted.sos_row 2) (Scripted.eos_row 2) tt
              None 1%Q (fun _ => 0%Q))
    as (ys & lens & atts & Hf & Hfreeze & _); [simpl; lia |].
  exists ys, lens, atts.
  assert (Ey : ys = [[1; 1]; [29; 1]; [29; 29]; [29; 29]; [1; 29]]).
  { vm_compute in Hf. injection Hf as <- _ _. reflexivity. }
  split; [exact Hf |]. subst ys.
  split; [reflexivity |]. split; [| reflexivity].
  apply (Hfreeze 0%nat 3%nat); [lia | simpl; lia | reflexivity |].
  intros [| [| [| s]]] Hs; try reflexivity. lia.
Defined.

(** Sample 0 emits [eos] at every step and is frozen at length 3 after
    three iterations; sample 1 never emits it, so the loop runs all 8
    iterations.  Steps 3, 4 and 5 are again three [eos] in a row for sample
    0, and its length is still 3 at the end. *)
Lemma frozen_length_never_overwritten_witness :
  ((3 <= 8)%nat /\ (8 <= max_seq_lens (Scripted.cfg 8))%nat /\ (0 < 2)%nat /\
   nth 0
     (y_hats_seq_lens
        (run (Scripted.net 2 Scripted.eager) (Scripted.cfg 8) 2
           (Scripted.sos_row 2) (Scripted.eos_row 2) tt None 1%Q
           (fun _ => 0%Q) 3)) 0 <> 8) /\
  triple_at (Scripted.net 2 Scripted.eager) (Scripted.cfg 8)
    (y_hats
       (run (Scripted.net 2 Scripted.eager) (Scripted.cfg 8) 2
          (Scripted.sos_row 2) (Scripted.eos_row 2) tt None 1%Q
          (fun _ => 0%Q) 8)) 5 0 = true /\
  nth 0
    (y_hats_seq_lens
       (run (Scripted.net 2 Scripted.eager) (Scripted.cfg 8) 2
          (Scripted.sos_row 2) (Scripted.eos_row 2) tt None 1%Q
          (fun _ => 0%Q) 8)) 0 = 3.
Proof.
  assert (Hne : nth 0
     (y_hats_seq_lens
        (run (Scripted.net 2 Scripted.eager) (Scripted.cfg 8) 2
           (Scripted.sos_row 2) (Scripted.eos_row 2) tt None 1%Q
           (fun _ => 0%Q) 3)) 0 <> Z.of_nat (max_seq_lens (Scripted.cfg 8)))
    by (vm_compute; discriminate).
  split; [repeat split; try (simpl; lia); exact Hne |].
  split; [reflexivity |].
  destruct (frozen_length_never_overwritten _ _ _ _
              (Scripted.net 2 Scripted.eager) (Scripted.cfg 8) 2
              (Scripted.sos_row 2) (Scripted.eos_row 2) tt None 1%Q
              (fun _ => 0%Q) 3 8 0) as [H _];
    [lia | simpl; lia | lia | exact Hne |].
  rewrite H. reflexivity.
Defined.

(** C2 as stated fails.  With the ratio the decoder starts with
    ([tfr = 1]) the claim has every training step feed the emitted
    distribution, while the code feeds the target whatever the draw; with
    [tfr = 1/4], three of the four equally likely draws 0, 1/4, 1/2, 3/4 feed
    the emitted distribution, a frequency of 3/4 and not 1/4. *)
Lemma feed_probability_counterexample :
  choose_feed (Some [tt; tt]) initial_tfr (fun _ => 1 # 2) 0 = Truth 0 /\
  emitted_count [tt; tt] initial_tfr 0 4 = 0%nat /\
  emitted_count [tt; tt] (1 # 4) 0 4 = 3%nat /\
  ~ (inject_Z (Z.of_nat (emitted_count [tt; tt] (1 # 4) 0 4)) / inject_Z 4
     == 1 # 4)%Q.
Proof.
  split; [reflexivity |]. split; [reflexivity |]. split; [reflexivity |].
  vm_compute. discriminate.
Qed.

End SpellerExamples.

(** ** Sums of reals *)

Section RealFacts.

Local Open Scope R_scope.

Lemma sum_scale (l : list R) (s : R) :
  MaskedSoftmax.sum (map (fun v => v / s) l) = MaskedSoftmax.sum l / s.
Proof.
  induction l as [| a l IH]; simpl.
  - unfold Rdiv. ring.
  - rewrite IH. unfold Rdiv. ring.
Qed.

Lemma sum_nonneg (l : list R) :
  Forall (fun v => 0 <= v) l -> 0 <= MaskedSoftmax.sum l.
Proof.
  induction 1 as [| a l Ha _ IH]; simpl; lra.
Qed.

Lemma sum_ge_entry (l : list R) (j : nat) :
  Forall (fun v => 0 <= v) l -> (j < length l)%nat ->
  nth j l 0 <= MaskedSoftmax.sum l.
Proof.
  intros H. revert j. induction H as [| a l Ha Hl IH]; intros j Hj.
  - simpl in Hj. lia.
  - destruct j as [| j]; simpl.
    + pose proof (sum_nonneg l Hl). lra.
    + simpl in Hj. specialize (IH j ltac:(lia)). lra.
Qed.

Lemma sum_repeat (c : R) (n : nat) :
  MaskedSoftmax.sum (repeat c n) = INR n * c.
Proof.
  induction n as [| n IH].
  - simpl. ring.
  - rewrite S_INR. cbn [repeat MaskedSoftmax.sum fold_right].
    change (fold_right Rplus 0 (repeat c n)) with (MaskedSoftmax.sum (repeat c n)).
    rewrite IH. ring.
Qed.

End RealFacts.

(** ** LogWithLabelSmoothing *)

Section LabelSmoothingFacts.

Import LogWithLabelSmoothing.
Local Open Scope R_scope.

(** C9.  For every number of classes [V >= 1] and every smoothing floor in
    [[0, 1)], the exponentials of the smoothed log-probabilities of the
    uniform distribution over [V] classes sum to 1. *)
Theorem smoothed_uniform_sums_to_one (V : nat) (floor : R) :
  (1 <= V)%nat -> 0 <= floor < 1 ->
  MaskedSoftmax.sum (map exp (forward floor (repeat (1 / INR V) V))) = 1.
Proof.
  intros HV Hf.
  assert (HVpos : 0 < INR V) by (apply lt_0_INR; lia).
  unfold forward. rewrite repeat_length, !map_repeat.
  replace ((1 - floor) * (1 / INR V) + floor / INR V) with (/ INR V)
    by (field; lra).
  rewrite exp_ln by (apply Rinv_0_lt_compat; exact HVpos).
  rewrite sum_repeat. field. lra.
Qed.

Lemma smoothed_uniform_sums_to_one_witness :
  ((1 <= 4)%nat /\ 0 <= 1 / 100 < 1) /\
  MaskedSoftmax.sum (map exp (forward (1 / 100) (repeat (1 / INR 4) 4))) = 1.
Proof.
  assert (H : (1 <= 4)%nat /\ 0 <= 1 / 100 < 1) by (split; [lia | lra]).
  split; [exact H |].
  apply (smoothed_uniform_sums_to_one 4 (1 / 100) (proj1 H) (proj2 H)).
Defined.

End LabelSmoothingFacts.

(** ** MaskedSoftmax *)

Section MaskedSoftmaxFacts.

Import MaskedSoftmax.
Local Open Scope R_scope.

(** A mask holds zeros and ones. *)
Local Abbreviation binary := (Forall (fun m : R => m = 0 \/ m = 1)).

Lemma nth_map_rows {A B : Type} (f : A -> B) (l : list (list A)) (i : nat) :
  nth i (map (map f) l) [] = map f (nth i l []).
Proof. exact (map_nth (map f) l [] i). Qed.

Lemma epsilon_pos : 0 < epsilon.
Proof. unfold epsilon. lra. Qed.

Lemma masked_exps_length (mx : R) (e m : list R) :
  length e = length m -> length (masked_exps mx e m) = length m.
Proof.
  intros H. unfold masked_exps.
  rewrite map2_length; rewrite !length_map; exact H.
Qed.

Lemma masked_exps_nth (mx : R) (e m : list R) (j : nat) :
  length e = length m -> (j < length e)%nat ->
  nth j (masked_exps mx e m) 0 = exp (nth j e 0 - mx) * nth j m 0.
Proof.
  revert m j. induction e as [| a e IH]; intros [| b m] j H Hj;
    simpl in *; try discriminate; try lia.
  destruct j as [| j]; [reflexivity |].
  apply IH; lia.
Qed.

Lemma masked_exps_nonneg (mx : R) (e m : list R) :
  binary m -> Forall (fun v => 0 <= v) (masked_exps mx e m).
Proof.
  intros Hm. revert e. induction Hm as [| b m Hb _ IH]; intros [| a e];
    try constructor.
  - pose proof (exp_pos (a - mx)). destruct Hb as [-> | ->]; nra.
  - apply IH.
Qed.

Lemma weights_on_valid (mx s : R) (e m : list R) :
  binary m ->
  Torch.map2 Rmult (map (fun v => v / s) (masked_exps mx e m)) m =
  map (fun v => v / s) (masked_exps mx e m).
Proof.
  intros Hm. revert e. induction Hm as [| b m Hb _ IH]; intros [| a e];
    try reflexivity.
  unfold masked_exps in *. cbn [map Torch.map2]. f_equal.
  - destruct Hb as [-> | ->]; unfold Rdiv; ring.
  - apply IH.
Qed.

Lemma broadcast_map2_same {A B C : Type} (f : A -> B -> C)
  (a : list A) (b : list B) :
  length a = length b ->
  broadcast_map2 f a b = Some (Torch.map2 f a b).
Proof.
  intros H. unfold broadcast_map2. rewrite H, Nat.eqb_refl. reflexivity.
Qed.

Lemma all_some_nth {A : Type} (l : list (option A)) (r : list A) :
  all_some l = Some r ->
  length r = length l /\
  forall i d, (i < length l)%nat -> nth i l None = Some (nth i r d).
Proof.
  revert r. induction l as [| [a |] l IH]; intros r H; cbn [all_some] in H.
  - injection H as <-. split; [reflexivity |]. intros i d Hi.
    simpl in Hi. lia.
  - destruct (all_some l) as [r' |]; [| discriminate].
    injection H as <-. destruct (IH r' eq_refl) as [Hl Hn].
    split; [simpl; now rewrite Hl |].
    intros [| i] d Hi; [reflexivity |].
    cbn [nth]. apply Hn. simpl in Hi. lia.
  - discriminate.
Qed.

Lemma mul_row (a b r : tensor) (i : nat) :
  mul a b = Some r -> length a = length b -> (i < length a)%nat ->
  length r = length a /\
  broadcast_map2 Rmult (nth i a []) (nth i b []) = Some (nth i r []).
Proof.
  intros H Hl Hi. unfold mul in H.
  rewrite broadcast_map2_same in H by exact Hl.
  destruct (all_some_nth _ _ H) as [Hlen Hn].
  rewrite map2_length in Hlen by exact Hl.
  split; [exact Hlen |].
  rewrite <- (Hn i []) by (rewrite map2_length by exact Hl; exact Hi).
  symmetry. apply map2_nth; assumption.
Qed.

Lemma forward_row (e mask out : tensor) (mx : R) (i : nat) :
  tensor_max e = Some mx ->
  forward e (Some mask) = Some out ->
  length e = length mask -> (i < length e)%nat ->
  length (nth i e []) = length (nth i mask []) ->
  nth i out [] =
  map (fun v => v / (sum (masked_exps mx (nth i e []) (nth i mask []))
                     + epsilon))
      (masked_exps mx (nth i e []) (nth i mask [])).
Proof.
  intros Hmx Hf Hlen Hi Hrl. unfold forward in Hf. rewrite Hmx in Hf.
  destruct (mul (map (map exp) (map (map (fun v => v - mx)) e)) mask)
    as [exps |] eqn:Hmul; [| discriminate].
  injection Hf as <-.
  destruct (mul_row _ _ _ i Hmul) as [Hel Hrow];
    [rewrite !length_map; exact Hlen | rewrite !length_map; exact Hi |].
  rewrite !length_map in Hel. rewrite !nth_map_rows in Hrow.
  rewrite broadcast_map2_same in Hrow by (rewrite !length_map; exact Hrl).
  injection Hrow as Hrow. fold (masked_exps mx (nth i e []) (nth i mask []))
    in Hrow.
  rewrite (map2_nth _ _ _ i [] 0 []);
    [| rewrite length_map; reflexivity | rewrite Hel; exact Hi].
  rewrite (nth_indep _ 0 ((fun row => sum row + epsilon) []))
    by (rewrite length_map, Hel; exact Hi).
  rewrite (map_nth (fun row => sum row + epsilon)).
  rewrite <- Hrow. reflexivity.
Qed.

(** What the masked path computes on one row, for a mask of zeros and ones
    of the same shape: the weights are exactly 0 at the masked positions;
    the weights at the valid positions sum to [S / (S + epsilon)], where
    [S] is the sum of [exp (score - max)] over the valid positions of the
    row and [max] the largest score of the whole tensor; and when the
    largest score of the tensor sits at a valid position of the row, that
    sum is within [epsilon] of 1. *)
Lemma masked_row_weights (e mask out : tensor) (i : nat) :
  forward e (Some mask) = Some out ->
  length e = length mask -> (i < length e)%nat ->
  length (nth i e []) = length (nth i mask []) ->
  binary (nth i mask []) ->
  exists mx,
    tensor_max e = Some mx /\
    let w := nth i out [] in
    let m := nth i mask [] in
    let S := sum (masked_exps mx (nth i e []) m) in
    length w = length m /\
    (forall j, (j < length m)%nat -> nth j m 0 = 0 -> nth j w 0 = 0) /\
    valid_weight w m = S / (S + epsilon) /\
    0 <= valid_weight w m < 1 /\
    ((exists j, (j < length m)%nat /\ nth j m 0 = 1 /\
                nth j (nth i e []) 0 = mx) ->
     1 - epsilon < valid_weight w m).
Proof.
  intros Hf Hlen Hi Hrl Hbin.
  destruct (tensor_max e) as [mx |] eqn:Hmx;
    [| unfold forward in Hf; rewrite Hmx in Hf; discriminate].
  exists mx. split; [reflexivity |].
  pose proof (forward_row e mask out mx i Hmx Hf Hlen Hi Hrl) as Hw.
  set (m := nth i mask []) in *. set (er := nth i e []) in *.
  set (X := masked_exps mx er m) in *.
  cbv zeta. rewrite Hw.
  pose proof epsilon_pos as He.
  assert (HX : Forall (fun v => 0 <= v) X) by (now apply masked_exps_nonneg).
  pose proof (sum_nonneg X HX) as HS.
  assert (Hvw : valid_weight (map (fun v => v / (sum X + epsilon)) X) m =
                sum X / (sum X + epsilon)).
  { unfold valid_weight, X. rewrite weights_on_valid by exact Hbin.
    apply sum_scale. }
  split; [| split; [| split; [| split]]].
  - rewrite length_map. unfold X. now apply masked_exps_length.
  - intros j Hj Hz.
    rewrite (nth_indep _ 0 ((fun v => v / (sum X + epsilon)) 0))
      by (rewrite length_map; unfold X;
          rewrite masked_exps_length by exact Hrl; exact Hj).
    rewrite (map_nth (fun v => v / (sum X + epsilon))).
    unfold X. rewrite masked_exps_nth by (try exact Hrl; fold er; lia).
    fold m. rewrite Hz. unfold Rdiv. ring.
  - exact Hvw.
  - rewrite Hvw. split.
    + apply Rmult_le_pos; [exact HS |].
      apply Rlt_le, Rinv_0_lt_compat. lra.
    + apply (Rmult_lt_reg_r (sum X + epsilon)); [lra |].
      unfold Rdiv. rewrite Rmult_assoc, Rinv_l by lra. lra.
  - intros (j & Hj & Hm1 & Hej). rewrite Hvw.
    assert (H1 : 1 <= sum X).
    { apply Rle_trans with (nth j X 0).
      - unfold X. rewrite masked_exps_nth by (try exact Hrl; fold er; lia).
        fold m. rewrite Hm1, Hej.
        replace (mx - mx) with 0 by ring. rewrite exp_0. lra.
      - apply sum_ge_entry; [exact HX |].
        unfold X. rewrite masked_exps_length by exact Hrl. exact Hj. }
    apply (Rmult_lt_reg_r (sum X + epsilon)); [lra |].
    unfold Rdiv. rewrite (Rmult_assoc (sum X)), Rinv_l by lra.
    unfold epsilon in *. nra.
Qed.


Lemma exp_minus_20_small : 0 < exp (-20) < 1 / 1000000.
Proof.
  split; [apply exp_pos |].
  assert (H1 : 2 < exp 1) by (pose proof (exp_ineq1 1 ltac:(lra)); lra).
  assert (H2 : 4 < exp 2).
  { replace 2 with (1 + 1) by ring. rewrite exp_plus. nra. }
  assert (H4 : 16 < exp 4).
  { replace 4 with (2 + 2) by ring. rewrite exp_plus. nra. }
  assert (H5 : 32 < exp 5).
  { replace 5 with (4 + 1) by ring. rewrite exp_plus. nra. }
  assert (H10 : 1024 < exp 10).
  { replace 10 with (5 + 5) by ring. rewrite exp_plus. nra. }
  assert (H20 : 1000000 < exp 20).
  { replace 20 with (10 + 10) by ring. rewrite exp_plus. nra. }
  replace (-20) with (- (20)) by ring. rewrite exp_Ropp.
  apply (Rmult_lt_reg_r (exp 20)); [lra |].
  rewrite Rinv_l by lra. lra.
Qed.

(** C4.  The failing input: one row with the scores 0 and -20, the first
    position masked (a padded frame that scores 0), the second valid.  The
    mask has a 1 entry and the weight at the masked position is 0, but the
    shift by the largest score of the whole tensor, which sits at the
    masked position, leaves [exp (-20)] against the fixed [epsilon]: the
    weight on the only valid position is
    [exp (-20) / (exp (-20) + epsilon)], so the weights over the valid
    positions sum to less than 1/10 and not to 1 within [epsilon].  The
    softmax of the path without a mask gives that position the weight
    1. *)
Theorem masked_softmax_unnormalised_row :
  exists w,
    forward [[0; -20]] (Some [[0; 1]]) = Some [w] /\
    length w = 2%nat /\
    nth 0 w 0 = 0 /\
    nth 1 w 0 = exp (-20) / (exp (-20) + epsilon) /\
    valid_weight w [0; 1] = nth 1 w 0 /\
    valid_weight w [0; 1] < 1 / 10 /\
    sum (softmax [-20]) = 1.
Proof.
  assert (Hmx : tensor_max [[0; -20]] = Some 0).
  { unfold tensor_max, max_entries. simpl. f_equal. apply Rmax_left. lra. }
  pose proof exp_minus_20_small as Hx.
  eexists. split.
  - unfold forward. rewrite Hmx.
    cbn [map mul broadcast_map2 length Nat.eqb Torch.map2 all_some].
    reflexivity.
  - cbn [length nth]. unfold valid_weight.
    cbn [sum fold_right Torch.map2 map].
    replace (0 - 0) with 0 by ring. replace (-20 - 0) with (-20) by ring.
    rewrite exp_0. set (x := exp (-20)) in *.
    assert (He : epsilon = 1 / 100000) by reflexivity.
    set (eps := epsilon) in *.
    assert (Hd : 1 * 0 + (x * 1 + 0) + eps = x + eps) by ring.
    rewrite Hd.
    split; [reflexivity |]. split; [unfold Rdiv; ring |].
    split; [unfold Rdiv; ring |]. split; [unfold Rdiv; ring |].
    split.
    + replace (1 * 0 / (x + eps) * 0 + (x * 1 / (x + eps) * 1 + 0))
        with (x / (x + eps)) by (field; lra).
      apply (Rmult_lt_reg_r (x + eps)); [lra |].
      unfold Rdiv. rewrite Rmult_assoc, Rinv_l by lra. lra.
    + unfold softmax, sum. cbn [map fold_right].
      pose proof (exp_pos (-20)). field. lra.
Qed.
End MaskedSoftmaxFacts.

(** ** ListenAttendSpell: the inference path *)

Section EvalFacts.

Import ListenAttendSpell.
Local Open Scope Z_scope.

(** The in-place subtraction reaches the tensor that the mask indexing
    built, not the length tensor of the decoder. *)
Lemma strip_eos_no_effect (mx : Z) (lens : list Z) :
  strip_eos mx lens = lens.
Proof. reflexivity. Qed.

Lemma eval_forward_lengths
  (Dist Ctx Att Hidden Out : Type)
  (net : Speller.network Dist Ctx Att Hidden) (cfg : Speller.config)
  (batch_size : nat) (sos_row eos_row : Dist) (h0 : Ctx) (tfr : Q)
  (draws : nat -> Q) (log : Dist -> Out) :
  option_map snd
    (_eval_forward net cfg batch_size sos_row eos_row h0 tfr draws log) =
  option_map (fun r => snd (fst r))
    (Speller.forward net cfg batch_size sos_row eos_row h0 None tfr draws).
Proof.
  unfold _eval_forward.
  destruct (Speller.forward net cfg batch_size sos_row eos_row h0 None tfr
              draws) as [[[ys lens] atts] |]; [| reflexivity].
  simpl. rewrite strip_eos_no_effect. reflexivity.
Qed.

(** C1 on the code: a batch of two samples decoded with the maximum decode
    length 256.  Sample 0 emits [eos] from the first step on, so the decoder
    freezes it at length 3; sample 1 never terminates.  [_eval_forward]
    returns the lengths 3 and 256: the frozen length of sample 0 is returned
    as it is, not reduced by the run of 3 end-of-sequence steps. *)
Theorem eval_forward_keeps_frozen_length :
  option_map (fun r => snd (fst r))
    (Speller.forward (Scripted.net 2 Scripted.eager) (Scripted.cfg 256) 2
       (Scripted.sos_row 2) (Scripted.eos_row 2) tt None 1%Q (fun _ => 0%Q))
  = Some [3; 256] /\
  option_map snd
    (_eval_forward (Scripted.net 2 Scripted.eager) (Scripted.cfg 256) 2
       (Scripted.sos_row 2) (Scripted.eos_row 2) tt 1%Q (fun _ => 0%Q)
       (fun d => d))
  = Some [3; 256] /\
  3 <> 3 - Z.of_nat Speller.num_eos.
Proof.
  assert (H : option_map (fun r => snd (fst r))
    (Speller.forward (Scripted.net 2 Scripted.eager) (Scripted.cfg 256) 2
       (Scripted.sos_row 2) (Scripted.eos_row 2) tt None 1%Q (fun _ => 0%Q))
    = Some [3; 256]) by (vm_compute; reflexivity).
  split; [exact H |]. split; [| discriminate].
  rewrite eval_forward_lengths. exact H.
Qed.

End EvalFacts.

(** ** TFRScheduler: more of the schedule *)

Section TFRSchedulerMore.

Import TFRScheduler.
Local Open Scope Z_scope.

Lemma line_monotone (up lo : Q) (n k k' : Z) :
  (lo <= up)%Q -> 0 < n -> k <= k' ->
  (up + (lo - up) / inject_Z n * inject_Z k'
   <= up + (lo - up) / inject_Z n * inject_Z k)%Q.
Proof.
  intros Hlu Hn Hk.
  pose proof (inject_Z_pos n Hn) as Hn'.
  assert (Hs : ((lo - up) / inject_Z n <= 0)%Q).
  { apply Qle_shift_div_r; [exact Hn' | lra]. }
  assert (Hkk : (inject_Z k <= inject_Z k')%Q) by (rewrite <- Zle_Qle; exact Hk).
  clear Hn' Hn Hk. nra.
Qed.

Lemma init_none_iff (up lo : Q) (warm epochs : Z) (rs : bool) :
  init (up, lo) warm epochs rs = None <->
  ~ ((0 <= lo)%Q /\ (lo <= up)%Q /\ (up < 1)%Q) \/ epochs = 0.
Proof.
  unfold init.
  destruct (Qle_bool 0 lo) eqn:E1; [apply Qle_bool_iff in E1 |].
  2:{ split; [| reflexivity]. intros _. left. intros (H & _).
      apply Qle_bool_iff in H. congruence. }
  destruct (Qle_bool lo up) eqn:E2; [apply Qle_bool_iff in E2 |].
  2:{ split; [| reflexivity]. intros _. left. intros (_ & H & _).
      apply Qle_bool_iff in H. congruence. }
  destruct (Qle_bool 1 up) eqn:E3.
  { apply Qle_bool_iff in E3. split; [| reflexivity].
    intros _. left. intros (_ & _ & H). lra. }
  simpl.
  assert (E3' : (up < 1)%Q).
  { apply Qnot_le_lt. intros H. apply Qle_bool_iff in H. congruence. }
  destruct (Z.eqb_spec epochs 0) as [-> | Hne].
  - split; [intros _; now right | reflexivity].
  - split; [discriminate |].
    intros [H | H]; [exfalso; apply H; repeat split; assumption
                    | contradiction].
Qed.

Lemma init_fields (up lo : Q) (warm epochs : Z) (rs : bool) (s0 : t) :
  init (up, lo) warm epochs rs = Some s0 ->
  ((0 <= lo)%Q /\ (lo <= up)%Q /\ (up < 1)%Q) /\ epochs <> 0 /\
  s0 = mk rs up lo warm (epochs + warm) ((lo - up) / inject_Z epochs)%Q (-1).
Proof.
  intros H.
  assert (Hn : init (up, lo) warm epochs rs <> None) by congruence.
  assert (Hok : (0 <= lo)%Q /\ (lo <= up)%Q /\ (up < 1)%Q).
  { destruct (Qlt_le_dec lo 0) as [A | A];
      [exfalso; apply Hn, init_none_iff; left; intros (A' & _); lra |].
    destruct (Qlt_le_dec up lo) as [B | B];
      [exfalso; apply Hn, init_none_iff; left; intros (_ & B' & _); lra |].
    destruct (Qlt_le_dec up 1) as [C | C];
      [| exfalso; apply Hn, init_none_iff; left; intros (_ & _ & C'); lra].
    repeat split; assumption. }
  assert (He : epochs <> 0).
  { intros ->. apply Hn, init_none_iff. now right. }
  split; [exact Hok |]. split; [exact He |].
  destruct Hok as (A & B & C).
  rewrite (init_some up lo warm epochs rs A B C He) in H. congruence.
Qed.

Lemma slope_sign (up lo : Q) (n : Z) :
  (lo <= up)%Q ->
  (n < 0 -> (0 <= (lo - up) / inject_Z n)%Q) /\
  (0 < n -> (lo < up)%Q -> ((lo - up) / inject_Z n < 0)%Q).
Proof.
  intros Hle. split.
  - intros Hn.
    assert (Hp : (0 < - inject_Z n)%Q).
    { rewrite <- inject_Z_opp. apply inject_Z_pos. lia. }
    set (q := inject_Z n) in *.
    assert (E : ((lo - up) / q == (up - lo) / (- q))%Q)
      by (field; intros H0; rewrite H0 in Hp; lra).
    rewrite E. apply Qle_shift_div_l; [exact Hp | lra].
  - intros Hn Hlt.
    assert (Hp : (0 < inject_Z n)%Q) by (apply inject_Z_pos; lia).
    apply Qlt_shift_div_r; [exact Hp | lra].
Qed.

(** X1.  [__init__] validates the ranges but neither [epochs] nor
    [warm_up], and a scheduler built with a negative one behaves as
    follows.  With a negative [epochs] the slope is not negative and is
    never used: the ratio is [upper] below [warm_up] and [lower] from
    [warm_up] on, a step without decay.  With a negative [warm_up] and
    [lower < upper] there is no warm-up: the ratio stored by the first
    [step()] is already below [upper]. *)
Theorem tfr_init_unvalidated_schedule
  (up lo : Q) (warm epochs : Z) (rs : bool) (s0 : t) :
  init (up, lo) warm epochs rs = Some s0 ->
  (epochs < 0 ->
   (0 <= slope s0)%Q /\
   forall e, get_tfr (set_last_epoch s0 e) = if e <? warm then up else lo) /\
  (warm < 0 -> (lo < up)%Q -> (snd (step s0 None) < up)%Q).
Proof.
  intros H. destruct (init_fields _ _ _ _ _ _ H) as ((A & B & C) & He & ->).
  destruct (slope_sign up lo epochs B) as [Hs1 Hs2].
  split.
  - intros Hn. split; [exact (Hs1 Hn) |].
    intros e. unfold get_tfr, set_last_epoch; cbn [last_epoch warm_up
      end_epochs upper lower slope].
    destruct (Z.ltb_spec e warm); [reflexivity |].
    destruct (Z.ltb_spec e (epochs + warm)); [lia | reflexivity].
  - intros Hw Hlt. unfold step; cbn [restart last_epoch end_epochs].
    assert (E : (if (rs && (-1 =? epochs + warm))%bool
                 then set_last_epoch
                        (mk rs up lo warm (epochs + warm)
                           ((lo - up) / inject_Z epochs)%Q (-1)) (-1)
                 else mk rs up lo warm (epochs + warm)
                        ((lo - up) / inject_Z epochs)%Q (-1)) =
                mk rs up lo warm (epochs + warm)
                  ((lo - up) / inject_Z epochs)%Q (-1))
      by (destruct (rs && (-1 =? epochs + warm))%bool; reflexivity).
    rewrite E. cbn [snd last_epoch].
    unfold get_tfr, set_last_epoch; cbn [last_epoch warm_up end_epochs
      upper lower slope].
    change (-1 + 1) with 0.
    destruct (Z.ltb_spec 0 warm); [lia |].
    destruct (Z.ltb_spec 0 (epochs + warm)) as [Hend | Hend];
      [| exact Hlt].
    assert (Hsl : ((lo - up) / inject_Z epochs < 0)%Q)
      by (apply Hs2; [lia | exact Hlt]).
    assert (Hk : (0 < inject_Z (0 - warm))%Q) by (apply inject_Z_pos; lia).
    set (sl := ((lo - up) / inject_Z epochs)%Q) in *.
    set (k := inject_Z (0 - warm)) in *.
    assert (Hneg : (sl * k < 0)%Q).
    { setoid_replace 0%Q with (0 * k)%Q by ring.
      apply Qmult_lt_compat_r; assumption. }
    lra.
Qed.

Lemma tfr_init_unvalidated_schedule_witness :
  exists s0,
    init (9 # 10, 1 # 10) 5 (-3) false = Some s0 /\
    get_tfr (set_last_epoch s0 4) = 9 # 10 /\
    get_tfr (set_last_epoch s0 5) = 1 # 10.
Proof.
  eexists. split; [reflexivity |].
  match goal with
  | |- get_tfr (set_last_epoch ?s _) = _ /\ _ =>
      destruct (tfr_init_unvalidated_schedule (9 # 10) (1 # 10) 5 (-3)
                  false s eq_refl) as [H _]
  end.
  destruct (H ltac:(lia)) as [_ Hstep].
  split; [apply (Hstep 4) | apply (Hstep 5)].
Defined.

(** X2.  For every scheduler that [__init__] builds, whatever the sign of
    [epochs] and [warm_up], the ratio lies in [[lower, upper]] at every
    value of the epoch counter and never increases when the counter
    grows. *)
Theorem tfr_bounded_and_monotone
  (up lo : Q) (warm epochs : Z) (rs : bool) (s0 : t) (e e' : Z) :
  init (up, lo) warm epochs rs = Some s0 ->
  e <= e' ->
  (lo <= get_tfr (set_last_epoch s0 e'))%Q /\
  (get_tfr (set_last_epoch s0 e') <= get_tfr (set_last_epoch s0 e))%Q /\
  (get_tfr (set_last_epoch s0 e) <= up)%Q.
Proof.
  intros Hi Hee.
  assert (Hv : (0 <= lo)%Q /\ (lo <= up)%Q /\ (up < 1)%Q).
  { destruct (Qlt_le_dec lo 0) as [H1 | H1];
    [| destruct (Qlt_le_dec up lo) as [H2 | H2];
       [| destruct (Qlt_le_dec up 1) as [H3 | H3]; [repeat split; assumption |]]];
    exfalso;
    assert (Hn : init (up, lo) warm epochs rs = None)
      by (apply init_none_iff; left; intros (A & B & C); lra);
    congruence. }
  destruct Hv as (H0 & Hlu & H1).
  assert (He0 : epochs <> 0).
  { intros ->. assert (Hn : init (up, lo) warm 0 rs = None)
      by (apply init_none_iff; now right). congruence. }
  rewrite (init_some up lo warm epochs rs H0 Hlu H1 He0) in Hi.
  injection Hi as <-.
  set (s0 := mk rs up lo warm (epochs + warm)
                ((lo - up) / inject_Z epochs)%Q (-1)).
  assert (Hval : forall x,
    (x < warm /\ get_tfr (set_last_epoch s0 x) = up) \/
    (warm <= x < epochs + warm /\ 0 < epochs /\
     get_tfr (set_last_epoch s0 x) =
       (up + (lo - up) / inject_Z epochs * inject_Z (x - warm))%Q) \/
    (warm <= x /\ epochs + warm <= x /\ get_tfr (set_last_epoch s0 x) = lo)).
  { intros x. unfold get_tfr. cbn [last_epoch warm_up end_epochs upper lower
                                   slope set_last_epoch s0].
    destruct (Z.ltb_spec x warm); [left; split; [lia | reflexivity] |].
    destruct (Z.ltb_spec x (epochs + warm)).
    - right; left. repeat split; try lia.
    - right; right. repeat split; lia. }
  destruct (Hval e) as [[A ->] | [(A & Ap & ->) | (A & A' & ->)]];
    destruct (Hval e') as [[B ->] | [(B & Bp & ->) | (B & B' & ->)]];
    try lia.
  - repeat split; lra.
  - pose proof (line_bounds up lo epochs (e' - warm) Hlu Bp ltac:(lia)).
    repeat split; lra.
  - repeat split; lra.
  - pose proof (line_bounds up lo epochs (e' - warm) Hlu Bp ltac:(lia)).
    pose proof (line_bounds up lo epochs (e - warm) Hlu Bp ltac:(lia)).
    pose proof (line_monotone up lo epochs (e - warm) (e' - warm) Hlu Bp
                  ltac:(lia)).
    repeat split; lra.
  - pose proof (line_bounds up lo epochs (e - warm) Hlu Ap ltac:(lia)).
    repeat split; lra.
  - repeat split; lra.
Qed.

(** The scheduler of the defaults: [ranges = (0.9, 0.1)], [warm_up = 5],
    [epochs = 32]. *)
Local Abbreviation default_schedule rs :=
  (mk rs (9 # 10) (1 # 10) 5 37 (((1 # 10) - (9 # 10)) / inject_Z 32)%Q (-1)).

Lemma tfr_bounded_and_monotone_witness :
  (init (9 # 10, 1 # 10) 5 32 false =
     Some (default_schedule false)
   /\ 10 <= 20) /\
  (get_tfr
     (set_last_epoch
        (default_schedule false) 20)
   <= get_tfr
        (set_last_epoch
           (default_schedule false)
           10))%Q.
Proof.
  assert (H : init (9 # 10, 1 # 10) 5 32 false =
     Some (default_schedule false)
   /\ 10 <= 20) by (split; [reflexivity | lia]).
  split; [exact H |].
  apply (tfr_bounded_and_monotone (9 # 10) (1 # 10) 5 32 false _ 10 20
           (proj1 H) (proj2 H)).
Defined.

Lemma succ_mod (a p : Z) :
  0 < p ->
  (a + 1) mod p = if a mod p =? p - 1 then 0 else a mod p + 1.
Proof.
  intros Hp. rewrite <- Zplus_mod_idemp_l.
  pose proof (Z.mod_pos_bound a p Hp) as Hb.
  destruct (Z.eqb_spec (a mod p) (p - 1)) as [E | E].
  - rewrite E. replace (p - 1 + 1) with p by lia. apply Z_mod_same_full.
  - apply Z.mod_small. lia.
Qed.

Lemma steps_counter (s : t) (n : nat) :
  last_epoch s = -1 -> 0 <= end_epochs s -> (1 <= n)%nat ->
  steps n s =
  set_last_epoch s
    (if restart s then (Z.of_nat n - 1) mod (end_epochs s + 1)
     else Z.of_nat n - 1).
Proof.
  intros Hl He Hn. induction n as [| n IH]; [lia |].
  destruct n as [| n].
  - change (steps 1 s) with (fst (step s None)).
    rewrite step_plain.
    + rewrite Hl. f_equal. simpl. destruct (restart s); [| reflexivity].
      rewrite Z.mod_0_l by lia. reflexivity.
    + rewrite Hl. destruct (Z.eqb_spec (-1) (end_epochs s)); [lia |].
      apply andb_false_r.
  - change (steps (S (S n)) s) with (fst (step (steps (S n) s) None)).
    rewrite IH by lia.
    set (c := if restart s then (Z.of_nat (S n) - 1) mod (end_epochs s + 1)
              else Z.of_nat (S n) - 1).
    destruct (restart s) eqn:Hr.
    + pose proof (succ_mod (Z.of_nat (S n) - 1) (end_epochs s + 1)
                    ltac:(lia)) as Hs.
      replace (Z.of_nat (S n) - 1 + 1) with (Z.of_nat (S (S n)) - 1) in Hs
        by lia.
      rewrite Hs. fold c.
      replace (end_epochs s + 1 - 1) with (end_epochs s) by lia.
      destruct (Z.eqb_spec c (end_epochs s)) as [E | E].
      * rewrite step_restart by (try exact E; exact Hr). reflexivity.
      * rewrite step_plain.
        -- unfold set_last_epoch; cbn [last_epoch warm_up end_epochs upper
                                       lower slope restart]. reflexivity.
        -- unfold set_last_epoch; cbn [last_epoch end_epochs restart].
           rewrite Hr, andb_true_l. apply Z.eqb_neq. exact E.
    + rewrite step_plain.
      * unfold set_last_epoch; cbn [last_epoch warm_up end_epochs upper
                                     lower slope restart].
        f_equal. unfold c. lia.
      * unfold set_last_epoch; cbn [restart]. rewrite Hr. reflexivity.
Qed.

(** X3.  Calling [step()] without argument [n >= 1] times on a fresh
    scheduler whose decay span ends at a non-negative epoch leaves every
    field but the counter as it was; without [restart] the counter is
    [n - 1], with [restart] it is [(n - 1) mod (end_epochs + 1)], so the
    ratio repeats with period [end_epochs + 1]. *)
Theorem tfr_steps_counter (s : t) (n : nat) :
  last_epoch s = -1 -> 0 <= end_epochs s -> (1 <= n)%nat ->
  steps n s =
    set_last_epoch s
      (if restart s then (Z.of_nat n - 1) mod (end_epochs s + 1)
       else Z.of_nat n - 1) /\
  (restart s = true ->
   get_tfr (steps (n + Z.to_nat (end_epochs s + 1)) s) = get_tfr (steps n s)).
Proof.
  intros Hl He Hn. split; [now apply steps_counter |].
  intros Hr. rewrite !steps_counter by (try assumption; lia). rewrite Hr.
  f_equal. f_equal.
  rewrite Nat2Z.inj_add, Z2Nat.id by lia.
  replace (Z.of_nat n + (end_epochs s + 1) - 1)
    with (Z.of_nat n - 1 + 1 * (end_epochs s + 1)) by lia.
  apply Z.mod_add. lia.
Qed.

Lemma tfr_steps_counter_witness :
  (last_epoch (default_schedule true)
     = -1 /\
   0 <= end_epochs
          (default_schedule true) /\
   (1 <= 40)%nat) /\
  last_epoch
    (steps 40
       (default_schedule true)) = 1.
Proof.
  split; [repeat split; simpl; lia |].
  destruct (tfr_steps_counter
              (default_schedule true)
              40 eq_refl ltac:(simpl; lia) ltac:(lia)) as [H _].
  rewrite H. reflexivity.
Defined.

End TFRSchedulerMore.

(** ** TFRScheduler: snapshot and restore *)

Section TFRCheckpointFacts.

Import String.
Import TFRCheckpoint.
Local Open Scope string_scope.

Lemma get_set_same (k : String.string) (v : value) (d : dict) :
  get k (set k v d) = Some v.
Proof.
  induction d as [| [k' v'] d IH]; simpl.
  - rewrite String.eqb_refl. reflexivity.
  - destruct (String.eqb k k') eqn:E; simpl.
    + rewrite String.eqb_refl. reflexivity.
    + rewrite E. exact IH.
Qed.

Lemma get_set_other (k k0 : String.string) (v : value) (d : dict) :
  k0 <> k -> get k0 (set k v d) = get k0 d.
Proof.
  intros Hne. induction d as [| [k' v'] d IH]; simpl.
  - destruct (String.eqb_spec k0 k); [contradiction | reflexivity].
  - destruct (String.eqb_spec k k') as [<- | Hk]; simpl.
    + destruct (String.eqb_spec k0 k); [contradiction | reflexivity].
    + destruct (String.eqb_spec k0 k'); [reflexivity | exact IH].
Qed.

(** Keys of a dict are distinct. *)
Local Abbreviation keys := (map (@fst String.string value)).

Lemma get_update (k : String.string) (other d : dict) :
  NoDup (keys other) ->
  get k (update d other) =
  match get k other with
  | Some v => Some v
  | None => get k d
  end.
Proof.
  unfold update. revert d.
  induction other as [| [k' v'] other IH]; intros d Hnd; [reflexivity |].
  inversion Hnd as [| ? ? Hnin Hnd']; subst.
  cbn [fold_left fst snd get]. rewrite IH by exact Hnd'.
  destruct (String.eqb_spec k k') as [-> | Hne].
  - assert (Hn : get k' other = None).
    { clear -Hnin. induction other as [| [k2 v2] other IH]; [reflexivity |].
      simpl in *. destruct (String.eqb_spec k' k2) as [-> | _].
      - exfalso. apply Hnin. now left.
      - apply IH. intros H. apply Hnin. now right. }
    rewrite Hn. apply get_set_same.
  - destruct (get k other); [reflexivity |].
    apply get_set_other. exact Hne.
Qed.

Lemma get_state_dict (k : String.string) (d : dict) :
  get k (state_dict d) =
  if String.eqb k "model" then None else get k d.
Proof.
  unfold state_dict. induction d as [| [k' v'] d IH]; simpl.
  - destruct (String.eqb k "model"); reflexivity.
  - destruct (String.eqb_spec k' "model") as [-> | Hk']; simpl.
    + rewrite IH. destruct (String.eqb_spec k "model"); reflexivity.
    + destruct (String.eqb_spec k k') as [-> | Hk].
      * destruct (String.eqb_spec k' "model"); [contradiction | reflexivity].
      * exact IH.
Qed.

(** X4.  Restoring a scheduler from the snapshot of another one gives the
    other scheduler's fields and keeps the own model reference; the
    snapshot itself never holds the key ['model']. *)
Theorem load_state_dict_restores
  (m m' : nat) (s s' : TFRScheduler.t) (d : dict) :
  scheduler_of
    (load_state_dict (attributes m s) (state_dict (attributes m' s')))
  = Some (m, s') /\
  get "model" (state_dict d) = None /\
  map fst (state_dict (attributes m' s')) =
  ["restart"; "upper"; "lower"; "warm_up"; "end_epochs"; "slope";
   "last_epoch"].
Proof.
  split; [| split].
  - destruct s as [r u l w e sl le], s' as [r' u' l' w' e' sl' le'].
    reflexivity.
  - rewrite get_state_dict. reflexivity.
  - reflexivity.
Qed.

(** X5.  [load_state_dict] overrides exactly the attributes that the given
    dict names: an attribute of the dict is read back from it, any other
    attribute keeps its value. *)
Theorem load_state_dict_lookup
  (k : string) (attrs sd : dict) :
  NoDup (keys sd) ->
  get k (load_state_dict attrs sd) =
  match get k sd with
  | Some v => Some v
  | None => get k attrs
  end.
Proof.
  intros H. apply get_update. exact H.
Qed.

Lemma load_state_dict_lookup_witness :
  NoDup (keys [("last_epoch", VInt 7)]) /\
  get "last_epoch"
    (load_state_dict
       (attributes 0 (TFRScheduler.mk false (9 # 10) (1 # 10) 5 37 0 (-1)))
       [("last_epoch", VInt 7)]) = Some (VInt 7).
Proof.
  assert (H : NoDup (keys [("last_epoch", VInt 7)])).
  { constructor; [intros [] | constructor]. }
  split; [exact H |].
  rewrite (load_state_dict_lookup "last_epoch" _ _ H). reflexivity.
Defined.

End TFRCheckpointFacts.

(** ** Listener: accepted inputs *)

Section ListenerMore.

Import Listener.
Local Open Scope Z_scope.

Lemma halve3_17 (f : Z) :
  halve (halve (halve f)) = 17 <-> 129 <= f <= 136.
Proof.
  unfold halve, out_size. split; intros H.
  - Z.div_mod_to_equations. lia.
  - Z.div_mod_to_equations. lia.
Qed.

Lemma first_layer_needs (m : t) (cfg : config) (n c f t' : Z) :
  init cfg = Some m ->
  sequential (feature m) (n, c, f, t') <> None ->
  c = 2 * input_folding cfg /\ 1 <= f /\ 1 <= t'.
Proof.
  intros Hi Hs.
  assert (Hf : exists rest, feature m =
            Conv2d (2 * input_folding cfg) 64 (11, 3) (1, 1) (5, 1) :: rest).
  { unfold init in Hi. destruct (last_fc cfg).
    - injection Hi as <-. eexists. reflexivity.
    - destruct (listen_vec_size cfg =? rnn_hidden_size cfg); [| discriminate].
      injection Hi as <-. eexists. reflexivity. }
  destruct Hf as [rest Hf]. rewrite Hf in Hs.
  cbn [sequential layer_shape] in Hs. unfold window in Hs.
  destruct (Z.eqb_spec c (2 * input_folding cfg)); [| contradiction].
  destruct (Z.leb_spec 0 (f + 2 * 5 - 11)); [| contradiction].
  destruct (Z.leb_spec 0 (t' + 2 * 1 - 3));
    [| cbn [andb] in Hs; contradiction].
  repeat split; [assumption | lia | lia].
Qed.

Lemma tail_of_forward (cfg : config) (m : t) (w : Z) :
  init cfg = Some m ->
  (let width := if rnn_bidirectional m then 2 * rnn_hidden m
                else rnn_hidden m in
   let width := if rnn_bidirectional m then width / 2 else width in
   match fc m with
   | Some (fin, fout) => if width =? fin then Some fout else None
   | None => Some width
   end) = Some (listen_vec_size cfg).
Proof.
  intros Hi. unfold init in Hi. destruct (last_fc cfg).
  - injection Hi as <-. cbn [fc rnn_bidirectional rnn_hidden].
    destruct (bidirectional cfg); cbv zeta.
    + replace (2 * rnn_hidden_size cfg / 2) with (rnn_hidden_size cfg)
        by (rewrite Z.mul_comm, Z.div_mul; lia).
      rewrite Z.eqb_refl. reflexivity.
    + rewrite Z.eqb_refl. reflexivity.
  - destruct (Z.eqb_spec (listen_vec_size cfg) (rnn_hidden_size cfg))
      as [E |]; [| discriminate].
    injection Hi as <-. cbn [fc rnn_bidirectional rnn_hidden].
    destruct (bidirectional cfg); cbv zeta.
    + replace (2 * rnn_hidden_size cfg / 2) with (rnn_hidden_size cfg)
        by (rewrite Z.mul_comm, Z.div_mul; lia).
      rewrite E. reflexivity.
    + rewrite E. reflexivity.
Qed.

(** X20.  [Listener.__init__] fails exactly when the final projection is
    off and the encoded width differs from the recurrent width.  An
    encoder that was built accepts an input batch exactly when it has
    [2 * input_folding] channels, between 129 and 136 frequency bins (the
    extents that three halvings reduce to 17) and lengths that
    [pack_padded_sequence] accepts; every other input raises. *)
Theorem listener_accepts_iff
  (cfg : config) (m : t) (n c f t' : Z) (lens : list Z) :
  (init cfg = None <->
   last_fc cfg = false /\ listen_vec_size cfg <> rnn_hidden_size cfg) /\
  (init cfg = Some m ->
   (forward_shape m (n, c, f, t') lens <> None <->
    c = 2 * input_folding cfg /\ 129 <= f <= 136 /\
    packable n t' lens = true)).
Proof.
  split.
  - unfold init. destruct (last_fc cfg).
    + split; [discriminate | intros [H _]; discriminate].
    + destruct (Z.eqb_spec (listen_vec_size cfg) (rnn_hidden_size cfg)).
      * split; [discriminate | intros [_ H]; contradiction].
      * split; [intros _; now split | reflexivity].
  - intros Hi. split.
    + intros H.
      assert (Hs : sequential (feature m) (n, c, f, t') <> None).
      { intros E. apply H. unfold forward_shape. rewrite E. reflexivity. }
      destruct (first_layer_needs m cfg n c f t' Hi Hs) as (-> & Hf & Ht).
      destruct (feature_shape cfg m n f t' Hi Hf Ht) as [Hsh Hr].
      unfold forward_shape in H. rewrite Hsh, Hr in H.
      destruct (packable n t' lens) eqn:Hp; [| contradiction H; reflexivity].
      destruct (Z.eqb_spec (256 * halve (halve (halve f))) (256 * 17))
        as [E | E]; [| contradiction H; reflexivity].
      repeat split; try reflexivity; apply halve3_17; lia.
    + intros (-> & Hf & Hp).
      destruct (packable_inv n t' lens Hp) as (_ & _ & H0 & Ht & _).
      destruct (feature_shape cfg m n f t' Hi ltac:(lia) ltac:(lia))
        as [Hsh Hr].
      unfold forward_shape. rewrite Hsh, Hr, Hp.
      rewrite (proj2 (halve3_17 f) Hf). cbn [andb]. rewrite Z.eqb_refl.
      pose proof (tail_of_forward cfg m 0 Hi) as Ht'. cbv zeta in Ht'.
      destruct (fc m) as [[fin fout] |].
      * destruct (_ =? fin); discriminate.
      * discriminate.
Qed.

(** 128 frequency bins are one too few. *)
Lemma listener_accepts_iff_witness :
  exists m,
    init (las_config 256 2) = Some m /\
    forward_shape m (1, 4, 128, 100) [100] = None.
Proof.
  eexists. split; [reflexivity |].
  match goal with
  | |- forward_shape ?m _ _ = None =>
      destruct (listener_accepts_iff (las_config 256 2) m 1 4 128 100 [100])
        as [_ H];
      destruct (forward_shape m (1, 4, 128, 100) [100]) eqn:E;
        [| reflexivity]
  end.
  exfalso.
  destruct (proj1 (H eq_refl) ltac:(discriminate)) as (_ & Hf & _). lia.
Defined.

End ListenerMore.

(** ** Speller: termination *)

Section SpellerMore.

Import Speller.
Local Open Scope Z_scope.

Variables Dist Ctx Att Hidden : Type.
Variable net : network Dist Ctx Att Hidden.
Variable cfg : config.
Variable batch_size : nat.
Variables sos_row eos_row : Dist.
Variable h0 : Ctx.
Variable y : option (list Dist).
Variable tfr : Q.
Variable draws : nat -> Q.

Local Abbreviation run :=
  (Speller.run net cfg batch_size sos_row eos_row h0 y tfr draws).
Local Abbreviation triple_at := (Speller.triple_at net cfg).
Local Abbreviation M := (Z.of_nat (max_seq_lens cfg)).

Lemma triple_at_from_2 (ys : list Dist) (s b : nat) :
  triple_at ys s b = true -> (2 <= s)%nat.
Proof.
  unfold Speller.triple_at. rewrite !andb_true_iff.
  intros (((H & _) & _) & _). apply Nat.leb_le. exact H.
Qed.

(** X6.  A sample that never emits three end-of-sequence arg-maxes in a
    row keeps the default length and makes the loop run all
    [max_seq_lens] iterations, whatever the other samples do: a batch
    stops early only when every sample has terminated. *)
Theorem unterminated_sample_runs_to_max :
  (1 <= max_seq_lens cfg)%nat ->
  exists ys lens atts,
    forward net cfg batch_size sos_row eos_row h0 y tfr draws =
      Some (ys, lens, atts) /\
    forall b, (b < batch_size)%nat ->
      (forall s, triple_at ys s b = false) ->
      nth b lens 0 = M /\ length ys = max_seq_lens cfg.
Proof.
  intros H1.
  destruct (forward_runs _ _ _ _ net cfg batch_size sos_row eos_row h0 y tfr
              draws H1) as [Hf Hpos].
  destruct (run_inv _ _ _ _ net cfg batch_size sos_row eos_row h0 y tfr draws
              (max_seq_lens cfg) (le_n _)) as (I & Hgo & Hle).
  do 3 eexists. split; [exact Hf |].
  intros b Hb Hno.
  assert (Hm : nth b (y_hats_seq_lens (run (max_seq_lens cfg))) 0 = M).
  { destruct (inv_lens I b Hb) as [[Hm _] | (s & _ & Ht & _)];
      [exact Hm | rewrite Hno in Ht; discriminate]. }
  split; [exact Hm |].
  destruct (stopped (run (max_seq_lens cfg))) eqn:Es.
  - destruct (inv_stopped I Es) as [_ Hall]. specialize (Hall b Hb). lia.
  - apply Hgo. reflexivity.
Qed.

(** X7.  A returned length is the default maximum or at least 3: the ring
    buffer starts with zeros, so no sample is frozen before step 2.  With
    a non-empty batch the loop therefore runs at least
    [min 3 max_seq_lens] iterations. *)
Theorem no_length_below_three :
  (1 <= max_seq_lens cfg)%nat ->
  exists ys lens atts,
    forward net cfg batch_size sos_row eos_row h0 y tfr draws =
      Some (ys, lens, atts) /\
    (forall b, (b < batch_size)%nat ->
       nth b lens 0 = M \/ 3 <= nth b lens 0) /\
    ((1 <= batch_size)%nat ->
     (Nat.min 3 (max_seq_lens cfg) <= length ys)%nat).
Proof.
  intros H1.
  destruct (forward_runs _ _ _ _ net cfg batch_size sos_row eos_row h0 y tfr
              draws H1) as [Hf Hpos].
  destruct (run_inv _ _ _ _ net cfg batch_size sos_row eos_row h0 y tfr draws
              (max_seq_lens cfg) (le_n _)) as (I & Hgo & Hle).
  do 3 eexists. split; [exact Hf |].
  assert (Hall : forall b, (b < batch_size)%nat ->
            nth b (y_hats_seq_lens (run (max_seq_lens cfg))) 0 = M \/
            3 <= nth b (y_hats_seq_lens (run (max_seq_lens cfg))) 0).
  { intros b Hb.
    destruct (inv_lens I b Hb) as [[Hm _] | (s & _ & Ht & _ & Hv)];
      [left; exact Hm | right].
    apply triple_at_from_2 in Ht. lia. }
  split; [exact Hall |].
  intros HB.
  destruct (stopped (run (max_seq_lens cfg))) eqn:Es.
  - destruct (inv_stopped I Es) as [_ Hs].
    specialize (Hs 0%nat HB). destruct (Hall 0%nat HB); lia.
  - rewrite Hgo by reflexivity. lia.
Qed.

End SpellerMore.

(** ** Speller: sampling *)

Section SpellerSampling.

Import Speller.
Local Open Scope Z_scope.

Variables Dist Ctx Att Hidden : Type.
Variable net : network Dist Ctx Att Hidden.
Variable cfg : config.
Variable batch_size : nat.
Variables sos_row : Dist.
Variable h0 : Ctx.

Lemma run_same_feed
  (eos1 eos2 : Dist) (y1 y2 : option (list Dist)) (tfr1 tfr2 : Q)
  (draws1 draws2 : nat -> Q) :
  (forall t d,
     feed_tensor eos1 y1 (choose_feed y1 tfr1 draws1 t) d =
     feed_tensor eos2 y2 (choose_feed y2 tfr2 draws2 t) d) ->
  forall n,
    run net cfg batch_size sos_row eos1 h0 y1 tfr1 draws1 n =
    run net cfg batch_size sos_row eos2 h0 y2 tfr2 draws2 n.
Proof.
  intros Hfeed n. induction n as [| n IH]; [reflexivity |].
  cbn [run]. rewrite IH. unfold step.
  destruct (stopped _); [reflexivity |].
  unfold body.
  destruct (emit net _ _) as [[[d c] a] hid].
  rewrite Hfeed. reflexivity.
Qed.

(** X8.  Without targets the decoder draws nothing: the result of
    [forward] does not depend on the teacher-forcing ratio, on the values
    the random generator would return, or on the end-of-sequence row. *)
Theorem inference_ignores_sampling
  (eos1 eos2 : Dist) (tfr1 tfr2 : Q) (draws1 draws2 : nat -> Q) :
  forward net cfg batch_size sos_row eos1 h0 None tfr1 draws1 =
  forward net cfg batch_size sos_row eos2 h0 None tfr2 draws2.
Proof.
  unfold forward.
  rewrite (run_same_feed eos1 eos2 None None tfr1 tfr2 draws1 draws2);
    reflexivity.
Qed.

(** X9.  With targets, when every draw is at least the teacher-forcing
    ratio (in particular when the ratio is 0), no target is ever fed and
    [forward] returns what it returns without targets. *)
Theorem no_teacher_forcing_is_inference
  (eos_row : Dist) (ys : list Dist) (tfr : Q) (draws : nat -> Q) :
  (forall t, (tfr <= draws t)%Q) ->
  forward net cfg batch_size sos_row eos_row h0 (Some ys) tfr draws =
  forward net cfg batch_size sos_row eos_row h0 None tfr draws.
Proof.
  intros H. unfold forward.
  rewrite (run_same_feed eos_row eos_row (Some ys) None tfr tfr draws draws);
    [reflexivity |].
  intros t d. unfold choose_feed.
  rewrite (proj2 (sample_step_false tfr (draws t)) (H t)). reflexivity.
Qed.

End SpellerSampling.

Section SpellerMoreExamples.

Local Open Scope Z_scope.

Lemma no_teacher_forcing_is_inference_witness :
  (forall t : nat, (0 <= (fun _ => 1 # 2) t)%Q) /\
  Speller.forward (Scripted.net 2 Scripted.staggered) (Scripted.cfg 8) 2
    (Scripted.sos_row 2) (Scripted.eos_row 2) tt
    (Some [[5; 5]; [6; 6]]) 0%Q (fun _ => 1 # 2) =
  Speller.forward (Scripted.net 2 Scripted.staggered) (Scripted.cfg 8) 2
    (Scripted.sos_row 2) (Scripted.eos_row 2) tt None 0%Q (fun _ => 1 # 2).
Proof.
  assert (H : forall t : nat, (0 <= (fun _ => 1 # 2) t)%Q)
    by (intros t; unfold Qle; simpl; lia).
  split; [exact H |].
  apply (no_teacher_forcing_is_inference _ _ _ _
           (Scripted.net 2 Scripted.staggered) (Scripted.cfg 8) 2
           (Scripted.sos_row 2) tt (Scripted.eos_row 2) [[5; 5]; [6; 6]]
           0%Q (fun _ => 1 # 2) H).
Defined.

(** Sample 1 of the scripted run never emits [eos]. *)
Lemma unterminated_sample_runs_to_max_witness :
  (1 <= Speller.max_seq_lens (Scripted.cfg 8))%nat /\
  exists ys atts,
    Speller.forward (Scripted.net 2 Scripted.eager) (Scripted.cfg 8) 2
      (Scripted.sos_row 2) (Scripted.eos_row 2) tt None 1%Q (fun _ => 0%Q) =
      Some (ys, [3; 8], atts) /\
    length ys = 8%nat.
Proof.
  split; [simpl; lia |].
  destruct (unterminated_sample_runs_to_max _ _ _ _
              (Scripted.net 2 Scripted.eager) (Scripted.cfg 8) 2
              (Scripted.sos_row 2) (Scripted.eos_row 2) tt None 1%Q
              (fun _ => 0%Q)) as (ys & lens & atts & Hf & Hall);
    [simpl; lia |].
  exists ys, atts.
  assert (E : lens = [3; 8] /\ length ys = 8%nat).
  { vm_compute in Hf. injection Hf as <- <- _. split; reflexivity. }
  destruct E as [-> Hy]. split; [exact Hf | exact Hy].
Defined.

Lemma no_length_below_three_witness :
  (1 <= Speller.max_seq_lens (Scripted.cfg 8))%nat /\
  exists ys lens atts,
    Speller.forward (Scripted.net 2 Scripted.staggered) (Scripted.cfg 8) 2
      (Scripted.sos_row 2) (Scripted.eos_row 2) tt None 1%Q (fun _ => 0%Q) =
      Some (ys, lens, atts) /\
    (3 <= length ys)%nat.
Proof.
  split; [simpl; lia |].
  destruct (no_length_below_three _ _ _ _
              (Scripted.net 2 Scripted.staggered) (Scripted.cfg 8) 2
              (Scripted.sos_row 2) (Scripted.eos_row 2) tt None 1%Q
              (fun _ => 0%Q)) as (ys & lens & atts & Hf & _ & Hmin);
    [simpl; lia |].
  exists ys, lens, atts. split; [exact Hf |].
  apply (Hmin ltac:(lia)).
Defined.

End SpellerMoreExamples.

(** ** ListenAttendSpell: construction *)

Section ConstructionFacts.

Import ListenAttendSpellInit.
Local Open Scope Z_scope.

Lemma listener_init_las (listen_vec_size folding : Z) :
  Listener.init (Listener.las_config listen_vec_size folding) =
  Some (Listener.mk
          [ Listener.Conv2d (2 * folding) 64 (11, 3) (1, 1) (5, 1);
            Listener.LeakyReLU;
            Listener.AvgPool2d (3, 1) (2, 1) (1, 0);
            Listener.BatchNorm2d 64;
            Listener.Conv2d 64 128 (11, 3) (1, 1) (5, 1);
            Listener.LeakyReLU;
            Listener.AvgPool2d (3, 1) (2, 1) (1, 0);
            Listener.BatchNorm2d 128;
            Listener.Conv2d 128 256 (11, 3) (1, 1) (5, 1);
            Listener.LeakyReLU;
            Listener.AvgPool2d (3, 1) (2, 1) (1, 0);
            Listener.BatchNorm2d 256 ]
          4352 listen_vec_size true
          (Some (listen_vec_size, listen_vec_size))).
Proof. reflexivity. Qed.

(** X10.  [ListenAttendSpell.__init__] passes the assertions of the
    decoder for every non-negative number of base labels and fails for a
    negative one.  The model then has [sos] and [eos] as the two last
    labels of the widened vocabulary, a decoder capped at 256 steps that
    uses the same two labels, and an encoder whose recurrent input width is
    256 * 17; [blank] coincides with [sos] exactly when there is no base
    label. *)
Theorem las_init_reserved_labels
  (labels listen_vec_size heads folding : Z) :
  (init labels listen_vec_size heads folding = None <-> labels < 0) /\
  forall m, init labels listen_vec_size heads folding = Some m ->
    label_vec_size m = labels + 2 /\
    sos m = labels /\ eos m = labels + 1 /\ sos m <> eos m /\
    Speller.sos (spell m) = sos m /\ Speller.eos (spell m) = eos m /\
    Speller.label_vec_size (spell m) = label_vec_size m /\
    Speller.max_seq_lens (spell m) = 256%nat /\
    Listener.rnn_input_size (listen m) = 4352 /\
    (blank m = sos m <-> labels = 0).
Proof.
  unfold init, Speller.init.
  rewrite (listener_init_las listen_vec_size folding).
  replace (labels + 2 - 2) with labels by lia.
  replace (labels + 2 - 1) with (labels + 1) by lia.
  destruct (Z.leb_spec 0 labels) as [Hl | Hl].
  - destruct (Z.ltb_spec labels (labels + 2)); [| lia].
    destruct (Z.leb_spec 0 (labels + 1)); [| lia].
    destruct (Z.ltb_spec (labels + 1) (labels + 2)); [| lia].
    destruct (Z.eqb_spec labels (labels + 1)); [lia |].
    cbn [andb negb]. split; [split; [discriminate | lia] |].
    intros m Hm. injection Hm as <-.
    cbn [label_vec_size sos eos blank spell listen Speller.sos Speller.eos
         Speller.label_vec_size Speller.max_seq_lens Listener.rnn_input_size].
    repeat split; try reflexivity; try lia.
  - cbn [andb]. split; [split; [lia | reflexivity] | discriminate].
Qed.

End ConstructionFacts.

(** ** The validity mask and the attention weights *)

Section MaskFacts.

Import SpellerMask.
Import MaskedSoftmax.
Local Open Scope R_scope.

Local Abbreviation binary := (Forall (fun m : R => m = 0 \/ m = 1)).

Lemma mask_row_length (ts : nat) (l : Z) : length (mask_row ts l) = ts.
Proof.
  unfold mask_row. rewrite length_app, !repeat_length.
  assert (slice_start ts l <= ts)%nat
    by (unfold slice_start; destruct (Z.ltb_spec l 0); lia).
  lia.
Qed.

Lemma mask_row_binary (ts : nat) (l : Z) : binary (mask_row ts l).
Proof.
  unfold mask_row. apply Forall_app. split.
  - apply Forall_forall. intros x Hx. apply repeat_spec in Hx. now right.
  - apply Forall_forall. intros x Hx. apply repeat_spec in Hx. now left.
Qed.

Lemma mask_row_nth (ts : nat) (l : Z) (j : nat) :
  (0 <= l)%Z -> (j < ts)%nat ->
  nth j (mask_row ts l) 0 = if (Z.of_nat j <? l)%Z then 1 else 0.
Proof.
  intros Hl Hj. unfold mask_row, slice_start.
  destruct (Z.ltb_spec l 0); [lia |].
  destruct (Z.ltb_spec (Z.of_nat j) l).
  - rewrite app_nth1 by (rewrite repeat_length; lia).
    apply nth_repeat_lt. lia.
  - rewrite app_nth2 by (rewrite repeat_length; lia).
    rewrite repeat_length. apply nth_repeat.
Qed.

Lemma get_mask_some (bs ts : nat) (lens : list Z) :
  (bs <= length lens)%nat ->
  get_mask bs ts lens = Some (map (mask_row ts) (firstn bs lens)).
Proof.
  revert lens. induction bs as [| bs IH]; intros lens H; [reflexivity |].
  destruct lens as [| l lens]; [simpl in H; lia |].
  simpl in *. rewrite IH by lia. reflexivity.
Qed.

Lemma get_mask_none (bs ts : nat) (lens : list Z) :
  (length lens < bs)%nat -> get_mask bs ts lens = None.
Proof.
  revert lens. induction bs as [| bs IH]; intros lens H; [lia |].
  destruct lens as [| l lens]; [reflexivity |].
  simpl in *. rewrite IH by lia. reflexivity.
Qed.

(** X11.  [get_mask] raises exactly when there are fewer lengths than
    samples.  Otherwise it returns one row of [ts] zeros and ones per
    sample, and for a non-negative length the entry at position [j] is 1
    exactly when [j] is below the length of the sample. *)
Theorem get_mask_marks_valid_steps (bs ts : nat) (lens : list Z) :
  (get_mask bs ts lens = None <-> (length lens < bs)%nat) /\
  forall mask, get_mask bs ts lens = Some mask ->
    length mask = bs /\
    forall b, (b < bs)%nat ->
      length (nth b mask []) = ts /\
      binary (nth b mask []) /\
      ((0 <= nth b lens 0%Z)%Z ->
       forall j, (j < ts)%nat ->
         (nth j (nth b mask []) 0 = 1 <-> (Z.of_nat j < nth b lens 0%Z)%Z) /\
         (nth j (nth b mask []) 0 = 0 <-> (nth b lens 0%Z <= Z.of_nat j)%Z)).
Proof.
  split.
  - split.
    + intros H. destruct (Nat.lt_ge_cases (length lens) bs) as [Hlt | Hge];
        [exact Hlt |].
      rewrite get_mask_some in H by exact Hge. discriminate.
    + apply get_mask_none.
  - intros mask Hm.
    assert (Hge : (bs <= length lens)%nat).
    { destruct (Nat.lt_ge_cases (length lens) bs) as [Hlt | Hge];
        [| exact Hge].
      rewrite get_mask_none in Hm by exact Hlt. discriminate. }
    rewrite get_mask_some in Hm by exact Hge. injection Hm as <-.
    split; [rewrite length_map, length_firstn; lia |].
    intros b Hb.
    assert (Hrow : nth b (map (mask_row ts) (firstn bs lens)) [] =
                   mask_row ts (nth b lens 0%Z)).
    { rewrite (nth_indep _ [] (mask_row ts 0%Z))
        by (rewrite length_map, length_firstn; lia).
      rewrite (map_nth (mask_row ts)). f_equal.
      rewrite <- (firstn_skipn bs lens) at 2.
      rewrite app_nth1 by (rewrite length_firstn; lia). reflexivity. }
    rewrite Hrow.
    split; [apply mask_row_length |]. split; [apply mask_row_binary |].
    intros Hl j Hj. rewrite mask_row_nth by assumption.
    destruct (Z.ltb_spec (Z.of_nat j) (nth b lens 0%Z)); split; split;
      intros; try lia; try lra; reflexivity.
Qed.

(** X12.  Masked attention over the mask that [get_mask] builds: for a
    sample of non-negative length, the weight at every position from its
    length on is exactly 0 and the weight at every position below its
    length is positive. *)
Theorem attention_ignores_padding
  (bs ts : nat) (lens : list Z) (e mask out : tensor) (b j : nat) :
  get_mask bs ts lens = Some mask ->
  forward e (Some mask) = Some out ->
  length e = bs -> (b < bs)%nat -> length (nth b e []) = ts ->
  (0 <= nth b lens 0%Z)%Z -> (j < ts)%nat ->
  ((nth b lens 0%Z <= Z.of_nat j)%Z -> nth j (nth b out []) 0 = 0) /\
  ((Z.of_nat j < nth b lens 0%Z)%Z -> 0 < nth j (nth b out []) 0).
Proof.
  intros Hm Hf He Hb Hrow Hl Hj.
  assert (Hge : (bs <= length lens)%nat).
  { destruct (Nat.lt_ge_cases (length lens) bs) as [Hlt | Hge];
      [| exact Hge].
    rewrite get_mask_none in Hm by exact Hlt. discriminate. }
  rewrite get_mask_some in Hm by exact Hge. injection Hm as <-.
  destruct (tensor_max e) as [mx |] eqn:Hmx;
    [| unfold forward in Hf; rewrite Hmx in Hf; discriminate].
  assert (Hlen : length e = length (map (mask_row ts) (firstn bs lens)))
    by (rewrite length_map, length_firstn; lia).
  assert (Hmrow : nth b (map (mask_row ts) (firstn bs lens)) [] =
                  mask_row ts (nth b lens 0%Z)).
  { rewrite (nth_indep _ [] (mask_row ts 0%Z))
      by (rewrite length_map, length_firstn; lia).
    rewrite (map_nth (mask_row ts)). f_equal.
    rewrite <- (firstn_skipn bs lens) at 2.
    rewrite app_nth1 by (rewrite length_firstn; lia). reflexivity. }
  rewrite (forward_row e _ out mx b Hmx Hf Hlen);
    [| lia | rewrite Hmrow, mask_row_length; exact Hrow].
  rewrite Hmrow.
  set (m := mask_row ts (nth b lens 0%Z)).
  set (X := masked_exps mx (nth b e []) m).
  assert (Hml : length (nth b e []) = length m)
    by (unfold m; rewrite mask_row_length; exact Hrow).
  assert (HX : Forall (fun v => 0 <= v) X)
    by (apply masked_exps_nonneg, mask_row_binary).
  pose proof (sum_nonneg X HX) as HS. pose proof epsilon_pos as Hep.
  rewrite (nth_indep _ 0 ((fun v => v / (sum X + epsilon)) 0))
    by (rewrite length_map; unfold X;
        rewrite masked_exps_length by exact Hml; rewrite <- Hml; lia).
  rewrite (map_nth (fun v => v / (sum X + epsilon))).
  change (nth j X 0) with (nth j (masked_exps mx (nth b e []) m) 0).
  rewrite masked_exps_nth by (try exact Hml; lia).
  assert (Hmj : nth j m 0 = if (Z.of_nat j <? nth b lens 0%Z)%Z then 1 else 0)
    by (unfold m; now apply mask_row_nth).
  rewrite Hmj.
  split; intros Hc.
  - destruct (Z.ltb_spec (Z.of_nat j) (nth b lens 0%Z)); [lia |].
    unfold Rdiv. ring.
  - destruct (Z.ltb_spec (Z.of_nat j) (nth b lens 0%Z)); [| lia].
    apply Rdiv_lt_0_compat; [| lra].
    pose proof (exp_pos (nth j (nth b e []) 0 - mx)). lra.
Qed.

(** One sample of length 2 in a row of 3 frames. *)
Lemma attention_ignores_padding_witness :
  (get_mask 1 3 [2%Z] = Some [[1; 1; 0]] /\
   length [[1; 0; 2]] = 1%nat /\ (0 < 1)%nat /\
   length (nth 0 [[1; 0; 2]] []) = 3%nat /\
   (0 <= nth 0 [2%Z] 0%Z)%Z /\ (2 < 3)%nat /\
   (nth 0 [2%Z] 0%Z <= Z.of_nat 2)%Z) /\
  exists out,
    forward [[1; 0; 2]] (Some [[1; 1; 0]]) = Some out /\
    nth 2 (nth 0 out []) 0 = 0.
Proof.
  assert (Hm : get_mask 1 3 [2%Z] = Some [[1; 1; 0]]) by reflexivity.
  assert (Hl : (0 <= nth 0 [2%Z] 0%Z)%Z) by (simpl; lia).
  assert (Hj : (2 < 3)%nat) by lia.
  assert (Hc : (nth 0 [2%Z] 0%Z <= Z.of_nat 2)%Z) by (simpl; lia).
  split; [repeat split; try reflexivity; try assumption; lia |].
  eexists. split; [reflexivity |].
  apply (attention_ignores_padding 1 3 [2%Z] [[1; 0; 2]] [[1; 1; 0]] _ 0 2
           Hm eq_refl eq_refl (Nat.lt_0_succ 0) eq_refl Hl Hj).
  exact Hc.
Defined.

End MaskFacts.

(** ** MaskedSoftmax: normalisation and stability *)

Section SoftmaxFacts.

Import MaskedSoftmax.
Local Open Scope R_scope.

Local Abbreviation binary := (Forall (fun m : R => m = 0 \/ m = 1)).

Lemma sum_exp_pos (row : list R) : row <> [] -> 0 < sum (map exp row).
Proof.
  destruct row as [| a row]; [congruence |]. intros _. simpl.
  assert (0 <= sum (map exp row)).
  { apply sum_nonneg, Forall_forall. intros x Hx.
    apply in_map_iff in Hx as (v & <- & _). apply Rlt_le, exp_pos. }
  pose proof (exp_pos a). change (fold_right Rplus 0 (map exp row))
    with (sum (map exp row)). lra.
Qed.

(** X13.  Without a mask, [forward] is the plain softmax of every row: the
    weights of a non-empty row are positive, at most 1, and sum to
    exactly 1. *)
Theorem unmasked_softmax_normalises (e out : tensor) (i : nat) :
  forward e None = Some out -> (i < length e)%nat -> nth i e [] <> [] ->
  length (nth i out []) = length (nth i e []) /\
  sum (nth i out []) = 1 /\
  forall j, (j < length (nth i e []))%nat ->
    0 < nth j (nth i out []) 0 <= 1.
Proof.
  intros Hf Hi Hne. injection Hf as <-.
  rewrite (nth_indep _ [] (softmax [])) by (rewrite length_map; exact Hi).
  rewrite (map_nth softmax). set (row := nth i e []) in *.
  pose proof (sum_exp_pos row Hne) as HT.
  unfold softmax. set (T := sum (map exp row)) in *.
  assert (Hsum : sum (map (fun v => exp v / T) row) = 1).
  { rewrite <- (map_map exp (fun x => x / T)), sum_scale.
    fold T. field. lra. }
  split; [apply length_map |]. split; [exact Hsum |].
  intros j Hj.
  assert (Hnn : Forall (fun v => 0 <= v) (map (fun v => exp v / T) row)).
  { apply Forall_forall. intros x Hx. apply in_map_iff in Hx as (v & <- & _).
    apply Rlt_le, Rdiv_lt_0_compat; [apply exp_pos | exact HT]. }
  pose proof (sum_ge_entry _ j Hnn ltac:(rewrite length_map; exact Hj)) as Hle.
  rewrite Hsum in Hle. split; [| exact Hle].
  rewrite (nth_indep _ 0 ((fun v => exp v / T) 0))
    by (rewrite length_map; exact Hj).
  rewrite (map_nth (fun v => exp v / T)).
  apply Rdiv_lt_0_compat; [apply exp_pos | exact HT].
Qed.

Lemma unmasked_softmax_normalises_witness :
  (forward [[1; 0; 2]] None = Some (map softmax [[1; 0; 2]]) /\
   (0 < length [[1; 0; 2]])%nat /\ nth 0 [[1; 0; 2]] [] <> []) /\
  sum (softmax [1; 0; 2]) = 1.
Proof.
  assert (H : nth 0 [[1; 0; 2]] [] <> []) by (simpl; discriminate).
  split; [repeat split; [simpl; lia | exact H] |].
  apply (unmasked_softmax_normalises [[1; 0; 2]] _ 0 eq_refl
           (Nat.lt_0_succ 0) H).
Defined.

Lemma fold_max_ge (l : list R) (a : R) :
  a <= fold_left Rmax l a /\
  (forall v, In v l -> v <= fold_left Rmax l a) /\
  In (fold_left Rmax l a) (a :: l).
Proof.
  revert a. induction l as [| b l IH]; intros a; simpl.
  - split; [lra |]. split; [intros v [] | now left].
  - destruct (IH (Rmax a b)) as (H1 & H2 & H3).
    pose proof (Rmax_l a b). pose proof (Rmax_r a b).
    split; [lra |]. split.
    + intros v [<- | Hv]; [lra | now apply H2].
    + destruct H3 as [H3 | H3]; [| now right; right].
      rewrite <- H3. unfold Rmax. destruct (Rle_dec a b); auto.
Qed.

Lemma tensor_max_spec (e : tensor) (mx : R) :
  tensor_max e = Some mx ->
  In mx (concat e) /\ forall v, In v (concat e) -> v <= mx.
Proof.
  unfold tensor_max, max_entries.
  destruct (concat e) as [| a l]; [discriminate |].
  intros H. injection H as <-.
  destruct (fold_max_ge l a) as (H1 & H2 & H3).
  split; [exact H3 |]. intros v [<- | Hv]; [exact H1 | now apply H2].
Qed.

Lemma in_concat_nth (e : tensor) (i j : nat) :
  (i < length e)%nat -> (j < length (nth i e []))%nat ->
  In (nth j (nth i e []) 0) (concat e).
Proof.
  intros Hi Hj. apply in_concat. exists (nth i e []).
  split; apply nth_In; assumption.
Qed.

Lemma broadcast_map2_some {A B C : Type} (f : A -> B -> C)
  (a : list A) (b : list B) :
  compatible (length a) (length b) ->
  exists r, broadcast_map2 f a b = Some r /\
            length r = broadcast_size (length a) (length b).
Proof.
  intros Hc. unfold broadcast_map2, broadcast_size.
  destruct (Nat.eqb_spec (length a) (length b)) as [E | E].
  - eexists. split; [reflexivity |].
    rewrite map2_length by exact E.
    destruct (Nat.eqb_spec (length a) 1); lia.
  - destruct Hc as [Hc | [Hc | Hc]]; [contradiction | |].
    + destruct a as [| x [| x' a]]; try discriminate.
      eexists. split; [reflexivity |]. now rewrite length_map.
    + destruct b as [| y [| y' b]]; try discriminate.
      destruct a as [| x [| x' a]].
      * eexists. split; reflexivity.
      * simpl in E. lia.
      * eexists. split; [reflexivity |]. now rewrite length_map.
Qed.

Lemma broadcast_map2_none {A B C : Type} (f : A -> B -> C)
  (a : list A) (b : list B) :
  ~ compatible (length a) (length b) -> broadcast_map2 f a b = None.
Proof.
  intros Hc. unfold broadcast_map2, compatible in *.
  destruct (Nat.eqb_spec (length a) (length b)) as [E | E]; [tauto |].
  destruct a as [| x [| x' a]]; destruct b as [| y [| y' b]];
    try reflexivity; simpl in Hc; exfalso; apply Hc; auto.
Qed.

Lemma Forall_map2 {A B C : Type} (P : A -> Prop) (Q : B -> Prop)
  (R : C -> Prop) (f : A -> B -> C) (a : list A) (b : list B) :
  (forall x y, P x -> Q y -> R (f x y)) ->
  Forall P a -> Forall Q b -> Forall R (Torch.map2 f a b).
Proof.
  intros Hf Ha. revert b. induction Ha as [| x a Hx _ IH]; intros b Hb.
  - constructor.
  - destruct Hb as [| y b Hy Hb]; constructor; auto.
Qed.

Lemma broadcast_map2_cases {A B C : Type} (f : A -> B -> C)
  (a : list A) (b : list B) (r : list C) :
  broadcast_map2 f a b = Some r ->
  r = Torch.map2 f a b \/
  (exists x, a = [x] /\ r = map (f x) b) \/
  (exists y, b = [y] /\ r = map (fun x => f x y) a).
Proof.
  unfold broadcast_map2. destruct (length a =? length b)%nat.
  - intros H. left. now injection H.
  - destruct a as [| x [| x' a]]; destruct b as [| y [| y' b]];
      intros H; cbv beta iota in H; try discriminate;
      first [ right; left; exists x; split;
              [reflexivity | injection H as <-; reflexivity]
            | right; right; exists y; split;
              [reflexivity | injection H as <-; reflexivity] ].
Qed.

Lemma broadcast_map2_Forall {A B C : Type} (P : A -> Prop) (Q : B -> Prop)
  (R : C -> Prop) (f : A -> B -> C) (a : list A) (b : list B) (r : list C) :
  (forall x y, P x -> Q y -> R (f x y)) ->
  Forall P a -> Forall Q b -> broadcast_map2 f a b = Some r -> Forall R r.
Proof.
  intros Hf Ha Hb H.
  destruct (broadcast_map2_cases f a b r H)
    as [-> | [(x & -> & ->) | (y & -> & ->)]].
  - now apply (Forall_map2 P Q).
  - apply Forall_map. eapply Forall_impl; [| exact Hb].
    intros z Hz. apply Hf; [now inversion Ha | exact Hz].
  - apply Forall_map. eapply Forall_impl; [| exact Ha].
    intros z Hz. apply Hf; [exact Hz | now inversion Hb].
Qed.

Lemma all_some_Forall {A : Type} (P : A -> Prop) (l : list (option A)) :
  Forall (fun o => exists r, o = Some r /\ P r) l ->
  exists rs, all_some l = Some rs /\ length rs = length l /\ Forall P rs.
Proof.
  induction 1 as [| o l (r & -> & Hr) _ (rs & E & Hl & Hrs)].
  - exists []. repeat split. constructor.
  - exists (r :: rs). cbn [all_some]. rewrite E.
    repeat split; [simpl; now rewrite Hl | now constructor].
Qed.

Lemma all_some_none {A : Type} (l : list (option A)) :
  In None l -> all_some l = None.
Proof.
  induction l as [| [a |] l IH]; intros H; [contradiction | | reflexivity].
  cbn [all_some]. rewrite IH; [reflexivity |].
  destruct H as [H | H]; [discriminate | exact H].
Qed.

Lemma compatible_dec (a b : nat) : {compatible a b} + {~ compatible a b}.
Proof.
  unfold compatible.
  destruct (Nat.eq_dec a b); [left; auto |].
  destruct (Nat.eq_dec a 1); [left; auto |].
  destruct (Nat.eq_dec b 1); [left; auto |].
  right. tauto.
Qed.

Lemma broadcast_size_pos (a b : nat) :
  (1 <= a)%nat -> (1 <= b)%nat -> (1 <= broadcast_size a b)%nat.
Proof. unfold broadcast_size. destruct (a =? 1)%nat; lia. Qed.

Lemma mul_shape (a b : tensor) (B T B' T' : nat) :
  has_shape B T a -> has_shape B' T' b -> (1 <= B)%nat -> (1 <= B')%nat ->
  (compatible B B' /\ compatible T T' ->
   exists r, mul a b = Some r /\
             has_shape (broadcast_size B B') (broadcast_size T T') r) /\
  (~ (compatible B B' /\ compatible T T') -> mul a b = None).
Proof.
  intros [Ha Hra] [Hb Hrb] HB HB'. unfold mul. subst B B'.
  destruct (compatible_dec (length a) (length b)) as [Hc | Hc].
  - destruct (broadcast_map2_some (broadcast_map2 Rmult) a b Hc)
      as (rows & E & Hl).
    rewrite E.
    destruct (compatible_dec T T') as [Hct | Hct].
    + split; [intros _ | tauto].
      assert (Hrows : Forall (fun o => exists r, o = Some r /\
                                length r = broadcast_size T T') rows).
      { refine (broadcast_map2_Forall _ _ _ _ _ _ _ _ Hra Hrb E).
        intros x y Hx Hy. cbv beta in *. subst T T'.
        now apply broadcast_map2_some. }
      destruct (all_some_Forall _ _ Hrows) as (rs & Ers & Hlr & Hf).
      exists rs. split; [exact Ers |]. split; [lia | exact Hf].
    + split; [tauto | intros _].
      assert (Hrows : Forall (fun o => o = None) rows).
      { refine (broadcast_map2_Forall _ _ _ _ _ _ _ _ Hra Hrb E).
        intros x y Hx Hy. cbv beta in *. subst T T'.
        now apply broadcast_map2_none. }
      apply all_some_none.
      pose proof (broadcast_size_pos _ _ HB HB').
      destruct rows as [| o rows]; [simpl in Hl; lia |].
      inversion Hrows; subst. now left.
  - split; [tauto | intros _].
    now rewrite broadcast_map2_none.
Qed.

Lemma has_shape_map (f : R -> R) (B T : nat) (e : tensor) :
  has_shape B T e -> has_shape B T (map (map f) e).
Proof.
  intros [Hl Hr]. split; [now rewrite length_map |].
  apply Forall_map. eapply Forall_impl; [| exact Hr].
  intros r Hlr. now rewrite length_map.
Qed.

Lemma has_shape_row (B T : nat) (e : tensor) (i : nat) :
  has_shape B T e -> (i < B)%nat -> length (nth i e []) = T.
Proof.
  intros [Hl Hr] Hi. rewrite Forall_forall in Hr.
  apply Hr, nth_In. lia.
Qed.

Lemma concat_nil_shape (B T : nat) (e : tensor) :
  has_shape B T e -> (1 <= B)%nat -> (concat e = [] <-> T = 0%nat).
Proof.
  intros [Hl Hr] HB. destruct e as [| r e]; [simpl in Hl; lia |].
  inversion Hr as [| ? ? Hlr Hre]; subst. split.
  - intros H. simpl in H. apply app_eq_nil in H as [-> _]. reflexivity.
  - intros H0.
    assert (Hall : Forall (fun r' => r' = []) (r :: e)).
    { constructor; [now apply length_zero_iff_nil |].
      eapply Forall_impl; [| exact Hre].
      intros r' Hr'. apply length_zero_iff_nil. cbv beta in Hr'. lia. }
    clear -Hall. induction Hall as [| r' l -> _ IH]; [reflexivity |].
    exact IH.
Qed.

Lemma normalise_shape (B T : nat) (exps : tensor) :
  has_shape B T exps ->
  has_shape B T
    (Torch.map2 (fun row s => map (fun v => v / s) row) exps
       (map (fun row => sum row + epsilon) exps)).
Proof.
  intros [Hl Hr]. split.
  - rewrite map2_length; [exact Hl | now rewrite length_map].
  - apply (Forall_map2 (fun r => length r = T) (fun _ => True)).
    + intros x y Hx _. now rewrite length_map.
    + exact Hr.
    + apply Forall_forall. trivial.
Qed.

(** X14.  With a mask, on a score tensor of shape (B, T) and a mask of
    shape (B', T') with at least one row each, [forward] raises exactly
    when the score tensor has no entry (T = 0) or the two shapes do not
    broadcast.  Otherwise the result has the broadcast shape; the value
    subtracted is an entry of the tensor and at least every entry, so
    every exponential that is computed lies in (0, 1] (no overflow); and
    for a mask of zeros and ones of the same shape the divisor of every
    row is at least [epsilon] and every weight lies in [[0, 1)]. *)
Theorem masked_softmax_is_stable (e mask : tensor) (B T B' T' : nat) :
  has_shape B T e -> has_shape B' T' mask ->
  (1 <= B)%nat -> (1 <= B')%nat ->
  (forward e (Some mask) = None <->
   T = 0%nat \/ ~ (compatible B B' /\ compatible T T')) /\
  forall out, forward e (Some mask) = Some out ->
    has_shape (broadcast_size B B') (broadcast_size T T') out /\
    exists mx,
      tensor_max e = Some mx /\ In mx (concat e) /\
      (forall i j, (i < B)%nat -> (j < T)%nat ->
         0 < exp (nth j (nth i e []) 0 - mx) <= 1) /\
      (B = B' -> T = T' ->
       forall i, (i < B)%nat -> binary (nth i mask []) ->
         epsilon <= sum (masked_exps mx (nth i e []) (nth i mask []))
                    + epsilon /\
         forall j, (j < T)%nat -> 0 <= nth j (nth i out []) 0 < 1).
Proof.
  intros He Hm HB HB'.
  pose proof (concat_nil_shape B T e He HB) as Hnil.
  split.
  - unfold forward.
    destruct (tensor_max e) as [mx |] eqn:Hmx.
    + assert (HT : T <> 0%nat).
      { intros H0. apply Hnil in H0. unfold tensor_max in Hmx.
        rewrite H0 in Hmx. discriminate. }
      destruct (mul_shape
                  (map (map exp) (map (map (fun v => v - mx)) e)) mask
                  B T B' T') as [Hyes Hno];
        [now do 2 apply has_shape_map | assumption | assumption
        | assumption |].
      destruct (compatible_dec B B') as [Hc1 | Hc1];
        [destruct (compatible_dec T T') as [Hc2 | Hc2] |].
      * destruct (Hyes (conj Hc1 Hc2)) as (r & -> & _).
        split; [discriminate | intros [H | H]; tauto].
      * rewrite Hno by tauto. split; [intros _; right; tauto | reflexivity].
      * rewrite Hno by tauto. split; [intros _; right; tauto | reflexivity].
    + split; [intros _ | reflexivity]. left. apply Hnil.
      unfold tensor_max, max_entries in Hmx.
      destruct (concat e); [reflexivity | discriminate].
  - intros out Hf.
    destruct (tensor_max e) as [mx |] eqn:Hmx;
      [| unfold forward in Hf; rewrite Hmx in Hf; discriminate].
    destruct (tensor_max_spec e mx Hmx) as [Hin Hub].
    split.
    + unfold forward in Hf. rewrite Hmx in Hf.
      destruct (mul_shape
                  (map (map exp) (map (map (fun v => v - mx)) e)) mask
                  B T B' T') as [Hyes Hno];
        [now do 2 apply has_shape_map | assumption | assumption
        | assumption |].
      destruct (compatible_dec B B') as [Hc1 | Hc1];
        [destruct (compatible_dec T T') as [Hc2 | Hc2] |];
        try (rewrite Hno in Hf by tauto; discriminate).
      destruct (Hyes (conj Hc1 Hc2)) as (r & Er & Hr).
      rewrite Er in Hf. injection Hf as <-. now apply normalise_shape.
    + exists mx. split; [reflexivity |]. split; [exact Hin |]. split.
      * intros i j Hi Hj. split; [apply exp_pos |].
        assert (Hle : nth j (nth i e []) 0 <= mx).
        { apply Hub, in_concat_nth; [destruct He; lia |].
          rewrite (has_shape_row B T e i He Hi). exact Hj. }
        rewrite <- exp_0.
        destruct (Req_dec (nth j (nth i e []) 0 - mx) 0) as [-> | Hne];
          [lra |].
        apply Rlt_le, exp_increasing. lra.
      * intros <- <- i Hi Hbin.
        assert (Hlen : length e = length mask)
          by (destruct He, Hm; lia).
        assert (Hrl : length (nth i e []) = length (nth i mask [])).
        { rewrite (has_shape_row B T e i He Hi).
          now rewrite (has_shape_row B T mask i Hm Hi). }
        assert (Hi' : (i < length e)%nat) by (destruct He; lia).
        set (X := masked_exps mx (nth i e []) (nth i mask [])).
        assert (HX : Forall (fun v => 0 <= v) X)
          by (now apply masked_exps_nonneg).
        pose proof (sum_nonneg X HX) as HS. pose proof epsilon_pos as Hep.
        split; [lra |].
        intros j Hj.
        rewrite (forward_row e mask out mx i Hmx Hf Hlen Hi' Hrl). fold X.
        assert (HjX : (j < length X)%nat).
        { unfold X. rewrite masked_exps_length by exact Hrl.
          rewrite <- Hrl, (has_shape_row B T e i He Hi). exact Hj. }
        rewrite (nth_indep _ 0 ((fun v => v / (sum X + epsilon)) 0))
          by (rewrite length_map; exact HjX).
        rewrite (map_nth (fun v => v / (sum X + epsilon))).
        pose proof (sum_ge_entry X j HX HjX) as Hle.
        assert (H0 : 0 <= nth j X 0).
        { rewrite Forall_forall in HX. apply HX, nth_In. exact HjX. }
        split.
        -- apply Rmult_le_pos; [exact H0 |].
           apply Rlt_le, Rinv_0_lt_compat. lra.
        -- apply (Rmult_lt_reg_r (sum X + epsilon)); [lra |].
           unfold Rdiv. rewrite Rmult_assoc, Rinv_l by lra. lra.
Qed.

(** A mask of two steps against scores of three steps does not broadcast;
    a mask of one step does. *)
Lemma masked_softmax_is_stable_witness :
  (has_shape 1 3 [[1; 0; 2]] /\ has_shape 1 2 [[1; 1]] /\
   has_shape 1 1 [[1]]) /\
  forward [[1; 0; 2]] (Some [[1; 1]]) = None /\
  forward [[1; 0; 2]] (Some [[1]]) <> None.
Proof.
  assert (H3 : has_shape 1 3 [[1; 0; 2]])
    by (split; [reflexivity | repeat constructor]).
  assert (H2 : has_shape 1 2 [[1; 1]])
    by (split; [reflexivity | repeat constructor]).
  assert (H1 : has_shape 1 1 [[1]])
    by (split; [reflexivity | repeat constructor]).
  split; [exact (conj H3 (conj H2 H1)) |]. split.
  - apply (masked_softmax_is_stable [[1; 0; 2]] [[1; 1]] 1 3 1 2 H3 H2
             (le_n 1) (le_n 1)).
    right. unfold compatible. intros [_ [H | [H | H]]]; discriminate.
  - intros Hn.
    apply (masked_softmax_is_stable [[1; 0; 2]] [[1]] 1 3 1 1 H3 H1
             (le_n 1) (le_n 1)) in Hn.
    unfold compatible in Hn. destruct Hn as [Hn | Hn]; [discriminate |].
    apply Hn. split; [left | right; right]; reflexivity.
Defined.

End SoftmaxFacts.

(** ** LogWithLabelSmoothing on any distribution *)

Section SmoothingFacts.

Import LogWithLabelSmoothing.
Local Open Scope R_scope.

Lemma sum_affine (a c : R) (x : list R) :
  MaskedSoftmax.sum (map (fun p => a * p + c) x) =
  a * MaskedSoftmax.sum x + INR (length x) * c.
Proof.
  induction x as [| p x IH]; [simpl; ring |].
  cbn [map MaskedSoftmax.sum fold_right length].
  change (fold_right Rplus 0 (map (fun p => a * p + c) x))
    with (MaskedSoftmax.sum (map (fun p => a * p + c) x)).
  change (fold_right Rplus 0 x) with (MaskedSoftmax.sum x).
  rewrite IH, S_INR. ring.
Qed.

(** X15.  Label smoothing keeps a distribution a distribution: for every
    floor in (0, 1] and every vector of non-negative entries summing to 1,
    each smoothed probability is at least [floor / size] (so its logarithm
    is taken of a positive number) and the exponentials of the outputs sum
    to 1. *)
Theorem smoothing_preserves_normalisation (floor : R) (x : list R) :
  0 < floor <= 1 -> x <> [] ->
  Forall (fun p => 0 <= p) x -> MaskedSoftmax.sum x = 1 ->
  (forall j, (j < length x)%nat ->
     ln (floor / INR (length x)) <= nth j (forward floor x) 0) /\
  MaskedSoftmax.sum (map exp (forward floor x)) = 1.
Proof.
  intros Hf Hne Hnn Hsum.
  assert (HV : 0 < INR (length x)).
  { apply lt_0_INR. destruct x; [congruence | simpl; lia]. }
  assert (Hc : 0 < floor / INR (length x))
    by (apply Rdiv_lt_0_compat; lra).
  set (c := floor / INR (length x)) in *.
  assert (Hpos : forall p, 0 <= p -> c <= (1 - floor) * p + c).
  { intros p Hp. assert (0 <= (1 - floor) * p)
      by (apply Rmult_le_pos; lra). lra. }
  split.
  - intros j Hj. unfold forward. fold c.
    rewrite (nth_indep _ 0 ((fun p => ln ((1 - floor) * p + c)) 0))
      by (rewrite length_map; exact Hj).
    rewrite (map_nth (fun p => ln ((1 - floor) * p + c))).
    assert (Hp : 0 <= nth j x 0).
    { rewrite Forall_forall in Hnn. apply Hnn, nth_In. exact Hj. }
    specialize (Hpos _ Hp).
    destruct (Req_dec c ((1 - floor) * nth j x 0 + c)) as [<- | Hd];
      [lra |].
    apply Rlt_le, ln_increasing; lra.
  - unfold forward. fold c. rewrite map_map.
    rewrite (map_ext_in _ (fun p => (1 - floor) * p + c)).
    + rewrite sum_affine, Hsum. unfold c. field. lra.
    + intros p Hp. rewrite Forall_forall in Hnn.
      apply exp_ln. specialize (Hpos p (Hnn p Hp)). lra.
Qed.

Lemma smoothing_preserves_normalisation_witness :
  (0 < 1 / 100 <= 1 /\ [1 / 4; 3 / 4; 0] <> [] /\
   Forall (fun p => 0 <= p) [1 / 4; 3 / 4; 0] /\
   MaskedSoftmax.sum [1 / 4; 3 / 4; 0] = 1) /\
  MaskedSoftmax.sum (map exp (forward (1 / 100) [1 / 4; 3 / 4; 0])) = 1.
Proof.
  assert (H1 : 0 < 1 / 100 <= 1) by lra.
  assert (H2 : [1 / 4; 3 / 4; 0] <> []) by discriminate.
  assert (H3 : Forall (fun p => 0 <= p) [1 / 4; 3 / 4; 0])
    by (repeat (apply Forall_cons; [lra |]); apply Forall_nil).
  assert (H4 : MaskedSoftmax.sum [1 / 4; 3 / 4; 0] = 1) by (simpl; lra).
  split; [repeat split; try assumption; lra |].
  apply (smoothing_preserves_normalisation (1 / 100) _ H1 H2 H3 H4).
Defined.

End SmoothingFacts.

(** ** ListenAttendSpell: the targets of the training path *)

Section TrainTargetsFacts.

Import TrainTargets.
Local Open Scope Z_scope.

Lemma split_some (y sizes : list Z) (chunks : list (list Z)) :
  split y sizes = Some chunks ->
  concat chunks = y /\
  map (fun c => Z.of_nat (length c)) chunks = sizes.
Proof.
  revert y chunks. induction sizes as [| n sizes IH]; intros y chunks H.
  - destruct y; [| discriminate]. injection H as <-. split; reflexivity.
  - cbn [split] in H.
    destruct (Z.ltb_spec n 0); [discriminate |].
    destruct (Z.ltb_spec (Z.of_nat (length y)) n); [discriminate |].
    cbn [orb] in H.
    destruct (split (skipn (Z.to_nat n) y) sizes) as [cs |] eqn:E;
      [| discriminate].
    injection H as <-. destruct (IH _ _ E) as [Hc Hs].
    split.
    + cbn [concat]. rewrite Hc. apply firstn_skipn.
    + cbn [map]. rewrite Hs. f_equal.
      rewrite length_firstn. lia.
Qed.

Lemma split_of_concat (chunks : list (list Z)) :
  split (concat chunks) (map (fun c => Z.of_nat (length c)) chunks) =
  Some chunks.
Proof.
  induction chunks as [| c chunks IH]; [reflexivity |].
  cbn [concat map split].
  destruct (Z.ltb_spec (Z.of_nat (length c)) 0); [lia |].
  destruct (Z.ltb_spec (Z.of_nat (length (c ++ concat chunks)))
              (Z.of_nat (length c)));
    [rewrite length_app in *; lia |].
  cbn [orb]. rewrite Nat2Z.id.
  rewrite skipn_app, skipn_all, Nat.sub_diag, firstn_app, firstn_all,
    Nat.sub_diag. cbn [skipn firstn app].
  rewrite IH, app_nil_r. reflexivity.
Qed.

Local Abbreviation total := (fold_right Z.add 0).

Lemma total_lengths (chunks : list (list Z)) :
  total (map (fun c => Z.of_nat (length c)) chunks) =
  Z.of_nat (length (concat chunks)).
Proof.
  induction chunks as [| c chunks IH]; [reflexivity |].
  cbn [map fold_right concat]. rewrite IH, length_app. lia.
Qed.

Lemma split_ok_iff (y sizes : list Z) :
  split y sizes <> None <->
  Forall (fun n => 0 <= n) sizes /\ total sizes = Z.of_nat (length y).
Proof.
  split.
  - intros H. destruct (split y sizes) as [chunks |] eqn:E; [| congruence].
    destruct (split_some _ _ _ E) as [Hc Hs]. subst y sizes.
    split; [| apply total_lengths].
    apply Forall_forall. intros n Hn.
    apply in_map_iff in Hn as (c & <- & _). lia.
  - intros [Hnn Hsum]. revert y Hsum.
    induction Hnn as [| n sizes Hn Hnn IH]; intros y Hsum.
    + destruct y; [discriminate | simpl in Hsum; lia].
    + cbn [fold_right] in Hsum. cbn [split].
      assert (Hts : 0 <= total sizes).
      { clear -Hnn. induction Hnn; simpl; lia. }
      destruct (Z.ltb_spec n 0); [lia |].
      destruct (Z.ltb_spec (Z.of_nat (length y)) n); [lia |].
      cbn [orb].
      specialize (IH (skipn (Z.to_nat n) y)).
      rewrite length_skipn in IH.
      destruct (split (skipn (Z.to_nat n) y) sizes);
        [discriminate | apply IH; lia].
Qed.

(** X16.  The targets can be built exactly when the batch is not empty,
    every label length is non-negative, the label lengths add up to the
    length of the concatenated labels, and the mask has one entry per
    sample; in every other case lines 421-425 of [_train_forward] raise.
    The label chunks then have the given lengths and concatenate back to
    [y]. *)
Theorem targets_built_iff
  (eos blank : Z) (y y_seq_lens : list Z) (bi : list bool) :
  (make_targets eos blank y y_seq_lens bi <> None <->
   y_seq_lens <> [] /\ Forall (fun n => 0 <= n) y_seq_lens /\
   total y_seq_lens = Z.of_nat (length y) /\
   length bi = length y_seq_lens) /\
  (forall chunks, split y y_seq_lens = Some chunks ->
     concat chunks = y /\
     map (fun c => Z.of_nat (length c)) chunks = y_seq_lens).
Proof.
  split; [| apply split_some].
  unfold make_targets. split.
  - intros H.
    destruct (split y y_seq_lens) as [chunks |] eqn:Es; [| congruence].
    destruct (split_some _ _ _ Es) as [_ Hsz].
    assert (Hok : split y y_seq_lens <> None) by congruence.
    apply split_ok_iff in Hok as [Hnn Hsum].
    unfold pad_sequence in H.
    destruct chunks as [| c chunks]; [contradiction H; reflexivity |].
    cbn [map] in H.
    destruct (Nat.eqb_spec (length bi) (length y_seq_lens)) as [El | El];
      [| contradiction H; reflexivity].
    repeat split; try assumption.
    rewrite <- Hsz. discriminate.
  - intros (Hne & Hnn & Hsum & Hl).
    assert (Hok : split y y_seq_lens <> None)
      by (apply split_ok_iff; now split).
    destruct (split y y_seq_lens) as [chunks |] eqn:Es; [| congruence].
    destruct (split_some _ _ _ Es) as [_ Hsz].
    destruct chunks as [| c chunks]; [simpl in Hsz; congruence |].
    cbn [map pad_sequence]. rewrite Hl, Nat.eqb_refl. discriminate.
Qed.

Lemma masked_select_map {A B : Type} (f : A -> B) (bi : list bool)
  (l : list A) :
  Torch.masked_select bi (map f l) = map f (Torch.masked_select bi l).
Proof.
  revert l. induction bi as [| m bi IH]; intros [| a l]; try reflexivity.
  cbn [map Torch.masked_select]. destruct m; cbn [map]; rewrite IH;
    reflexivity.
Qed.

Lemma masked_select_incl {A : Type} (bi : list bool) (l : list A) (a : A) :
  In a (Torch.masked_select bi l) -> In a l.
Proof.
  revert l. induction bi as [| m bi IH]; intros [| a' l] H;
    try (simpl in H; contradiction).
  cbn [Torch.masked_select] in H. destruct m.
  - destruct H as [-> | H]; [now left | right; now apply IH].
  - right. now apply IH.
Qed.

Lemma list_max_ge (l : list nat) (n : nat) :
  In n l -> (n <= list_max l)%nat.
Proof.
  intros H. pose proof (proj1 (list_max_le l (list_max l)) (le_n _)) as Hall.
  rewrite Forall_forall in Hall. now apply Hall.
Qed.

Lemma list_max_shift (l : list nat) (k : nat) :
  l <> [] -> list_max (map (fun n => n + k)%nat l) = (list_max l + k)%nat.
Proof.
  induction l as [| a l IH]; [congruence |]. intros _.
  destruct l as [| b l]; [simpl; lia |].
  change (list_max (map (fun n => (n + k)%nat) (a :: b :: l)))
    with (Nat.max (a + k) (list_max (map (fun n => (n + k)%nat) (b :: l)))).
  rewrite IH by discriminate.
  change (list_max (a :: b :: l)) with (Nat.max a (list_max (b :: l))).
  lia.
Qed.

(** X17.  When they can be built, the targets of the retained samples are
    the label chunks of those samples, each followed by three
    end-of-sequence labels and then by blanks up to a common width; the
    width is the longest label chunk of the whole batch, dropped samples
    included, plus 3; and each target length is the chunk length plus
    3. *)
Theorem targets_are_labels_eos_blanks
  (eos blank : Z) (y y_seq_lens : list Z) (bi : list bool)
  (ys : padded) (ys_seq_lens : list Z) :
  make_targets eos blank y y_seq_lens bi = Some (ys, ys_seq_lens) ->
  exists chunks,
    split y y_seq_lens = Some chunks /\
    width ys = (list_max (map (@length Z) chunks) + 3)%nat /\
    rows ys =
      map (fun c => c ++ repeat eos 3
                      ++ repeat blank
                           (list_max (map (@length Z) chunks) - length c))
        (Torch.masked_select bi chunks) /\
    ys_seq_lens =
      map (fun c => Z.of_nat (length c) + 3) (Torch.masked_select bi chunks) /\
    Forall (fun r => length r = width ys) (rows ys).
Proof.
  unfold make_targets. intros H.
  destruct (split y y_seq_lens) as [chunks |] eqn:Es; [| discriminate].
  exists chunks. split; [reflexivity |].
  destruct (split_some _ _ _ Es) as [_ Hsz].
  assert (Hne : chunks <> []).
  { intros ->. discriminate H. }
  unfold pad_sequence in H.
  destruct (map (fun yb => yb ++ repeat eos Speller.num_eos) chunks)
    as [| r0 rs] eqn:Em; [discriminate |].
  rewrite <- Em in H. clear r0 rs Em.
  destruct (length bi =? length y_seq_lens)%nat; [| discriminate].
  injection H as <- <-. cbn [width rows].
  set (w := list_max (map (@length Z) chunks)).
  change (repeat eos 3) with [eos; eos; eos].
  assert (Hw : list_max
                 (map (@length Z)
                    (map (fun yb => yb ++ [eos; eos; eos]) chunks))
               = (w + 3)%nat).
  { rewrite map_map.
    rewrite (map_ext _ (fun c => (length c + 3)%nat))
      by (intros c; rewrite length_app; reflexivity).
    rewrite <- (map_map (@length Z) (fun n => (n + 3)%nat)).
    apply list_max_shift. destruct chunks; [congruence | discriminate]. }
  rewrite Hw.
  assert (Hrows :
    Torch.masked_select bi
      (map (fun r => r ++ repeat blank (w + 3 - length r))
         (map (fun yb => yb ++ [eos; eos; eos]) chunks)) =
    map (fun c => c ++ [eos; eos; eos] ++ repeat blank (w - length c))
      (Torch.masked_select bi chunks)).
  { rewrite map_map, masked_select_map. apply map_ext. intros c.
    rewrite <- app_assoc, length_app. cbn [length].
    do 3 f_equal. lia. }
  split; [reflexivity |]. split; [exact Hrows |]. split.
  - rewrite <- Hsz, masked_select_map, map_map. reflexivity.
  - rewrite Hrows. apply Forall_forall. intros r Hr.
    apply in_map_iff in Hr as (c & <- & Hc).
    apply masked_select_incl in Hc.
    assert (length c <= w)%nat
      by (apply list_max_ge, in_map; exact Hc).
    rewrite !length_app, !repeat_length. cbn [length]. lia.
Qed.

Lemma targets_are_labels_eos_blanks_witness :
  make_targets 29 0 [7; 8; 9; 4] [3; 1] [false; true] =
    Some ({| width := 6; rows := [[4; 29; 29; 29; 0; 0]] |}, [4]) /\
  exists chunks,
    split [7; 8; 9; 4] [3; 1] = Some chunks /\
    list_max (map (@length Z) chunks) = 3%nat.
Proof.
  assert (H : make_targets 29 0 [7; 8; 9; 4] [3; 1] [false; true] =
    Some ({| width := 6; rows := [[4; 29; 29; 29; 0; 0]] |}, [4]))
    by reflexivity.
  split; [exact H |].
  destruct (targets_are_labels_eos_blanks 29 0 _ _ _ _ _ H)
    as (chunks & Hs & Hw & _).
  exists chunks. split; [exact Hs |]. simpl in Hw. lia.
Defined.

Lemma masked_select_forall2 {A B : Type} (P : A -> B -> Prop)
  (da : A) (db : B) (bi : list bool) (xs : list A) (ys : list B) :
  length xs = length ys ->
  (forall i, (i < length xs)%nat -> nth i bi false = true ->
     P (nth i xs da) (nth i ys db)) ->
  Forall2 P (Torch.masked_select bi xs) (Torch.masked_select bi ys).
Proof.
  revert xs ys.
  induction bi as [| m bi IH]; intros [| a xs] [| b ys] Hl HP;
    simpl in Hl; try discriminate; try constructor.
  cbn [Torch.masked_select].
  assert (Hrest : Forall2 P (Torch.masked_select bi xs)
                    (Torch.masked_select bi ys)).
  { apply IH; [lia |]. intros i Hi Hb.
    apply (HP (S i)); [simpl; lia | exact Hb]. }
  destruct m; [| exact Hrest].
  constructor; [| exact Hrest].
  apply (HP 0%nat); [simpl; lia | reflexivity].
Qed.

Lemma Forall2_map_r {A B C : Type} (P : A -> C -> Prop) (f : B -> C)
  (l1 : list A) (l2 : list B) :
  Forall2 (fun a b => P a (f b)) l1 l2 -> Forall2 P l1 (map f l2).
Proof.
  induction 1; constructor; assumption.
Qed.

Lemma make_targets_inv
  (eos blank : Z) (y y_seq_lens : list Z) (bi : list bool)
  (ys : padded) (ys_seq_lens : list Z) :
  make_targets eos blank y y_seq_lens bi = Some (ys, ys_seq_lens) ->
  ys_seq_lens = map (fun l => l + 3) (Torch.masked_select bi y_seq_lens) /\
  exists all_rows : list (list Z),
    length all_rows = length y_seq_lens /\
    rows ys = Torch.masked_select bi all_rows.
Proof.
  unfold make_targets. intros H.
  destruct (split y y_seq_lens) as [chunks |] eqn:Es; [| discriminate].
  destruct (split_some _ _ _ Es) as [_ Hsz].
  unfold pad_sequence in H.
  destruct (map (fun yb => yb ++ repeat eos Speller.num_eos) chunks)
    as [| r0 rs] eqn:Em; [discriminate |].
  rewrite <- Em in H. clear r0 rs Em.
  destruct (length bi =? length y_seq_lens)%nat; [| discriminate].
  injection H as <- <-. split; [reflexivity |].
  eexists. split; [| reflexivity].
  rewrite !length_map, <- Hsz, length_map. reflexivity.
Qed.

(** X18.  On the training path the retained frame lengths and the targets
    come from the same mask: there is one target row and one target length
    per retained sample, and every target length, which counts the three
    end-of-sequence labels, is below the frame length plus 3 and below the
    maximum decode length plus 3. *)
Theorem retained_targets_fit
  (mx eos blank : Z) (xs y y_seq_lens : list Z)
  (xs' : list Z) (ys : padded) (ys_seq_lens : list Z) :
  length xs = length y_seq_lens ->
  prepare mx eos blank xs y y_seq_lens = Some (xs', ys, ys_seq_lens) ->
  length (rows ys) = length xs' /\
  Forall2 (fun frames labels => labels < frames + 3 /\ labels < mx + 3)
    xs' ys_seq_lens.
Proof.
  intros Hlen H. unfold prepare in H.
  destruct (make_targets eos blank y y_seq_lens _) as [[ys0 l0] |] eqn:Em;
    [| discriminate].
  injection H as <- <- <-.
  destruct (make_targets_inv _ _ _ _ _ _ _ Em)
    as (Hlens & all_rows & Hal & Hrows).
  cbn [TrainFilter._train_forward_filter TrainFilter.bi
       TrainFilter.x_seq_lens'] in *.
  set (bi := TrainFilter.keep_mask mx xs y_seq_lens) in *.
  split.
  - rewrite Hrows.
    pose proof (masked_select_forall2 (fun _ _ => True) [] 0 bi all_rows xs
                  ltac:(lia) (fun _ _ _ => I)) as HF.
    apply Forall2_length in HF. exact HF.
  - rewrite Hlens.
    pose proof (masked_select_forall2
                  (fun frames l => l + 3 < frames + 3 /\ l + 3 < mx + 3)
                  0 0 bi xs y_seq_lens Hlen) as HF.
    assert (HP : Forall2
              (fun frames l => l + 3 < frames + 3 /\ l + 3 < mx + 3)
              (Torch.masked_select bi xs) (Torch.masked_select bi y_seq_lens)).
    { apply HF. intros i Hi Hb. unfold bi in Hb.
      rewrite keep_mask_nth in Hb by assumption.
      apply andb_true_iff in Hb as [H1 H2].
      apply Z.gtb_gt in H1. apply Z.ltb_lt in H2. lia. }
    clear HF. apply Forall2_map_r. exact HP.
Qed.

Lemma retained_targets_fit_witness :
  (length [50; 30] = length [5; 40] /\
   prepare 256 29 0 [50; 30] (repeat 1 45) [5; 40] =
     Some ([50],
           {| width := 43;
              rows := [repeat 1 5 ++ repeat 29 3 ++ repeat 0 35] |},
           [8])) /\
  Forall2 (fun frames labels => labels < frames + 3 /\ labels < 256 + 3)
    [50] [8].
Proof.
  assert (H : prepare 256 29 0 [50; 30] (repeat 1 45) [5; 40] =
     Some ([50],
           {| width := 43;
              rows := [repeat 1 5 ++ repeat 29 3 ++ repeat 0 35] |},
           [8])) by reflexivity.
  split; [split; [reflexivity | exact H] |].
  apply (retained_targets_fit 256 29 0 [50; 30] (repeat 1 45) [5; 40]
           _ _ _ eq_refl H).
Defined.

(** X19.  After the alignment the distributions and the targets have the
    same time extent, the larger of the two they came with; what was there
    stays in front, the distributions are filled up with the blank slice
    and the target rows with the blank label. *)
Theorem align_equalises_time
  (Dist : Type) (dummy : Dist) (blank : Z) (y_hats : list Dist)
  (ys : padded) :
  Forall (fun r => length r = width ys) (rows ys) ->
  length (fst (align dummy blank y_hats ys)) =
    width (snd (align dummy blank y_hats ys)) /\
  width (snd (align dummy blank y_hats ys)) =
    Nat.max (length y_hats) (width ys) /\
  fst (align dummy blank y_hats ys) =
    y_hats ++ repeat dummy (width ys - length y_hats) /\
  rows (snd (align dummy blank y_hats ys)) =
    map (fun r => r ++ repeat blank (length y_hats - width ys)) (rows ys) /\
  Forall (fun r => length r = width (snd (align dummy blank y_hats ys)))
    (rows (snd (align dummy blank y_hats ys))).
Proof.
  intros Hrect. unfold align.
  destruct (Nat.ltb_spec (length y_hats) (width ys)) as [H1 | H1].
  - cbn [fst snd].
    split; [rewrite length_app, repeat_length; lia |].
    split; [lia |]. split; [reflexivity |]. split; [| exact Hrect].
    replace (length y_hats - width ys)%nat with 0%nat by lia.
    cbn [repeat]. rewrite (map_ext _ (fun r => r)) by (intros; apply app_nil_r).
    symmetry. apply map_id.
  - destruct (Nat.ltb_spec (width ys) (length y_hats)) as [H2 | H2];
      cbn [fst snd width rows].
    + split; [lia |]. split; [lia |]. split.
      * replace (width ys - length y_hats)%nat with 0%nat by lia.
        cbn [repeat]. symmetry. apply app_nil_r.
      * split; [reflexivity |].
        apply Forall_forall. intros r Hr.
        apply in_map_iff in Hr as (r0 & <- & Hr0).
        rewrite Forall_forall in Hrect.
        rewrite length_app, repeat_length, (Hrect r0 Hr0). reflexivity.
    + split; [lia |]. split; [lia |]. split.
      * replace (width ys - length y_hats)%nat with 0%nat by lia.
        cbn [repeat]. symmetry. apply app_nil_r.
      * split; [| exact Hrect].
        replace (length y_hats - width ys)%nat with 0%nat by lia.
        cbn [repeat].
        rewrite (map_ext _ (fun r => r)) by (intros; apply app_nil_r).
        symmetry. apply map_id.
Qed.

(** Three decoded steps against targets of width 2. *)
Lemma align_equalises_time_witness :
  Forall (fun r => length r = width (mk_padded 2 [[4; 29]]))
    (rows (mk_padded 2 [[4; 29]])) /\
  rows (snd (align 0%nat 0 [7%nat; 7%nat; 7%nat] (mk_padded 2 [[4; 29]]))) =
    [[4; 29; 0]] /\
  length (fst (align 0%nat 0 [7%nat; 7%nat; 7%nat] (mk_padded 2 [[4; 29]]))) =
    width (snd (align 0%nat 0 [7%nat; 7%nat; 7%nat] (mk_padded 2 [[4; 29]]))).
Proof.
  assert (H : Forall (fun r => length r = width (mk_padded 2 [[4; 29]]))
                (rows (mk_padded 2 [[4; 29]])))
    by (repeat constructor).
  split; [exact H |].
  destruct (align_equalises_time nat 0%nat 0 [7%nat; 7%nat; 7%nat]
              (mk_padded 2 [[4; 29]]) H) as (H1 & _ & _ & H4 & _).
  split; [exact H4 | exact H1].
Defined.

End TrainTargetsFacts.

(** ** Shapes: split_last, merge_last and view *)

Section ShapeFacts.

Import Shape.
Local Open Scope Z_scope.

Lemma prod_app (a b : shape) : prod (a ++ b) = prod a * prod b.
Proof.
  unfold prod. induction a as [| x a IH]; cbn [app fold_right]; [ring |].
  rewrite IH. ring.
Qed.

Lemma prod_pos (a : shape) : Forall (fun d => 0 < d) a -> 0 < prod a.
Proof.
  unfold prod. induction 1 as [| x a Hx _ IH]; cbn [fold_right]; [lia | nia].
Qed.

Lemma no_low_entries (a : shape) :
  Forall (fun d => 0 <= d) a -> existsb (fun d => d <? -1) a = false.
Proof.
  induction 1 as [| x a Hx _ IH]; simpl; [reflexivity |].
  rewrite IH. destruct (Z.ltb_spec x (-1)); [lia | reflexivity].
Qed.

Lemma no_minus1 (a : shape) :
  Forall (fun d => 0 <= d) a -> count_occ Z.eq_dec a (-1) = 0%nat.
Proof.
  induction 1 as [| x a Hx _ IH]; simpl; [reflexivity |].
  destruct (Z.eq_dec x (-1)); [lia | exact IH].
Qed.

Lemma map_keeps (v : Z) (a : shape) :
  Forall (fun d => 0 <= d) a ->
  map (fun d => if d =? -1 then v else d) a = a.
Proof.
  induction 1 as [| x a Hx _ IH]; simpl; [reflexivity |].
  rewrite IH. destruct (Z.eqb_spec x (-1)); [lia | reflexivity].
Qed.

(** A view that keeps the front and re-splits the rest. *)
Lemma view_exact (old front tail : shape) :
  Forall (fun d => 0 <= d) front -> Forall (fun d => 0 <= d) tail ->
  prod (front ++ tail) = prod old ->
  view old (front ++ tail) = Some (front ++ tail).
Proof.
  intros Hf Ht Hp. unfold view.
  assert (Hall : Forall (fun d => 0 <= d) (front ++ tail))
    by (apply Forall_app; now split).
  rewrite no_low_entries by exact Hall.
  rewrite no_minus1 by exact Hall.
  rewrite Hp, Z.eqb_refl. reflexivity.
Qed.

(** A view that infers the last size. *)
Lemma view_infer_last (old front : shape) :
  Forall (fun d => 0 < d) front ->
  prod old mod prod front = 0 ->
  view old (front ++ [-1]) = Some (front ++ [prod old / prod front]).
Proof.
  intros Hf Hm. unfold view.
  assert (Hf0 : Forall (fun d => 0 <= d) front).
  { eapply Forall_impl; [| exact Hf]. simpl. intros; lia. }
  pose proof (prod_pos front Hf) as Hpos.
  rewrite existsb_app, no_low_entries by exact Hf0.
  cbn [existsb orb]. rewrite Z.ltb_irrefl. cbn [orb].
  rewrite count_occ_app, no_minus1 by exact Hf0. cbn [count_occ].
  destruct (Z.eq_dec (-1) (-1)) as [_ | C]; [| congruence]. cbn [Nat.add].
  assert (Ho : - prod (front ++ [-1]) = prod front).
  { rewrite prod_app. unfold prod at 2. cbn [fold_right]. ring. }
  rewrite Ho.
  destruct (Z.eqb_spec (prod front) 0); [lia |].
  rewrite Hm, Z.eqb_refl, map_app, map_keeps by exact Hf0. reflexivity.
Qed.

Lemma removelast_snoc {A : Type} (l : list A) (a : A) :
  removelast (l ++ [a]) = l.
Proof. apply removelast_last. Qed.

Lemma split_last_heads (front : shape) (d h : Z) :
  Forall (fun x => 0 < x) front -> 0 < h -> 0 <= d ->
  split_last (front ++ [d]) [h; -1] =
  if d mod h =? 0 then Some (front ++ [h; d / h]) else None.
Proof.
  intros Hf Hh Hd. unfold split_last.
  rewrite rev_app_distr. cbn [rev app].
  cbn [count_occ]. destruct (Z.eq_dec h (-1)); [lia |].
  destruct (Z.eq_dec (-1) (-1)); [| congruence]. cbn [Nat.leb].
  destruct (in_dec Z.eq_dec (-1) [h; -1]) as [_ | Hn];
    [| exfalso; apply Hn; right; now left].
  cbn [prod fold_right].
  replace (h * (-1 * 1)) with (- h) by ring.
  destruct (Z.eqb_spec (- h) 0); [lia |].
  rewrite Z.opp_involutive. cbn [map].
  destruct (Z.eqb_spec h (-1)); [lia |]. rewrite Z.eqb_refl.
  rewrite removelast_snoc.
  assert (Hq : Z.quot d h = d / h) by (apply Z.quot_div_nonneg; lia).
  rewrite Hq.
  assert (Hf0 : Forall (fun x => 0 <= x) front).
  { eapply Forall_impl; [| exact Hf]. simpl. intros; lia. }
  assert (Hdh : 0 <= d / h) by (apply Z.div_pos; lia).
  destruct (Z.eqb_spec (d mod h) 0) as [Hm | Hm].
  - apply view_exact; [exact Hf0 | repeat constructor; lia |].
    rewrite !prod_app. cbn [prod fold_right].
    pose proof (Z.div_mod d h ltac:(lia)). nia.
  - unfold view.
    rewrite existsb_app, no_low_entries by exact Hf0.
    cbn [existsb].
    destruct (Z.ltb_spec h (-1)); [lia |].
    destruct (Z.ltb_spec (d / h) (-1)); [lia |]. cbn [orb].
    rewrite count_occ_app, no_minus1 by exact Hf0. cbn [count_occ].
    destruct (Z.eq_dec h (-1)); [lia |].
    destruct (Z.eq_dec (d / h) (-1)); [lia |]. cbn [Nat.add].
    rewrite !prod_app. cbn [prod fold_right].
    destruct (Z.eqb_spec (prod front * (h * (d / h * 1)))
                (prod front * (d * 1))) as [E | _]; [| reflexivity].
    exfalso. pose proof (prod_pos front Hf).
    pose proof (Z.div_mod d h ltac:(lia)).
    assert (h * (d / h) = d) by nia. lia.
Qed.

Lemma merge_last_two (front : shape) (h w : Z) :
  front <> [] -> Forall (fun x => 0 < x) front -> 0 <= h -> 0 <= w ->
  merge_last (front ++ [h; w]) 2 = Some (front ++ [h * w]).
Proof.
  intros Hne Hf Hh Hw. unfold merge_last.
  rewrite length_app. cbn [length].
  destruct (Z.ltb_spec 2 (Z.of_nat (length front + 2)));
    [| destruct front; [congruence | simpl in *; lia]].
  cbn [Z.ltb Z.compare andb].
  replace (length front + 2 - Z.to_nat 2)%nat with (length front) by lia.
  rewrite firstn_app, firstn_all, Nat.sub_diag. cbn [firstn].
  rewrite app_nil_r.
  pose proof (prod_pos front Hf) as Hp.
  rewrite view_infer_last; [| exact Hf |].
  - rewrite prod_app. cbn [prod fold_right].
    replace (prod front * (h * (w * 1))) with (h * w * prod front) by ring.
    rewrite Z.div_mul by lia. reflexivity.
  - rewrite prod_app. cbn [prod fold_right].
    replace (prod front * (h * (w * 1))) with (h * w * prod front) by ring.
    apply Z.mod_mul. lia.
Qed.

(** X21.  [split_last] with the shape [(h, -1)] raises unless [h] divides
    the last size, and [merge_last] of the last two dimensions undoes it:
    for a tensor with positive leading sizes the round trip gives the shape
    it started from. *)
Theorem split_merge_round_trip (front : shape) (d h : Z) :
  front <> [] -> Forall (fun x => 0 < x) front -> 0 < h -> 0 <= d ->
  (d mod h <> 0 -> split_last (front ++ [d]) [h; -1] = None) /\
  (d mod h = 0 ->
   split_last (front ++ [d]) [h; -1] = Some (front ++ [h; d / h]) /\
   bind (split_last (front ++ [d]) [h; -1]) (fun s => merge_last s 2) =
   Some (front ++ [d])).
Proof.
  intros Hne Hf Hh Hd.
  rewrite split_last_heads by assumption.
  split; intros Hm.
  - destruct (Z.eqb_spec (d mod h) 0); [contradiction | reflexivity].
  - rewrite Hm. cbn [Z.eqb bind]. split; [reflexivity |].
    rewrite merge_last_two;
      [| exact Hne | exact Hf | lia | apply Z.div_pos; lia].
    do 3 f_equal. pose proof (Z.div_mod d h ltac:(lia)). lia.
Qed.

Lemma split_merge_round_trip_witness :
  ([2; 5] <> [] /\ Forall (fun x => 0 < x) [2; 5] /\ 0 < 4 /\ 0 <= 512) /\
  split_last [2; 5; 512] [4; -1] = Some [2; 5; 4; 128] /\
  split_last [2; 5; 510] [4; -1] = None.
Proof.
  assert (H1 : [2; 5] <> []) by discriminate.
  assert (H2 : Forall (fun x => 0 < x) [2; 5]) by (repeat constructor).
  split; [repeat split; try assumption; lia |].
  destruct (split_merge_round_trip [2; 5] 512 4 H1 H2 ltac:(lia) ltac:(lia))
    as [_ Hs].
  split; [apply (Hs eq_refl) | reflexivity].
Defined.

End ShapeFacts.

(** ** Shapes: Attention, MultiHeadedSelfAttention, SequenceWise *)

Section AttentionShapeFacts.

Import Shape.
Import AttentionShape.
Local Open Scope Z_scope.

Lemma linear3 (fin fout b t : Z) :
  linear fin fout [b; t; fin] = Some [b; t; fout].
Proof.
  unfold linear. cbn [rev app]. rewrite Z.eqb_refl. reflexivity.
Qed.

Lemma transpose_12_of_3 (a b c : Z) :
  transpose 1 2 [a; b; c] = Some [a; c; b].
Proof. reflexivity. Qed.

Lemma transpose_12_of_4 (a b c d : Z) :
  transpose 1 2 [a; b; c; d] = Some [a; c; b; d].
Proof. reflexivity. Qed.

Lemma transpose_last_two_of_4 (a b c d : Z) :
  transpose (-2) (-1) [a; b; c; d] = Some [a; b; d; c].
Proof. reflexivity. Qed.

Lemma transpose_01_of_4 (a b c d : Z) :
  transpose 0 1 [a; b; c; d] = Some [b; a; c; d].
Proof. reflexivity. Qed.

Lemma bmm3 (b n m p : Z) : bmm [b; n; m] [b; m; p] = Some [b; n; p].
Proof.
  unfold bmm. rewrite !Z.eqb_refl. reflexivity.
Qed.

Lemma score3 (b d t : Z) : score [b; 1; d] [b; t; d] = Some [b; 1; t].
Proof.
  unfold score. rewrite transpose_12_of_3. cbn [bind]. apply bmm3.
Qed.

Lemma matmul4 (b h n m p : Z) :
  matmul [b; h; n; m] [b; h; m; p] = Some [b; h; n; p].
Proof.
  unfold matmul. cbn [rev app]. rewrite Z.eqb_refl.
  cbn [broadcast_rev]. unfold broadcast1. rewrite !Z.eqb_refl.
  reflexivity.
Qed.

Lemma broadcast1_one (a : Z) : broadcast1 a 1 = Some a.
Proof.
  unfold broadcast1. destruct (Z.eqb_spec a 1) as [-> | _]; [reflexivity |].
  reflexivity.
Qed.

Lemma broadcast1_same (a : Z) : broadcast1 a a = Some a.
Proof. unfold broadcast1. rewrite Z.eqb_refl. reflexivity. Qed.

Lemma normal_shape (mask : option shape) (b t : Z) :
  0 < b -> 0 < t -> mask = None \/ mask = Some [b; t] ->
  sequence_wise (masked_softmax mask) [b; 1; t] = Some [b; 1; t].
Proof.
  intros Hb Ht Hm. unfold sequence_wise.
  assert (V1 : view [b; 1; t] [b * 1; -1] = Some [b; t]).
  { change [b * 1; -1] with ([b * 1] ++ [-1]).
    rewrite (view_infer_last [b; 1; t] [b * 1])
      by (try (repeat constructor; lia);
          unfold prod; cbn [fold_right];
          replace (b * (1 * (t * 1))) with (t * (b * 1 * 1)) by ring;
          apply Z.mod_mul; lia).
    unfold prod; cbn [fold_right app].
    replace (b * (1 * (t * 1))) with (t * (b * 1 * 1)) by ring.
    rewrite Z.div_mul by lia. rewrite Z.mul_1_r. reflexivity. }
  rewrite V1. cbn [bind].
  assert (V2 : masked_softmax mask [b; t] = Some [b; t]).
  { destruct Hm as [-> | ->]; [reflexivity |].
    unfold masked_softmax, prod. cbn [fold_right].
    destruct (Z.eqb_spec (b * (t * 1)) 0); [nia |].
    unfold broadcast. cbn [rev app broadcast_rev].
    rewrite !broadcast1_same. reflexivity. }
  rewrite V2. cbn [bind].
  change [b; 1; -1] with ([b; 1] ++ [-1]).
  rewrite (view_infer_last [b; t] [b; 1])
    by (try (repeat constructor; lia);
        unfold prod; cbn [fold_right];
        replace (b * (t * 1)) with (t * (b * (1 * 1))) by ring;
        apply Z.mod_mul; lia).
  unfold prod; cbn [fold_right app].
  replace (b * (t * 1)) with (t * (b * (1 * 1))) by ring.
  rewrite Z.div_mul by lia. reflexivity.
Qed.

Lemma map_opt_repeat {A B : Type} (f : A -> option B) (a : A) (b : B)
  (n : nat) :
  f a = Some b -> map_opt f (repeat a n) = Some (repeat b n).
Proof.
  intros H. induction n as [| n IH]; [reflexivity |].
  cbn [repeat map_opt]. rewrite H. cbn [bind]. rewrite IH. reflexivity.
Qed.

Lemma forallb_repeat {A : Type} (p : A -> bool) (a : A) (n : nat) :
  p a = true -> forallb p (repeat a n) = true.
Proof.
  intros H. induction n as [| n IH]; [reflexivity |].
  cbn [repeat forallb]. rewrite H, IH. reflexivity.
Qed.

Lemma cat_last_repeat (b l : Z) (n : nat) :
  (1 <= n)%nat ->
  cat_last (repeat [b; 1; l] n) = Some [b; 1; Z.of_nat n * l].
Proof.
  intros Hn. destruct n as [| n]; [lia |].
  unfold cat_last. cbn [repeat].
  rewrite forallb_repeat
    by (destruct (list_eq_dec Z.eq_dec (removelast [b; 1; l])
                    (removelast [b; 1; l])); [reflexivity | congruence]).
  cbn [length Nat.eqb negb andb removelast app].
  do 4 f_equal.
  change ([b; 1; l] :: repeat [b; 1; l] n) with (repeat [b; 1; l] (S n)).
  clear Hn. induction (S n) as [| k IH]; [reflexivity |].
  cbn [repeat map fold_right last]. rewrite IH. lia.
Qed.

Lemma stack_repeat (a : shape) (n : nat) :
  (1 <= n)%nat -> stack (repeat a n) = Some (Z.of_nat n :: a).
Proof.
  intros Hn. destruct n as [| n]; [lia |].
  unfold stack. cbn [repeat].
  rewrite forallb_repeat
    by (destruct (list_eq_dec Z.eq_dec a a); [reflexivity | congruence]).
  change (a :: repeat a n) with (repeat a (S n)).
  rewrite repeat_length. reflexivity.
Qed.

Lemma split_heads (b d heads : Z) :
  0 < d -> 0 < heads ->
  split_last_dim [b; 1; d * heads] (d * heads / heads) =
  Some (repeat [b; 1; d] (Z.to_nat heads)).
Proof.
  intros Hd Hh. unfold split_last_dim. cbn [rev app].
  rewrite Z.div_mul by lia. unfold split_sizes.
  destruct (Z.ltb_spec d 0); [lia |].
  destruct (Z.eqb_spec (d * heads) 0); [nia |].
  destruct (Z.eqb_spec d 0); [lia |].
  rewrite (Z.mul_comm d heads), Z.div_mul, Z.mod_mul by lia.
  cbn [Z.eqb option_map]. rewrite app_nil_r, map_repeat. reflexivity.
Qed.

(** The part of [forward] after the projections, for a query of width
    [d * heads] and keys of width [d]. *)
Lemma forward_after_projection
  (cfg : config) (mask : option shape) (b t d : Z) :
  0 < b -> 0 < t -> 0 < d -> 1 <= num_heads cfg ->
  mask = None \/ mask = Some [b; t] ->
  (let m := [b; 1; d * num_heads cfg] in
   let n := [b; t; d] in
   let h := [b; t; listen_vec_size cfg] in
   let normal := sequence_wise (masked_softmax mask) in
   if 1 <? num_heads cfg then
     bind (if (length m =? 0)%nat then None
           else split_last_dim m (last m 0 / num_heads cfg))
       (fun ms =>
     bind (map_opt (fun mi => score mi n) ms) (fun ee =>
     bind (map_opt normal ee) (fun aa =>
     bind (map_opt (fun a => bmm a h) aa) (fun cs =>
     bind (cat_last cs) (fun cc =>
     bind (linear (listen_vec_size cfg * num_heads cfg)
             (listen_vec_size cfg) cc) (fun c =>
     bind (stack aa) (fun st =>
     bind (transpose 0 1 st) (fun a => Some (c, a)))))))))
   else
     bind (score m n) (fun e =>
     bind (normal e) (fun a =>
     bind (bmm a h) (fun c =>
     match a with
     | [] => None
     | a0 :: rest => Some (c, a0 :: 1 :: rest)
     end))))
  = Some ([b; 1; listen_vec_size cfg], [b; num_heads cfg; 1; t]).
Proof.
  intros Hb Ht Hd Hh Hm. cbv zeta.
  destruct (Z.ltb_spec 1 (num_heads cfg)) as [H1 | H1].
  - cbn [length Nat.eqb last].
    rewrite split_heads by lia. cbn [bind].
    assert (Hn : (1 <= Z.to_nat (num_heads cfg))%nat) by lia.
    rewrite (map_opt_repeat (fun mi => score mi [b; t; d]) [b; 1; d]
               [b; 1; t] _ (score3 b d t)). cbn [bind].
    rewrite (map_opt_repeat (sequence_wise (masked_softmax mask)) _ _ _
               (normal_shape mask b t Hb Ht Hm)).
    cbn [bind].
    rewrite (map_opt_repeat
               (fun a => bmm a [b; t; listen_vec_size cfg]) [b; 1; t]
               [b; 1; listen_vec_size cfg] _
               (bmm3 b 1 t (listen_vec_size cfg))).
    cbn [bind].
    rewrite cat_last_repeat by exact Hn. cbn [bind].
    rewrite Z2Nat.id by lia.
    rewrite (Z.mul_comm (num_heads cfg) (listen_vec_size cfg)), linear3.
    cbn [bind]. rewrite stack_repeat by exact Hn. cbn [bind].
    rewrite Z2Nat.id by lia. rewrite transpose_01_of_4. reflexivity.
  - assert (E : num_heads cfg = 1) by lia. rewrite E, Z.mul_1_r.
    rewrite score3. cbn [bind].
    rewrite (normal_shape mask b t Hb Ht Hm). cbn [bind].
    rewrite bmm3. reflexivity.
Qed.

(** X22.  For an attention module that [__init__] accepts, with at least
    one head, a query of shape (batch, 1, state_vec_size), an encoded
    sequence of shape (batch, time, listen_vec_size) and no mask or a mask
    of shape (batch, time), [forward] returns a context of shape
    (batch, 1, listen_vec_size) and weights of shape
    (batch, heads, 1, time), with or without the projections. *)
Theorem attention_shapes
  (cfg : config) (mask : option shape) (b t : Z) :
  init cfg = Some cfg ->
  0 < b -> 0 < t -> 0 < listen_vec_size cfg -> 0 < proj_hidden_size cfg ->
  1 <= num_heads cfg ->
  mask = None \/ mask = Some [b; t] ->
  forward cfg [b; 1; state_vec_size cfg] [b; t; listen_vec_size cfg] mask =
  Some ([b; 1; listen_vec_size cfg], [b; num_heads cfg; 1; t]).
Proof.
  intros Hi Hb Ht Hl Hp Hh Hm. unfold forward.
  destruct (apply_proj cfg) eqn:Ea.
  - rewrite !linear3. cbn [bind].
    apply (forward_after_projection cfg mask b t (proj_hidden_size cfg));
      assumption.
  - unfold init in Hi. rewrite Ea in Hi.
    destruct (Z.eqb_spec (state_vec_size cfg)
                (listen_vec_size cfg * num_heads cfg)) as [E | E];
      [| discriminate].
    rewrite E. cbn [bind].
    apply (forward_after_projection cfg mask b t (listen_vec_size cfg));
      assumption.
Qed.

(** The attention of the model: four heads over a width of 256. *)
Lemma attention_shapes_witness :
  (init (mk_config 256 256 true 256 4) = Some (mk_config 256 256 true 256 4)
   /\ 0 < 2 /\ 0 < 50 /\ 0 < 256 /\ 0 < 256 /\ 1 <= 4) /\
  forward (mk_config 256 256 true 256 4) [2; 1; 256] [2; 50; 256]
    (Some [2; 50]) = Some ([2; 1; 256], [2; 4; 1; 50]).
Proof.
  split; [repeat split; lia |].
  apply (attention_shapes (mk_config 256 256 true 256 4) (Some [2; 50]) 2 50
           eq_refl ltac:(lia) ltac:(lia) ltac:(simpl; lia) ltac:(simpl; lia)
           ltac:(simpl; lia) (or_intror eq_refl)).
Defined.

(** X23.  [MultiHeadedSelfAttention.forward] on queries of shape
    (batch, s_q, state_vec_size) and keys of shape
    (batch, s_k, listen_vec_size), without a mask or with a mask of shape
    (batch, s_k): when the number of heads divides the projection width the
    result has shape (batch, s_q, projection width); when it does not, the
    call raises. *)
Theorem multi_head_shape
  (state listen p heads b sq sk : Z) (mask : option shape) :
  0 < b -> 0 < sq -> 0 < sk -> 0 < heads -> 0 < p ->
  mask = None \/ mask = Some [b; sk] ->
  mh_forward (mk_mh_config state listen p heads)
    [b; sq; state] [b; sk; listen] mask =
  if p mod heads =? 0 then Some [b; sq; p] else None.
Proof.
  intros Hb Hsq Hsk Hh Hp Hm. unfold mh_forward.
  cbn [mh_state_vec_size mh_listen_vec_size mh_proj_hidden_size n_heads].
  rewrite !linear3. cbn [bind].
  change [b; sq; p] with ([b; sq] ++ [p]).
  change [b; sk; p] with ([b; sk] ++ [p]).
  rewrite (split_last_heads [b; sq] p heads)
    by (try (repeat constructor; lia); lia).
  destruct (Z.eqb_spec (p mod heads) 0) as [E | E]; [| reflexivity].
  cbn [bind app]. rewrite transpose_12_of_4. cbn [bind].
  change [b; sk; p] with ([b; sk] ++ [p]).
  rewrite (split_last_heads [b; sk] p heads)
    by (try (repeat constructor; lia); lia).
  rewrite E. cbn [Z.eqb bind app]. rewrite !transpose_12_of_4. cbn [bind].
  rewrite transpose_last_two_of_4. cbn [bind].
  rewrite matmul4. cbn [bind].
  assert (Tail :
    bind (matmul [b; heads; sq; sk] [b; heads; sk; p / heads])
      (fun h => bind (transpose 1 2 h) (fun h => merge_last h 2)) =
    Some [b; sq; p]).
  { rewrite matmul4. cbn [bind]. rewrite transpose_12_of_4. cbn [bind].
    change [b; sq; heads; p / heads] with ([b; sq] ++ [heads; p / heads]).
    rewrite (merge_last_two [b; sq] heads (p / heads))
      by (try discriminate; try (repeat constructor; lia);
          try lia; apply Z.div_pos; lia).
    cbn [app]. do 4 f_equal.
    pose proof (Z.div_mod p heads ltac:(lia)). lia. }
  destruct Hm as [-> | ->].
  - cbn [bind]. exact Tail.
  - unfold broadcast. cbn [rev app broadcast_rev].
    rewrite !broadcast1_same, !broadcast1_one. cbn [option_map rev app bind].
    destruct (list_eq_dec Z.eq_dec [b; heads; sq; sk] [b; heads; sq; sk]);
      [| congruence].
    cbn [bind]. exact Tail.
Qed.

Lemma multi_head_shape_witness :
  (0 < 2 /\ 0 < 7 /\ 0 < 9 /\ 0 < 8 /\ 0 < 512) /\
  mh_forward (mk_mh_config 256 256 512 8) [2; 7; 256] [2; 9; 256]
    (Some [2; 9]) = Some [2; 7; 512].
Proof.
  split; [lia |].
  apply (multi_head_shape 256 256 512 8 2 7 9 (Some [2; 9])
           ltac:(lia) ltac:(lia) ltac:(lia) ltac:(lia) ltac:(lia)
           (or_intror eq_refl)).
Defined.

(** X24.  [SequenceWise] hands its module the input with the two leading
    dimensions merged and all the others collapsed into one, and gives the
    result the two leading dimensions back: a module that maps
    (t * n, width) to (t * n, g) yields (t, n, g).  On an input whose two
    leading sizes multiply to 0 the first [view] raises. *)
Theorem sequence_wise_restores_leading
  (module : shape -> option shape) (t n g : Z) (rest : shape) :
  0 <= t -> 0 <= n -> 0 <= g -> Forall (fun d => 0 <= d) rest ->
  (t * n = 0 -> sequence_wise module (t :: n :: rest) = None) /\
  (0 < t * n ->
   module [t * n; prod rest] = Some [t * n; g] ->
   sequence_wise module (t :: n :: rest) = Some [t; n; g]).
Proof.
  intros Ht Hn Hg Hr. unfold sequence_wise. split.
  - intros E. unfold view. cbn [existsb]. rewrite E.
    cbn [Z.ltb Z.compare orb count_occ].
    destruct (Z.eq_dec 0 (-1)); [lia |].
    destruct (Z.eq_dec (-1) (-1)); [| congruence]. cbn [Nat.add].
    unfold prod at 1. cbn [fold_right Z.mul Z.opp Z.eqb]. reflexivity.
  - intros Hpos Hmod.
    assert (Htn : 0 < t /\ 0 < n) by nia. destruct Htn as [Ht' Hn'].
    change [t * n; -1] with ([t * n] ++ [-1]).
    assert (P1 : prod (t :: n :: rest) = prod rest * prod [t * n])
      by (unfold prod; cbn [fold_right]; ring).
    rewrite (view_infer_last (t :: n :: rest) [t * n])
      by (try (repeat constructor; lia);
          rewrite P1; apply Z.mod_mul;
          unfold prod; cbn [fold_right]; lia).
    rewrite P1, Z.div_mul by (unfold prod; cbn [fold_right]; lia).
    cbn [app bind]. rewrite Hmod. cbn [bind].
    change [t; n; -1] with ([t; n] ++ [-1]).
    assert (P2 : prod [t * n; g] = g * prod [t; n])
      by (unfold prod; cbn [fold_right]; ring).
    rewrite (view_infer_last [t * n; g] [t; n])
      by (try (repeat constructor; lia);
          rewrite P2; apply Z.mod_mul;
          unfold prod; cbn [fold_right]; lia).
    rewrite P2, Z.div_mul by (unfold prod; cbn [fold_right]; lia).
    reflexivity.
Qed.

(** A linear layer from 512 to 256 features under [SequenceWise]. *)
Lemma sequence_wise_restores_leading_witness :
  (0 <= 50 /\ 0 <= 2 /\ 0 <= 256 /\ Forall (fun d => 0 <= d) [512] /\
   0 < 50 * 2 /\
   linear 512 256 [50 * 2; prod [512]] = Some [50 * 2; 256]) /\
  sequence_wise (linear 512 256) [50; 2; 512] = Some [50; 2; 256].
Proof.
  assert (Hr : Forall (fun d => 0 <= d) [512]) by (repeat constructor; lia).
  split; [repeat split; try lia; try exact Hr; reflexivity |].
  destruct (sequence_wise_restores_leading (linear 512 256) 50 2 256 [512]
              ltac:(lia) ltac:(lia) ltac:(lia) Hr) as [_ H].
  apply H; [lia | reflexivity].
Defined.

End AttentionShapeFacts.
